(** * The constellation background of [src/js/script.js]

    A shallow embedding of [initializeConstellation]: the particle field,
    its per-frame update, the spatial-hash line pass [connectParticles],
    particle creation and resize handling, and the shooting stars.

    Number model.  JavaScript numbers are modelled as mathematical reals
    ([R]); rounding of IEEE doubles, NaN and the infinities are not
    modelled.  Numbers the program only ever uses as integers (canvas
    sizes, cell rows and columns, grid keys, array indices, the frame
    counter) are [Z] or [nat].  [Math.random] reads the next element of
    an explicit stream that is threaded through the code that draws from
    it.  Where a bound would hinge on the last digit of a double, it is
    stated with a margin. *)

From Stdlib Require Import Reals Zfloor Lra Lia ZArith List Permutation Sorted Bool.
From Stdlib Require String Ascii.
Import ListNotations.

Open Scope R_scope.

(** ** JavaScript primitives *)

Module JS.

(** [a < b] as the boolean the program branches on. *)
Definition ltb (a b : R) : bool := if Rlt_dec a b then true else false.

(** [a <= b]. *)
Definition leb (a b : R) : bool := if Rle_dec a b then true else false.

Definition Math_floor (a : R) : Z := Zfloor a.
Definition Math_ceil (a : R) : Z := Zceil a.
Definition Math_abs (a : R) : R := Rabs a.
Definition Math_sqrt (a : R) : R := sqrt a.
Definition Math_sin (a : R) : R := sin a.
Definition Math_cos (a : R) : R := cos a.
Definition Math_PI : R := PI.

(** The stream of values that successive calls of [Math.random] return. *)
Definition Rng : Type := nat -> R.

(** [Math.random] returns a value in [0, 1). *)
Definition rng_ok (s : Rng) : Prop := forall n, 0 <= s n < 1.

(** Computations that draw random numbers. *)
Definition Rand (A : Type) : Type := Rng -> A * Rng.

Definition ret {A} (a : A) : Rand A := fun s => (a, s).

Definition bind {A B} (m : Rand A) (k : A -> Rand B) : Rand B :=
  fun s => let (a, s') := m s in k a s'.

Definition Math_random : Rand R :=
  fun s => (s 0%nat, fun n => s (S n)).

End JS.

Notation "x <- m ;; k" := (JS.bind m (fun x => k))
  (at level 61, m at next level, right associativity).

(** ** Configuration constants: [CONFIG.constellation] *)

Module CONFIG.
Definition particleDensity : Z := 15000.
Definition particleDensityMobile : Z := 30000.
Definition connectionDistance : R := 120.
Definition particleSpeedRange : R := 0.4.
Definition particleMinRadius : R := 0.5.
Definition particleMaxRadius : R := 2.0.
Definition mouseRadius : R := 180.
Definition mouseRepelForce : R := 0.08.
Definition mouseReturnSpeed : R := 0.02.
Definition shootingStarSpeed : R := 12.
Definition shootingStarLength : R := 80.
Definition pulseSpeed : R := 0.002.
End CONFIG.

(** ** The host environment the renderer reads *)

(** [canvas.width], [canvas.height]: unsigned integers. *)
Record Canvas : Type := mkCanvas { width : N; height : N }.

(** [window.innerWidth], [window.innerHeight]. *)
Record Window : Type := mkWindow { innerWidth : N; innerHeight : N }.

(** [const mouse = { x: -1000, y: -1000, active: false }]. *)
Record Mouse : Type := mkMouse { mouse_x : R; mouse_y : R; active : bool }.

Definition mouse_init : Mouse := mkMouse (-1000) (-1000) false.

(** ** [class Particle] *)

Module Particle.

Record t : Type := mk {
  x : R; y : R;
  vx : R; vy : R;
  baseVx : R; baseVy : R;
  baseRadius : R;
  radius : R;
  pulseOffset : R
}.

(** [reset()], called by the constructor. *)
Definition reset (canvas : Canvas) : JS.Rand t :=
  x0 <- JS.Math_random ;;
  y0 <- JS.Math_random ;;
  vx0 <- JS.Math_random ;;
  vy0 <- JS.Math_random ;;
  r0 <- JS.Math_random ;;
  o0 <- JS.Math_random ;;
  let vx := vx0 * CONFIG.particleSpeedRange - CONFIG.particleSpeedRange / 2 in
  let vy := vy0 * CONFIG.particleSpeedRange - CONFIG.particleSpeedRange / 2 in
  let baseRadius :=
    r0 * (CONFIG.particleMaxRadius - CONFIG.particleMinRadius)
    + CONFIG.particleMinRadius in
  JS.ret {| x := x0 * IZR (Z.of_N (width canvas));
            y := y0 * IZR (Z.of_N (height canvas));
            vx := vx; vy := vy;
            baseVx := vx; baseVy := vy;
            baseRadius := baseRadius;
            radius := baseRadius;
            pulseOffset := o0 * JS.Math_PI * 2 |}.

(** The pointer interaction of [update()]: the velocity after the
    [if (mouse.active) { ... }] block. *)
Definition repel (mouse : Mouse) (p : t) : R * R :=
  if active mouse then
    let dx := x p - mouse_x mouse in
    let dy := y p - mouse_y mouse in
    let dist := JS.Math_sqrt (dx * dx + dy * dy) in
    if JS.ltb dist CONFIG.mouseRadius && JS.ltb 0 dist then
      let force := (1 - dist / CONFIG.mouseRadius) * CONFIG.mouseRepelForce in
      (vx p + (dx / dist) * force, vy p + (dy / dist) * force)
    else (vx p, vy p)
  else (vx p, vy p).

(** One axis of "clamp position and ensure correct velocity direction":
    the position after integration [pos], the velocity [v] and the upper
    bound [hi] give the clamped position and the velocity. *)
Definition clamp (pos v hi : R) : R * R :=
  if JS.ltb pos 0 then (0, JS.Math_abs v)
  else if JS.ltb hi pos then (hi, - JS.Math_abs v)
  else (pos, v).

(** [update()]. *)
Definition update (canvas : Canvas) (mouse : Mouse) (frameCount : Z) (p : t) : t :=
  let radius' :=
    baseRadius p
    + JS.Math_sin (IZR frameCount * CONFIG.pulseSpeed + pulseOffset p) * 0.4 in
  let '(vx1, vy1) := repel mouse p in
  let vx2 := vx1 + (baseVx p - vx1) * CONFIG.mouseReturnSpeed in
  let vy2 := vy1 + (baseVy p - vy1) * CONFIG.mouseReturnSpeed in
  let x1 := x p + vx2 in
  let y1 := y p + vy2 in
  let '(x2, vx3) := clamp x1 vx2 (IZR (Z.of_N (width canvas))) in
  let '(y2, vy3) := clamp y1 vy2 (IZR (Z.of_N (height canvas))) in
  {| x := x2; y := y2; vx := vx3; vy := vy3;
     baseVx := baseVx p; baseVy := baseVy p;
     baseRadius := baseRadius p;
     radius := radius';
     pulseOffset := pulseOffset p |}.

End Particle.

(** ** [class ShootingStar] *)

Module ShootingStar.

Record t : Type := mk {
  x : R; y : R;
  vx : R; vy : R;
  length : R;
  life : R;
  decay : R
}.

(** [constructor()]: the star enters from the top or the left edge. *)
Definition new (canvas : Canvas) : JS.Rand t :=
  side <- JS.Math_random ;;
  pos <- JS.Math_random ;;
  a <- JS.Math_random ;;
  l <- JS.Math_random ;;
  d <- JS.Math_random ;;
  let '(x0, y0) :=
    if JS.ltb side 0.5 then (pos * IZR (Z.of_N (width canvas)), -10)
    else (-10, pos * IZR (Z.of_N (height canvas)) * 0.5) in
  let angle := JS.Math_PI / 6 + a * JS.Math_PI / 4 in
  JS.ret {| x := x0; y := y0;
            vx := JS.Math_cos angle * CONFIG.shootingStarSpeed;
            vy := JS.Math_sin angle * CONFIG.shootingStarSpeed;
            length := CONFIG.shootingStarLength + l * 40;
            life := 1.0;
            decay := 0.008 + d * 0.008 |}.

(** [update()]. *)
Definition update (s : t) : t :=
  {| x := x s + vx s; y := y s + vy s;
     vx := vx s; vy := vy s;
     length := length s;
     life := life s - decay s;
     decay := decay s |}.

(** What [draw(ctx, rgb)] paints: the streak from the tail to the head
    and the opacities of its gradient end and of the bright head. *)
Record Streak : Type := mkStreak {
  tailX : R; tailY : R; headX : R; headY : R;
  streakAlpha : R; headAlpha : R
}.

(** [draw(ctx, rgb)]: nothing is painted once [life <= 0]. *)
Definition draw (s : t) : option Streak :=
  if JS.leb (life s) 0 then None
  else
    let speed := JS.Math_sqrt (vx s * vx s + vy s * vy s) in
    Some {| tailX := x s - (vx s / speed) * length s;
            tailY := y s - (vy s / speed) * length s;
            headX := x s; headY := y s;
            streakAlpha := life s * 0.8;
            headAlpha := life s * 0.6 |}.

(** [isDead()]. *)
Definition isDead (canvas : Canvas) (s : t) : bool :=
  JS.leb (life s) 0
  || JS.ltb (IZR (Z.of_N (width canvas)) + 50) (x s)
  || JS.ltb (IZR (Z.of_N (height canvas)) + 50) (y s).

End ShootingStar.

(** ** The line pass: [connectParticles] *)

(** One [ctx.stroke()] of the line pass: the line joins
    [particles[stroke_from]] to [particles[stroke_to]] and is painted with
    opacity [stroke_alpha]. *)
Record Stroke : Type := mkStroke {
  stroke_from : nat;
  stroke_to : nat;
  stroke_alpha : R
}.

Module Grid.

(** [const grid = {}]: the own properties in creation order, each
    integer key with the array of particle indices stored under it. *)
Definition t : Type := list (Z * list nat).

(** [grid[key]]. *)
Fixpoint get (key : Z) (g : t) : option (list nat) :=
  match g with
  | [] => None
  | (k, l) :: g' => if Z.eqb k key then Some l else get key g'
  end.

(** [if (!grid[key]) grid[key] = []; grid[key].push(idx);]. *)
Fixpoint push (key : Z) (idx : nat) (g : t) : t :=
  match g with
  | [] => [(key, [idx])]
  | (k, l) :: g' =>
      if Z.eqb k key then (k, l ++ [idx]) :: g'
      else (k, l) :: push key idx g'
  end.

(** A property name is an array index when it is the numeral of an
    integer in [0, 2^32 - 2]. *)
Definition is_array_index (k : Z) : bool :=
  (0 <=? k)%Z && (k <? 2 ^ 32 - 1)%Z.

Fixpoint insert_asc (k : Z) (l : list Z) : list Z :=
  match l with
  | [] => [k]
  | h :: l' => if (k <=? h)%Z then k :: l else h :: insert_asc k l'
  end.

Definition sort_asc (l : list Z) : list Z := fold_right insert_asc [] l.

(** The order in which [for (const cellKey in grid)] visits the keys:
    array indices ascending, then the other keys in creation order. *)
Definition for_in (g : t) : list Z :=
  let keys := map fst g in
  sort_asc (filter is_array_index keys)
  ++ filter (fun k => negb (is_array_index k)) keys.

End Grid.

Definition maxDistSq : R := CONFIG.connectionDistance * CONFIG.connectionDistance.
Definition cellSize : R := CONFIG.connectionDistance.

Definition gridCols (canvas : Canvas) : Z :=
  (JS.Math_ceil (IZR (Z.of_N (width canvas)) / cellSize) + 1)%Z.

Definition gridRows (canvas : Canvas) : Z :=
  (JS.Math_ceil (IZR (Z.of_N (height canvas)) / cellSize) + 1)%Z.

Definition cellCol (p : Particle.t) : Z := JS.Math_floor (Particle.x p / cellSize).
Definition cellRow (p : Particle.t) : Z := JS.Math_floor (Particle.y p / cellSize).

(** [const key = row * cols + col]. *)
Definition cellKey (cols : Z) (p : Particle.t) : Z :=
  (cellRow p * cols + cellCol p)%Z.

(** The first loop of [connectParticles]: the grid of this frame. *)
Definition buildGrid (cols : Z) (particles : list Particle.t) : Grid.t :=
  fold_left (fun g ip => Grid.push (cellKey cols (snd ip)) (fst ip) g)
            (combine (seq 0 (List.length particles)) particles) [].

(** [const neighbors = [[0, 0], [0, 1], [1, -1], [1, 0], [1, 1]]]. *)
Definition neighbors : list (Z * Z) :=
  [(0, 0); (0, 1); (1, -1); (1, 0); (1, 1)]%Z.

(** The two innermost loops: the index pairs
    [(cellParticles[i], neighborParticles[j])] with [j] from [startJ]. *)
Definition cellPairs (isSameCell : bool) (cellParticles neighborParticles : list nat)
  : list (nat * nat) :=
  flat_map
    (fun i =>
       let startJ := if isSameCell then (i + 1)%nat else 0%nat in
       map (fun b => (nth i cellParticles 0%nat, b)) (skipn startJ neighborParticles))
    (seq 0 (List.length cellParticles)).

Definition distSq (p1 p2 : Particle.t) : R :=
  let dx := Particle.x p1 - Particle.x p2 in
  let dy := Particle.y p1 - Particle.y p2 in
  dx * dx + dy * dy.

(** The body of the innermost loop for the index pair [(a, b)]: the
    stroke it paints, if any.  The indices come out of the grid and are
    always below [particles.length]. *)
Definition connectPair (particles : list Particle.t) (ab : nat * nat) : list Stroke :=
  match nth_error particles (fst ab), nth_error particles (snd ab) with
  | Some p1, Some p2 =>
      if JS.ltb (distSq p1 p2) maxDistSq then
        [ {| stroke_from := fst ab; stroke_to := snd ab;
             stroke_alpha :=
               1 - JS.Math_sqrt (distSq p1 p2) / CONFIG.connectionDistance |} ]
      else []
  | _, _ => []
  end.

(** The loop over [neighbors] for the cell stored under [key]. *)
Definition connectCell (cols rows : Z) (grid : Grid.t) (particles : list Particle.t)
    (key : Z) : list Stroke :=
  let cellIdx := key in
  let cellRow := JS.Math_floor (IZR cellIdx / IZR cols) in
  let cellCol := Z.rem cellIdx cols in
  match Grid.get key grid with
  | None => []
  | Some cellParticles =>
      flat_map
        (fun d : Z * Z =>
           let (dr, dc) := d in
           let nr := (cellRow + dr)%Z in
           let nc := (cellCol + dc)%Z in
           if (nr <? 0)%Z || (rows <=? nr)%Z || (nc <? 0)%Z || (cols <=? nc)%Z
           then []
           else
             let neighborKey := (nr * cols + nc)%Z in
             match Grid.get neighborKey grid with
             | None => []
             | Some neighborParticles =>
                 let isSameCell := (dr =? 0)%Z && (dc =? 0)%Z in
                 flat_map (connectPair particles)
                          (cellPairs isSameCell cellParticles neighborParticles)
             end)
        neighbors
  end.

(** [connectParticles(colors)]: the strokes in the order they are painted.
    Keys are below 10^21 (canvas sizes are unsigned 32-bit), where
    [parseInt] of a key's property name gives the key back. *)
Definition connectParticles (canvas : Canvas) (particles : list Particle.t)
  : list Stroke :=
  let cols := gridCols canvas in
  let rows := gridRows canvas in
  let grid := buildGrid cols particles in
  flat_map (connectCell cols rows grid particles) (Grid.for_in grid).

(** ** The renderer: the variables [initializeConstellation] closes over *)

(** The identity of an object created by [new]: objects are numbered in
    the order they are allocated, so two instances are the same object
    exactly when their references are equal. *)
Definition Ref : Type := nat.

Record State : Type := mkState {
  window : Window;                              (* the host's [window] *)
  hidden : bool;                                (* [document.hidden] *)
  random : JS.Rng;                              (* what [Math.random] will return *)
  canvas : Canvas;
  particles : list (Ref * Particle.t);          (* [let particles = []] *)
  shootingStars : list (Ref * ShootingStar.t);  (* [let shootingStars = []] *)
  frameCount : Z;
  mouse : Mouse;
  resizeTimer : bool;                           (* [debounce]'s [timer] is pending *)
  nextRef : Ref                                 (* the next object [new] allocates *)
}.

Definition with_window (w : Window) (st : State) : State :=
  mkState w (hidden st) (random st) (canvas st) (particles st)
          (shootingStars st) (frameCount st) (mouse st) (resizeTimer st) (nextRef st).

Definition with_hidden (h : bool) (st : State) : State :=
  mkState (window st) h (random st) (canvas st) (particles st)
          (shootingStars st) (frameCount st) (mouse st) (resizeTimer st) (nextRef st).

Definition with_canvas (c : Canvas) (st : State) : State :=
  mkState (window st) (hidden st) (random st) c (particles st)
          (shootingStars st) (frameCount st) (mouse st) (resizeTimer st) (nextRef st).

Definition with_mouse (m : Mouse) (st : State) : State :=
  mkState (window st) (hidden st) (random st) (canvas st) (particles st)
          (shootingStars st) (frameCount st) m (resizeTimer st) (nextRef st).

Definition with_resizeTimer (b : bool) (st : State) : State :=
  mkState (window st) (hidden st) (random st) (canvas st) (particles st)
          (shootingStars st) (frameCount st) (mouse st) b (nextRef st).

(** [setCanvasSize()]. *)
Definition setCanvasSize (st : State) : State :=
  with_canvas {| width := innerWidth (window st);
                 height := innerHeight (window st) |} st.

(** [getDensity()]. *)
Definition getDensity (w : Window) : Z :=
  if (innerWidth w <? 768)%N then CONFIG.particleDensityMobile
  else CONFIG.particleDensity.

(** [Math.floor((canvas.width * canvas.height) / getDensity())]. *)
Definition particleCount (c : Canvas) (w : Window) : Z :=
  JS.Math_floor
    (IZR (Z.of_N (width c)) * IZR (Z.of_N (height c)) / IZR (getDensity w)).

(** [count] rounds of [particles.push(new Particle())]. *)
Fixpoint newParticles (c : Canvas) (count : nat) (ref : Ref)
  : JS.Rand (list (Ref * Particle.t)) :=
  match count with
  | O => JS.ret []
  | S k =>
      p <- Particle.reset c ;;
      rest <- newParticles c k (S ref) ;;
      JS.ret ((ref, p) :: rest)
  end.

(** [createParticles()]: the loop [for (let i = 0; i < particleCount; i++)]
    runs [particleCount] times, and not at all for a count below 1. *)
Definition createParticles (st : State) : State :=
  let count := Z.to_nat (particleCount (canvas st) (window st)) in
  let (ps, rng) := newParticles (canvas st) count (nextRef st) (random st) in
  mkState (window st) (hidden st) rng (canvas st) ps
          (shootingStars st) (frameCount st) (mouse st) (resizeTimer st)
          (nextRef st + count)%nat.

(** The function [handleResize] debounces: [setCanvasSize(); createParticles();]. *)
Definition resizeCallback (st : State) : State :=
  createParticles (setCanvasSize st).

(** What one run of [animate] paints (the aurora wash and the vignette,
    which read no particle and change no state, are left out). *)
Record FrameOutput : Type := mkFrameOutput {
  arcs : list (R * R * R);                        (* particle discs: x, y, radius *)
  lines : list Stroke;                            (* [connectParticles] *)
  glow : list (nat * R);                          (* pointer lines: particle index, opacity *)
  streaks : list (Ref * ShootingStar.Streak)      (* shooting stars painted *)
}.

Definition noOutput : FrameOutput := mkFrameOutput [] [] [] [].

(** The pointer glow pass of [animate]. *)
Definition mouseGlow (m : Mouse) (ps : list Particle.t) : list (nat * R) :=
  if active m then
    flat_map
      (fun ip : nat * Particle.t =>
         let p := snd ip in
         let dx := Particle.x p - mouse_x m in
         let dy := Particle.y p - mouse_y m in
         let dist := JS.Math_sqrt (dx * dx + dy * dy) in
         if JS.ltb dist CONFIG.mouseRadius
         then [(fst ip, (1 - dist / CONFIG.mouseRadius) * 0.4)]
         else [])
      (combine (seq 0 (List.length ps)) ps)
  else [].

(** [shootingStars.filter(s => !s.isDead())]. *)
Definition liveStars (c : Canvas) (stars : list (Ref * ShootingStar.t))
  : list (Ref * ShootingStar.t) :=
  filter (fun rs => negb (ShootingStar.isDead c (snd rs))) stars.

(** [shootingStars.forEach(s => { s.update(); ... })]. *)
Definition updateStars (stars : list (Ref * ShootingStar.t))
  : list (Ref * ShootingStar.t) :=
  map (fun rs => (fst rs, ShootingStar.update (snd rs))) stars.

(** [... s.draw(ctx, colors.lineRGB) ...] over the updated stars. *)
Definition drawStars (stars : list (Ref * ShootingStar.t))
  : list (Ref * ShootingStar.Streak) :=
  flat_map
    (fun rs => match ShootingStar.draw (snd rs) with
               | Some k => [(fst rs, k)]
               | None => []
               end)
    stars.

(** [animate()], one run of the frame callback. *)
Definition animate (st : State) : State * FrameOutput :=
  if hidden st then (st, noOutput)
  else
    let frameCount' := (frameCount st + 1)%Z in
    let ps :=
      map (fun rp => (fst rp, Particle.update (canvas st) (mouse st) frameCount' (snd rp)))
          (particles st) in
    let stars := updateStars (liveStars (canvas st) (shootingStars st)) in
    (mkState (window st) (hidden st) (random st) (canvas st) ps stars
             frameCount' (mouse st) (resizeTimer st) (nextRef st),
     {| arcs := map (fun rp => (Particle.x (snd rp), Particle.y (snd rp),
                                Rmax (Particle.radius (snd rp)) 0.1)) ps;
        lines := connectParticles (canvas st) (map snd ps);
        glow := mouseGlow (mouse st) (map snd ps);
        streaks := drawStars stars |}).

(** The [setInterval] callback that spawns shooting stars. *)
Definition spawnShootingStar (st : State) : State :=
  if hidden st then st
  else
    let (r, rng) := JS.Math_random (random st) in
    if JS.ltb r 0.7 then
      let (s, rng') := ShootingStar.new (canvas st) rng in
      mkState (window st) (hidden st) rng' (canvas st) (particles st)
              (shootingStars st ++ [(nextRef st, s)])
              (frameCount st) (mouse st) (resizeTimer st) (S (nextRef st))
    else
      mkState (window st) (hidden st) rng (canvas st) (particles st)
              (shootingStars st) (frameCount st) (mouse st) (resizeTimer st)
              (nextRef st).

(** What the host delivers to the renderer. *)
Inductive Event : Type :=
| mousemove (clientX clientY : R)
| mouseleave
| visibilitychange (h : bool)       (* [document.hidden] becomes [h] *)
| resize (w h : N)                  (* the window gets a new size *)
| resizeTimeout                     (* the debounce delay has passed *)
| animationFrame                    (* [requestAnimationFrame] calls back *)
| spawnInterval.                    (* the [setInterval] period has passed *)

Definition step (st : State) (e : Event) : State :=
  match e with
  | mousemove cx cy => with_mouse (mkMouse cx cy true) st
  | mouseleave => with_mouse (mkMouse (mouse_x (mouse st)) (mouse_y (mouse st)) false) st
  | visibilitychange h => with_hidden h st
  | resize w h => with_resizeTimer true (with_window (mkWindow w h) st)
  | resizeTimeout =>
      if resizeTimer st then resizeCallback (with_resizeTimer false st) else st
  | animationFrame => fst (animate st)
  | spawnInterval => spawnShootingStar st
  end.

Definition run (st : State) (es : list Event) : State := fold_left step es st.

(** [initializeConstellation()] on a page whose canvas exists and is not
    yet initialized: the state once the function returns, after its first
    synchronous call of [animate]. *)
Definition initializeConstellation (w : Window) (h : bool) (rng : JS.Rng) : State :=
  let st0 :=
    mkState w h rng (mkCanvas 0 0) [] [] 0 mouse_init false 0%nat in
  fst (animate (createParticles (setCanvasSize st0))).

(** ** Auxiliary definitions used to state the properties *)

(** Division that reports a zero divisor instead of a value. *)
Definition checked_div (a b : R) : option R :=
  if Req_dec_T b 0 then None else Some (a / b).

Module Checked.

(** [Particle.repel] again, every division of the source checked:
    [None] means that some divisor was zero. *)
Definition repel (mouse : Mouse) (p : Particle.t) : option (R * R) :=
  if active mouse then
    let dx := Particle.x p - mouse_x mouse in
    let dy := Particle.y p - mouse_y mouse in
    let dist := JS.Math_sqrt (dx * dx + dy * dy) in
    if JS.ltb dist CONFIG.mouseRadius && JS.ltb 0 dist then
      match checked_div dist CONFIG.mouseRadius,
            checked_div dx dist, checked_div dy dist with
      | Some q, Some ux, Some uy =>
          let force := (1 - q) * CONFIG.mouseRepelForce in
          Some (Particle.vx p + ux * force, Particle.vy p + uy * force)
      | _, _, _ => None
      end
    else Some (Particle.vx p, Particle.vy p)
  else Some (Particle.vx p, Particle.vy p).

End Checked.

(** The particle-to-pointer distance [dist] of [update()]. *)
Definition pointerDist (m : Mouse) (p : Particle.t) : R :=
  JS.Math_sqrt ((Particle.x p - mouse_x m) * (Particle.x p - mouse_x m)
                + (Particle.y p - mouse_y m) * (Particle.y p - mouse_y m)).

(** The velocity after the unconditional relaxation step of [update()],
    before the position is integrated and clamped. *)
Definition relaxed (v base : R) : R := v + (base - v) * CONFIG.mouseReturnSpeed.

(** [update()] once per frame, for the pointer state and frame counter of
    each frame in turn. *)
Definition updates (canvas : Canvas) (frames : list (Mouse * Z)) (p : Particle.t)
  : Particle.t :=
  fold_left (fun q f => Particle.update canvas (fst f) (snd f) q) frames p.

(** A position inside the canvas rectangle. *)
Definition inBounds (canvas : Canvas) (p : Particle.t) : Prop :=
  0 <= Particle.x p <= IZR (Z.of_N (width canvas))
  /\ 0 <= Particle.y p <= IZR (Z.of_N (height canvas)).


(** The brute-force check of the specification: every pair of indices
    [i < j] whose particles are closer than the connection distance. *)
Definition bruteForcePairs (particles : list Particle.t) : list (nat * nat) :=
  flat_map
    (fun i =>
       flat_map
         (fun j =>
            match nth_error particles i, nth_error particles j with
            | Some p1, Some p2 =>
                if JS.ltb (JS.Math_sqrt (distSq p1 p2)) CONFIG.connectionDistance
                then [(i, j)] else []
            | _, _ => []
            end)
         (seq (S i) (List.length particles - S i)))
    (seq 0 (List.length particles)).

(** An index pair with the smaller index first. *)
Definition unordered (ab : nat * nat) : nat * nat :=
  (Nat.min (fst ab) (snd ab), Nat.max (fst ab) (snd ab)).

(** A particle at rest at [(x, y)], for the examples. *)
Definition particleAt (x y : R) : Particle.t := Particle.mk x y 0 0 0 0 1 1 0.

(** The unordered pair a stroke joins, smaller index first. *)
Definition strokePair (s : Stroke) : nat * nat :=
  (Nat.min (stroke_from s) (stroke_to s), Nat.max (stroke_from s) (stroke_to s)).

Definition refs {A} (l : list (Ref * A)) : list Ref := map fst l.

(** The array stored under [key], or the empty list when there is none. *)
Definition cellList (key : Z) (g : Grid.t) : list nat :=
  match Grid.get key g with
  | Some l => l
  | None => []
  end.

(** All pairs (earlier element, later element) of a list. *)
Fixpoint triPairs (l : list nat) : list (nat * nat) :=
  match l with
  | [] => []
  | a :: l' => map (pair a) l' ++ triPairs l'
  end.

(** The index pairs the innermost loops of [connectParticles] visit for
    the cell [key] and the neighbor offset [d], before the distance test. *)
Definition neighborCandidates (cols rows : Z) (grid : Grid.t) (key : Z) (d : Z * Z)
  : list (nat * nat) :=
  let nr := (JS.Math_floor (IZR key / IZR cols) + fst d)%Z in
  let nc := (Z.rem key cols + snd d)%Z in
  if (nr <? 0)%Z || (rows <=? nr)%Z || (nc <? 0)%Z || (cols <=? nc)%Z then []
  else
    cellPairs ((fst d =? 0)%Z && (snd d =? 0)%Z)
              (cellList key grid) (cellList (nr * cols + nc)%Z grid).

(** All index pairs [connectParticles] submits to the distance test. *)
Definition candidatePairs (canvas : Canvas) (particles : list Particle.t)
  : list (nat * nat) :=
  let cols := gridCols canvas in
  let rows := gridRows canvas in
  let grid := buildGrid cols particles in
  flat_map (fun key => flat_map (neighborCandidates cols rows grid key) neighbors)
           (Grid.for_in grid).

(** The test [distSq < maxDistSq] on the particles with indices [a], [b]. *)
Definition closeb (particles : list Particle.t) (ab : nat * nat) : bool :=
  match nth_error particles (fst ab), nth_error particles (snd ab) with
  | Some p1, Some p2 => JS.ltb (distSq p1 p2) maxDistSq
  | _, _ => false
  end.

(** Every object in the two arrays was allocated before [nextRef], and no
    shooting star is listed twice. *)
Definition refs_ok (st : State) : Prop :=
  Forall (fun r => (r < nextRef st)%nat) (refs (particles st))
  /\ Forall (fun r => (r < nextRef st)%nat) (refs (shootingStars st))
  /\ NoDup (refs (shootingStars st)).

(** A star as the constructor and [update()] leave it: it decays, moves
    right and down, and is not beyond the left or the top margin. *)
Definition star_ok (s : ShootingStar.t) : Prop :=
  0 < ShootingStar.decay s
  /\ 0 < ShootingStar.vx s /\ 0 < ShootingStar.vy s
  /\ -10 <= ShootingStar.x s /\ -10 <= ShootingStar.y s.

(** [Math.random] keeps returning values in [0, 1), and every live star
    is as above. *)
Definition stars_ok (st : State) : Prop :=
  JS.rng_ok (random st)
  /\ Forall (fun rs : Ref * ShootingStar.t => star_ok (snd rs)) (shootingStars st).

(** ** Further definitions: the rest of the renderer *)

(** The runs of [animate] among the events [es] that find the page
    visible, [h] being [document.hidden] before the first event. *)
Fixpoint visibleFrames (h : bool) (es : list Event) : nat :=
  match es with
  | [] => 0
  | visibilitychange h' :: es' => visibleFrames h' es'
  | animationFrame :: es' => ((if h then 0 else 1) + visibleFrames h es')%nat
  | _ :: es' => visibleFrames h es'
  end.

(** What [getConstellationColors()] returns: the two theme colours. *)
Record Colors : Type := mkColors {
  particleColor : String.string;
  lineRGB : String.string
}.

(** [let frameColors], [let colorCacheFrame]. *)
Record ColorCache : Type := mkColorCache {
  frameColors : Colors;
  colorCacheFrame : nat
}.

(** [getFrameColors()], [theme] being what [getConstellationColors()]
    returns at the time of the call: the value returned and the cache. *)
Definition getFrameColors (theme : Colors) (c : ColorCache) : Colors * ColorCache :=
  let frameColors' :=
    if Nat.eqb (colorCacheFrame c mod 60) 0 then theme else frameColors c in
  (frameColors', mkColorCache frameColors' (S (colorCacheFrame c))).

(** The cache after the first [k] calls of [getFrameColors()], the theme
    at the time of call [i] being [themes i]; [initial] is what
    [getConstellationColors()] returned when the renderer was set up. *)
Fixpoint colorCacheAfter (themes : nat -> Colors) (initial : Colors) (k : nat)
  : ColorCache :=
  match k with
  | O => mkColorCache initial 0
  | S k' => snd (getFrameColors (themes k') (colorCacheAfter themes initial k'))
  end.

(** The line pass of the earlier version of the renderer: every pair
    [i <= j] is tested, with [Math.sqrt] and [connectionDistance]. *)
Definition connectParticlesLegacy (particles : list Particle.t) : list Stroke :=
  flat_map
    (fun i =>
       flat_map
         (fun j =>
            match nth_error particles i, nth_error particles j with
            | Some p1, Some p2 =>
                let distance := JS.Math_sqrt (distSq p1 p2) in
                if JS.ltb distance CONFIG.connectionDistance then
                  [ {| stroke_from := i; stroke_to := j;
                       stroke_alpha := 1 - distance / CONFIG.connectionDistance |} ]
                else []
            | _, _ => []
            end)
         (seq i (List.length particles - i)))
    (seq 0 (List.length particles)).

(** A stroke with its end points in ascending order. *)
Definition orientStroke (s : Stroke) : Stroke :=
  {| stroke_from := Nat.min (stroke_from s) (stroke_to s);
     stroke_to := Nat.max (stroke_from s) (stroke_to s);
     stroke_alpha := stroke_alpha s |}.

(** The stroke of the pair [ab], by the formula both versions use. *)
Definition strokeOf (particles : list Particle.t) (ab : nat * nat) : Stroke :=
  {| stroke_from := fst ab; stroke_to := snd ab;
     stroke_alpha :=
       match nth_error particles (fst ab), nth_error particles (snd ab) with
       | Some p1, Some p2 => 1 - sqrt (distSq p1 p2) / CONFIG.connectionDistance
       | _, _ => 0
       end |}.

(** The per-axis speed no particle exceeds. *)
Definition maxSpeed : R := 4.12.

(** What holds of every particle of the renderer at all times. *)
Definition particle_ok (c : Canvas) (p : Particle.t) : Prop :=
  inBounds c p
  /\ Rabs (Particle.baseVx p) <= 0.2 /\ Rabs (Particle.baseVy p) <= 0.2
  /\ Rabs (Particle.vx p) <= maxSpeed /\ Rabs (Particle.vy p) <= maxSpeed
  /\ 0.5 <= Particle.baseRadius p < 2
  /\ 0 < Particle.radius p < 2.4
  /\ 0 <= Particle.pulseOffset p < 2 * PI.

(** What holds of every shooting star of the renderer at all times. *)
Definition star_shape (s : ShootingStar.t) : Prop :=
  sqrt (ShootingStar.vx s * ShootingStar.vx s + ShootingStar.vy s * ShootingStar.vy s)
  = CONFIG.shootingStarSpeed
  /\ 0 < ShootingStar.vx s /\ 6 <= ShootingStar.vy s
  /\ 80 <= ShootingStar.length s < 120
  /\ ShootingStar.life s <= 1
  /\ 0.008 <= ShootingStar.decay s < 0.016.

Definition field_ok (st : State) : Prop :=
  JS.rng_ok (random st)
  /\ Forall (particle_ok (canvas st)) (map snd (particles st))
  /\ Forall star_shape (map snd (shootingStars st)).

(** ** The album deck: [initializeAlbumDecks] *)

Module Deck.

(** A card: the identity of its DOM element. *)
Definition Card : Type := nat.

(** One deck.  The class [dealing] and the inline styles, which only
    drive the animation, are left out. *)
Record t : Type := mk {
  total : nat;             (* [cards.length], the NodeList taken at set-up *)
  children : list Card;    (* children of [.album-cards] in DOM order; the top card is the last *)
  currentIndex : nat;
  shown : nat;             (* [currentEl.textContent] *)
  listeners : list Card    (* pending [animationend] listeners, each with the card it is on *)
}.

(** The state set up for a deck with the given cards. *)
Definition init (cards : list Card) : t := mk (List.length cards) cards 0 1 [].

(** [container.lastElementChild]. *)
Definition lastElementChild (l : list Card) : option Card :=
  match rev l with
  | [] => None
  | c :: _ => Some c
  end.

(** [container.prepend(card)] for a card that is a child already: it
    moves to the front. *)
Definition prepend (c : Card) (l : list Card) : list Card :=
  c :: remove Nat.eq_dec c l.

(** The [animationend] listener a click attaches to [topCard]. *)
Definition dealt (topCard : Card) (d : t) : t :=
  let idx := ((currentIndex d + 1) mod total d)%nat in
  mk (total d) (prepend topCard (children d)) idx (idx + 1)%nat (listeners d).

(** The click listener of the deck; [detail] is [e.detail].  [None]: the
    container has no child and [topCard.classList] throws. *)
Definition click (detail : nat) (d : t) : option t :=
  if Nat.eqb detail 2 then Some d
  else if Nat.leb (total d) 1 then Some d
  else
    match lastElementChild (children d) with
    | None => None
    | Some topCard =>
        Some (mk (total d) (children d) (currentIndex d) (shown d)
                 (listeners d ++ [topCard]))
    end.

(** The animation of [card] ends: its listeners run, in the order they
    were attached, and are removed ([once: true]). *)
Definition animationend (card : Card) (d : t) : t :=
  let mine := filter (Nat.eqb card) (listeners d) in
  let rest := filter (fun c => negb (Nat.eqb card c)) (listeners d) in
  fold_left (fun d' _ => dealt card d') mine
            (mk (total d) (children d) (currentIndex d) (shown d) rest).

(** One deal: a click, then the animation of the top card ends. *)
Definition deal (d : t) : option t :=
  match click 1 d, lastElementChild (children d) with
  | Some d1, Some topCard => Some (animationend topCard d1)
  | _, _ => None
  end.

(** [k] deals, one after the other. *)
Fixpoint deals (k : nat) (d : t) : option t :=
  match k with
  | O => Some d
  | S k' => match deal d with
            | Some d' => deals k' d'
            | None => None
            end
  end.

End Deck.

(** ** The VHS shelf: [initializeVHSShelf] *)

Module VHS.

Import String.

(** A tape: its DOM element, the text of its sticker title (if the
    element exists) and its [data-video] attribute (if present). *)
Record Tape : Type := mkTape {
  tape_id : nat;
  stickerTitle : option String.string;
  dataVideo : option String.string
}.

Inductive Timer : Type :=
| LoadVideo (tape : Tape)     (* the 1200 ms timeout of [insertTape] *)
| EjectDone.                  (* the 400 ms timeout of [ejectTape] *)

Record t : Type := mk {
  currentTape : option Tape;
  inserted : list nat;                       (* tapes carrying the class [inserted] *)
  playerActive : bool;
  playerLoading : bool;
  nowTitle : String.string;
  videoContainer : option String.string;     (* the [src] of the iframe, if any *)
  timers : list Timer                        (* pending timeouts, oldest first *)
}.

Definition dash : String.string := "—"%string.

(** The page as loaded: no tape inserted, the player closed. *)
Definition init : t := mk None [] false false dash None [].

(** [s || d] for a string that may be undefined. *)
Definition orDefault (s : option String.string) (d : String.string) : String.string :=
  match s with
  | Some v => if String.eqb v ""%string then d else v
  | None => d
  end.

(** The truth value of a string that may be undefined. *)
Definition truthy (s : option String.string) : bool :=
  match s with
  | Some v => negb (String.eqb v ""%string)
  | None => false
  end.

Definition classAdd (i : nat) (l : list nat) : list nat :=
  if existsb (Nat.eqb i) l then l else l ++ [i].

Definition classRemove (i : nat) (l : list nat) : list nat :=
  filter (fun j => negb (Nat.eqb i j)) l.

(** [ejectTape(true)]. *)
Definition ejectTape (st : t) : t :=
  match currentTape st with
  | None => st
  | Some _ =>
      mk (currentTape st) (inserted st) (playerActive st) true dash None
         (timers st ++ [EjectDone])
  end.

(** [insertTape(tape)]. *)
Definition insertTape (tape : Tape) (st : t) : t :=
  let same := match currentTape st with
              | Some cur => Nat.eqb (tape_id cur) (tape_id tape)
              | None => false
              end in
  if same then ejectTape st
  else
    let inserted1 := match currentTape st with
                     | Some cur => classRemove (tape_id cur) (inserted st)
                     | None => inserted st
                     end in
    mk (Some tape) (classAdd (tape_id tape) inserted1) true true
       (orDefault (stickerTitle tape) dash) (videoContainer st)
       (timers st ++ [LoadVideo tape]).

(** A timeout fires: the state it leaves, and whether its callback threw
    a TypeError ([currentTape.classList] with [currentTape] null). *)
Definition fire (tm : Timer) (st : t) : t * bool :=
  match tm with
  | LoadVideo tape =>
      (mk (currentTape st) (inserted st) (playerActive st) false (nowTitle st)
          (if truthy (dataVideo tape) then dataVideo tape else videoContainer st)
          (timers st),
       false)
  | EjectDone =>
      match currentTape st with
      | Some cur =>
          (mk None (classRemove (tape_id cur) (inserted st)) false false
              (nowTitle st) (videoContainer st) (timers st),
           false)
      | None =>
          (mk None (inserted st) false false (nowTitle st) (videoContainer st)
              (timers st),
           true)
      end
  end.

Inductive Event : Type :=
| clickTape (tape : Tape)
| clickEject
| timeout (k : nat).      (* the pending timeout number [k] fires *)

Fixpoint removeNth {A} (k : nat) (l : list A) : list A :=
  match k, l with
  | _, [] => []
  | O, _ :: l' => l'
  | S k', a :: l' => a :: removeNth k' l'
  end.

Definition step (st : t) (e : Event) : t * bool :=
  match e with
  | clickTape tape => (insertTape tape st, false)
  | clickEject => (ejectTape st, false)
  | timeout k =>
      match nth_error (timers st) k with
      | None => (st, false)
      | Some tm =>
          fire tm (mk (currentTape st) (inserted st) (playerActive st)
                      (playerLoading st) (nowTitle st) (videoContainer st)
                      (removeNth k (timers st)))
      end
  end.

(** The state after the events, and whether any callback threw. *)
Fixpoint run (st : t) (es : list Event) : t * bool :=
  match es with
  | [] => (st, false)
  | e :: es' =>
      let (st1, threw1) := step st e in
      let (st2, threw2) := run st1 es' in
      (st2, threw1 || threw2)
  end.

(** A patient user: every click finds no timeout pending. *)
Fixpoint patient (st : t) (es : list Event) : Prop :=
  match es with
  | [] => True
  | e :: es' =>
      match e with
      | timeout _ => True
      | _ => timers st = []
      end
      /\ patient (fst (step st e)) es'
  end.

End VHS.

(** The tape carrying the class [inserted] is the current one. *)
Definition vhs_ok (st : VHS.t) : Prop :=
  VHS.inserted st
  = match VHS.currentTape st with
    | Some t => [VHS.tape_id t]
    | None => []
    end.

(** What holds of the player between the clicks of a patient user. *)
Definition vhs_settled (st : VHS.t) : Prop :=
  vhs_ok st
  /\ match VHS.timers st with
     | [] =>
         VHS.playerLoading st = false
         /\ (VHS.playerActive st = true <-> VHS.currentTape st <> None)
         /\ (VHS.currentTape st = None ->
             VHS.videoContainer st = None /\ VHS.nowTitle st = VHS.dash)
         /\ (forall t, VHS.currentTape st = Some t ->
               VHS.nowTitle st = VHS.orDefault (VHS.stickerTitle t) VHS.dash
               /\ (VHS.truthy (VHS.dataVideo t) = true ->
                   VHS.videoContainer st = VHS.dataVideo t))
     | [VHS.LoadVideo t] =>
         VHS.currentTape st = Some t /\ VHS.playerActive st = true
         /\ VHS.nowTitle st = VHS.orDefault (VHS.stickerTitle t) VHS.dash
     | [VHS.EjectDone] =>
         VHS.currentTape st <> None
         /\ VHS.videoContainer st = None /\ VHS.nowTitle st = VHS.dash
     | _ => False
     end.

(** ** The puzzle physics: [simulateGravity] in [initializePuzzleGame] *)

Module Puzzle.

Definition GRAVITY : R := 0.6.
Definition BOUNCE : R := 0.3.
Definition FRICTION : R := 0.98.
Definition TILE_W : R := 160.
Definition TILE_H : R := 70.

(** A scattered label tile: position, velocity and the two flags. *)
Record Piece : Type := mkPiece {
  x : R; y : R; vx : R; vy : R;
  placed : bool; dragging : bool
}.

(** [window.innerWidth]. *)
Definition viewW (w : Window) : R := IZR (Z.of_N (innerWidth w)).

(** [window.innerHeight - TILE_H]. *)
Definition floorY (w : Window) : R := IZR (Z.of_N (innerHeight w)) - TILE_H.

(** The body of the [forEach] for a piece that is neither placed nor
    dragged: gravity, friction, the move, then the floor and the two
    walls. *)
Definition fall (w : Window) (p : Piece) : Piece :=
  let vy1 := vy p + GRAVITY in
  let vx1 := vx p * FRICTION in
  let vy2 := vy1 * FRICTION in
  let x1 := x p + vx1 in
  let y1 := y p + vy2 in
  let '(y2, vy3) :=
    if JS.ltb (floorY w) y1 then
      let v := - vy2 * BOUNCE in
      (floorY w, if JS.ltb (JS.Math_abs v) 0.5 then 0 else v)
    else (y1, vy2) in
  let '(x2, vx2) :=
    if JS.ltb x1 0 then (0, JS.Math_abs vx1 * BOUNCE) else (x1, vx1) in
  let '(x3, vx3) :=
    if JS.ltb (viewW w - TILE_W) x2
    then (viewW w - TILE_W, - JS.Math_abs vx2 * BOUNCE)
    else (x2, vx2) in
  mkPiece x3 y2 vx3 vy3 (placed p) (dragging p).

(** [if (p.placed || p.dragging) return;] *)
Definition update (w : Window) (p : Piece) : Piece :=
  if placed p || dragging p then p else fall w p.

(** The test that sets [anyMoving], on the piece as just updated. *)
Definition moving (w : Window) (p : Piece) : bool :=
  JS.ltb 0.1 (JS.Math_abs (vx p))
  || JS.ltb 0.1 (JS.Math_abs (vy p))
  || JS.ltb (y p) (floorY w - 1).

(** One run of [simulateGravity]: the pieces after it, and whether it
    requests another frame ([animationId] not null). *)
Definition simulateGravity (w : Window) (ps : list Piece) : list Piece * bool :=
  let ps' := map (update w) ps in
  (ps', existsb (fun p => negb (placed p || dragging p) && moving w p) ps').

(** The piece after [k] runs of [simulateGravity]. *)
Definition frames (w : Window) (k : nat) (p : Piece) : Piece :=
  Nat.iter k (update w) p.

End Puzzle.

(** A piece lying still on the floor, between the walls. *)
Definition at_rest (w : Window) (p : Puzzle.Piece) : Prop :=
  Puzzle.vx p = 0 /\ Puzzle.vy p = 0 /\ Puzzle.y p = Puzzle.floorY w
  /\ 0 <= Puzzle.x p <= Puzzle.viewW w - Puzzle.TILE_W.

(** ** The project carousel of [initializePortfolioModal] *)

Module Modal.

(** A project tile is a DOM element: it is known by its identity. *)
Definition Tile : Type := nat.

Record t : Type := mk {
  currentIndex : Z;
  projectTiles : list Tile;
  shown : option Tile;          (* the tile whose content fills the modal *)
  modalActive : bool
}.

Definition init : t := mk 0 [] None false.

(** [a % b] on integers: the sign of the result is that of [a]. *)
Definition jsmod (a b : Z) : Z := Z.rem a b.

(** [arr[index]] for an integer index. *)
Definition at_index (tiles : list Tile) (index : Z) : option Tile :=
  if (index <? 0)%Z then None else nth_error tiles (Z.to_nat index).

(** [tiles.indexOf(tile)]. *)
Fixpoint indexOf (tile : Tile) (tiles : list Tile) : Z :=
  match tiles with
  | [] => (-1)%Z
  | a :: l =>
      if Nat.eqb a tile then 0%Z
      else let i := indexOf tile l in
           if (i <? 0)%Z then (-1)%Z else (i + 1)%Z
  end.

(** [updateModalContent(index)], where [tiles] is what the query for the
    visible project cards returns at the time of the call. *)
Definition updateModalContent (index : Z) (tiles : list Tile) (st : t) : t :=
  match tiles, at_index tiles index with
  | _ :: _, Some tile => mk index tiles (Some tile) (modalActive st)
  | _, _ => mk (currentIndex st) tiles (shown st) (modalActive st)
  end.

Definition openModal (clickedTile : Tile) (tiles : list Tile) (st : t) : t :=
  let index := indexOf clickedTile tiles in
  if (index =? -1)%Z then st
  else
    let st1 := updateModalContent index tiles st in
    mk (currentIndex st1) (projectTiles st1) (shown st1) true.

(** [closeModal]: the media container is emptied. *)
Definition closeModal (st : t) : t :=
  mk (currentIndex st) (projectTiles st) None false.

Definition showNextProject (tiles : list Tile) (st : t) : t :=
  match tiles with
  | [] => mk (currentIndex st) tiles (shown st) (modalActive st)
  | _ =>
      updateModalContent
        (jsmod (currentIndex st + 1) (Z.of_nat (List.length tiles))) tiles st
  end.

Definition showPrevProject (tiles : list Tile) (st : t) : t :=
  match tiles with
  | [] => mk (currentIndex st) tiles (shown st) (modalActive st)
  | _ =>
      updateModalContent
        (jsmod (currentIndex st - 1 + Z.of_nat (List.length tiles))
               (Z.of_nat (List.length tiles))) tiles st
  end.

(** What the user does; each event carries the list of project cards
    visible when it happens (the filter can change it in between). *)
Inductive Event : Type :=
| clickTile (tile : Tile) (tiles : list Tile)
| clickClose
| clickNext (tiles : list Tile)
| clickPrev (tiles : list Tile)
| keyEscape
| keyArrowRight (tiles : list Tile)
| keyArrowLeft (tiles : list Tile).

Definition step (st : t) (e : Event) : t :=
  match e with
  | clickTile tile tiles => openModal tile tiles st
  | clickClose => closeModal st
  | clickNext tiles => showNextProject tiles st
  | clickPrev tiles => showPrevProject tiles st
  | keyEscape => if modalActive st then closeModal st else st
  | keyArrowRight tiles => if modalActive st then showNextProject tiles st else st
  | keyArrowLeft tiles => if modalActive st then showPrevProject tiles st else st
  end.

Definition run (st : t) (es : list Event) : t := fold_left step es st.

End Modal.

(** ** [initializeTimelineAnimation] *)

Module Timeline.

Inductive Side : Type := top | bottom.

(** A timeline item: what it shows, and which of the classes [top] and
    [bottom] it carries. *)
Record Item : Type := mkItem { content : nat; classes : list Side }.

(** The wrapper: its items in document order and [dataset.animated]. *)
Record Wrapper : Type := mkWrapper { children : list Item; animated : bool }.

(** [forEach((item, i) => ...)], the index starting at [i]. *)
Fixpoint forEach_from {A B} (f : A -> nat -> B) (i : nat) (l : list A) : list B :=
  match l with
  | [] => []
  | a :: l' => f a i :: forEach_from f (S i) l'
  end.

Definition sideOf (i : nat) : Side :=
  if Nat.eqb (i mod 2) 0 then top else bottom.

(** [classList.remove('top', 'bottom'); classList.add(...)]. *)
Definition setSide (s : Side) (item : Item) : Item := mkItem (content item) [s].

Definition initializeTimelineAnimation (w : Wrapper) : Wrapper :=
  if animated w then w
  else
    let timelineItems := forEach_from (fun item i => setSide (sideOf i) item) 0 (children w) in
    let n := List.length timelineItems in
    let clones := forEach_from (fun item i => setSide (sideOf (n + i)) item) 0 timelineItems in
    mkWrapper (timelineItems ++ clones) true.

End Timeline.

(** * Properties *)

Section JSFacts.

Import JS.

Lemma ltb_true a b : ltb a b = true <-> a < b.
Proof. unfold ltb. destruct (Rlt_dec a b); split; intros; try easy. Qed.

Lemma ltb_false a b : ltb a b = false <-> b <= a.
Proof.
  unfold ltb. destruct (Rlt_dec a b); split; intros; try easy; lra.
Qed.

Lemma leb_true a b : leb a b = true <-> a <= b.
Proof. unfold leb. destruct (Rle_dec a b); split; intros; try easy. Qed.

Lemma leb_false a b : leb a b = false <-> b < a.
Proof.
  unfold leb. destruct (Rle_dec a b); split; intros; try easy; lra.
Qed.

Lemma rng_ok_tail s : rng_ok s -> rng_ok (fun n => s (S n)).
Proof. intros H n. apply H. Qed.

End JSFacts.

(** Case analysis on every comparison the program branches on. *)
Ltac js_cases :=
  repeat match goal with
    | |- context [JS.ltb ?a ?b] =>
        let E := fresh "E" in
        destruct (JS.ltb a b) eqn:E;
        [apply ltb_true in E | apply ltb_false in E]
    | |- context [JS.leb ?a ?b] =>
        let E := fresh "E" in
        destruct (JS.leb a b) eqn:E;
        [apply leb_true in E | apply leb_false in E]
    end.

Lemma N_nonneg_R (n : N) : 0 <= IZR (Z.of_N n).
Proof. apply IZR_le. lia. Qed.

(** ** The boundary clamp *)

Lemma clamp_range pos v hi :
  0 <= hi -> 0 <= fst (Particle.clamp pos v hi) <= hi.
Proof.
  intros Hhi. unfold Particle.clamp. js_cases; simpl; lra.
Qed.

Lemma clamp_spec pos v hi :
  (pos < 0 ->
     Particle.clamp pos v hi = (0, Rabs v))
  /\ (0 <= pos -> hi < pos ->
     Particle.clamp pos v hi = (hi, - Rabs v))
  /\ (0 <= pos <= hi ->
     Particle.clamp pos v hi = (pos, v)).
Proof.
  unfold Particle.clamp, JS.Math_abs.
  repeat split; intros; js_cases; try reflexivity; lra.
Qed.

Lemma update_fields canvas m fc p :
  let v := Particle.repel m p in
  let vx2 := relaxed (fst v) (Particle.baseVx p) in
  let vy2 := relaxed (snd v) (Particle.baseVy p) in
  let cx := Particle.clamp (Particle.x p + vx2) vx2 (IZR (Z.of_N (width canvas))) in
  let cy := Particle.clamp (Particle.y p + vy2) vy2 (IZR (Z.of_N (height canvas))) in
  Particle.update canvas m fc p =
    {| Particle.x := fst cx; Particle.y := fst cy;
       Particle.vx := snd cx; Particle.vy := snd cy;
       Particle.baseVx := Particle.baseVx p; Particle.baseVy := Particle.baseVy p;
       Particle.baseRadius := Particle.baseRadius p;
       Particle.radius :=
         Particle.baseRadius p
         + sin (IZR fc * CONFIG.pulseSpeed + Particle.pulseOffset p) * 0.4;
       Particle.pulseOffset := Particle.pulseOffset p |}.
Proof.
  unfold Particle.update, relaxed, JS.Math_sin.
  destruct (Particle.repel m p) as [vx1 vy1]; simpl.
  destruct (Particle.clamp _ _ (IZR (Z.of_N (width canvas)))) as [x2 vx3].
  destruct (Particle.clamp _ _ (IZR (Z.of_N (height canvas)))) as [y2 vy3].
  reflexivity.
Qed.

Lemma update_inBounds canvas m fc p :
  inBounds canvas (Particle.update canvas m fc p).
Proof.
  rewrite update_fields. unfold inBounds; simpl.
  split; apply clamp_range; apply N_nonneg_R.
Qed.

Lemma animate_inBounds st :
  hidden st = false ->
  Forall (inBounds (canvas st)) (map snd (particles (fst (animate st)))).
Proof.
  intros Hh. unfold animate. rewrite Hh. simpl. rewrite map_map. simpl.
  apply Forall_map, Forall_forall. intros rp _. apply update_inBounds.
Qed.

(** C2.  However many frames a particle has been through, after the next
    [update()] its position lies in [0, W] x [0, H]; the position after
    integration is clamped to the edge it crossed and the velocity
    component of that axis gets the sign that points back inside (and a
    particle that was inside before is then really moving inward), the
    two axes being treated independently; without a crossing position and
    velocity are the integrated ones.  So after every frame [animate]
    processes, all particles are inside the canvas. *)
Theorem particle_update_clamped
    (cv : Canvas) (frames : list (Mouse * Z)) (m : Mouse) (fc : Z)
    (p0 : Particle.t) :
  let p := updates cv frames p0 in
  let p' := Particle.update cv m fc p in
  let W := IZR (Z.of_N (width cv)) in
  let H := IZR (Z.of_N (height cv)) in
  let vx2 := relaxed (fst (Particle.repel m p)) (Particle.baseVx p) in
  let vy2 := relaxed (snd (Particle.repel m p)) (Particle.baseVy p) in
  (0 <= Particle.x p' <= W /\ 0 <= Particle.y p' <= H)
  /\ (Particle.x p + vx2 < 0 ->
        Particle.x p' = 0 /\ Particle.vx p' = Rabs vx2 /\ 0 <= Particle.vx p'
        /\ (0 <= Particle.x p -> 0 < Particle.vx p'))
  /\ (W < Particle.x p + vx2 ->
        Particle.x p' = W /\ Particle.vx p' = - Rabs vx2 /\ Particle.vx p' <= 0
        /\ (Particle.x p <= W -> Particle.vx p' < 0))
  /\ (0 <= Particle.x p + vx2 <= W ->
        Particle.x p' = Particle.x p + vx2 /\ Particle.vx p' = vx2)
  /\ (Particle.y p + vy2 < 0 ->
        Particle.y p' = 0 /\ Particle.vy p' = Rabs vy2 /\ 0 <= Particle.vy p'
        /\ (0 <= Particle.y p -> 0 < Particle.vy p'))
  /\ (H < Particle.y p + vy2 ->
        Particle.y p' = H /\ Particle.vy p' = - Rabs vy2 /\ Particle.vy p' <= 0
        /\ (Particle.y p <= H -> Particle.vy p' < 0))
  /\ (0 <= Particle.y p + vy2 <= H ->
        Particle.y p' = Particle.y p + vy2 /\ Particle.vy p' = vy2)
  /\ (forall st : State,
        hidden st = false ->
        Forall (inBounds (canvas st)) (map snd (particles (fst (animate st))))).
Proof.
  intros p p' W H vx2 vy2.
  assert (HW : 0 <= W) by apply N_nonneg_R.
  assert (HH : 0 <= H) by apply N_nonneg_R.
  pose proof animate_inBounds as Frame.
  split; [apply update_inBounds|].
  cut ((Particle.x p + vx2 < 0 ->
        Particle.x p' = 0 /\ Particle.vx p' = Rabs vx2 /\ 0 <= Particle.vx p'
        /\ (0 <= Particle.x p -> 0 < Particle.vx p'))
  /\ (W < Particle.x p + vx2 ->
        Particle.x p' = W /\ Particle.vx p' = - Rabs vx2 /\ Particle.vx p' <= 0
        /\ (Particle.x p <= W -> Particle.vx p' < 0))
  /\ (0 <= Particle.x p + vx2 <= W ->
        Particle.x p' = Particle.x p + vx2 /\ Particle.vx p' = vx2)
  /\ (Particle.y p + vy2 < 0 ->
        Particle.y p' = 0 /\ Particle.vy p' = Rabs vy2 /\ 0 <= Particle.vy p'
        /\ (0 <= Particle.y p -> 0 < Particle.vy p'))
  /\ (H < Particle.y p + vy2 ->
        Particle.y p' = H /\ Particle.vy p' = - Rabs vy2 /\ Particle.vy p' <= 0
        /\ (Particle.y p <= H -> Particle.vy p' < 0))
  /\ (0 <= Particle.y p + vy2 <= H ->
        Particle.y p' = Particle.y p + vy2 /\ Particle.vy p' = vy2)).
  { intros C. repeat (split; [apply C|]). exact Frame. }
  clear Frame.
  unfold p'. rewrite update_fields. simpl.
  fold vx2 vy2 W H.
  destruct (clamp_spec (Particle.x p + vx2) vx2 W) as (X1 & X2 & X3).
  destruct (clamp_spec (Particle.y p + vy2) vy2 H) as (Y1 & Y2 & Y3).
  pose proof (Rabs_pos vx2) as Ax. pose proof (Rabs_pos vy2) as Ay.
  repeat split; intros.
  all: try (rewrite X1 by lra; simpl); try (rewrite Y1 by lra; simpl).
  all: try (rewrite X2 by lra; simpl); try (rewrite Y2 by lra; simpl).
  all: try (rewrite X3 by lra; simpl); try (rewrite Y3 by lra; simpl).
  all: try lra.
  all: try (apply Rabs_pos_lt; lra).
  all: match goal with
       | |- - Rabs ?v < 0 => assert (0 < Rabs v) by (apply Rabs_pos_lt; lra); lra
       end.
Qed.

(** A particle about to leave through the left edge of an 800 x 600
    canvas is put back on the edge and sent to the right. *)
Lemma particle_update_clamped_witness :
  let p := Particle.mk 0.1 300 (-0.2) 0 (-0.2) 0 1 1 0 in
  let p' := Particle.update (mkCanvas 800 600) mouse_init 1 p in
  Particle.x p' = 0 /\ 0 < Particle.vx p'.
Proof.
  intros p p'.
  pose proof (particle_update_clamped (mkCanvas 800 600) [] mouse_init 1 p) as T.
  destruct T as (_ & L & _).
  assert (C : Particle.x p + relaxed (-0.2) (-0.2) < 0).
  { unfold relaxed, CONFIG.mouseReturnSpeed, p; simpl. lra. }
  destruct (L C) as (Hx & _ & _ & Hv).
  split; [exact Hx | apply Hv; unfold p; simpl; lra].
Defined.

(** ** Relaxation toward the base velocity *)

Lemma repel_inactive m p :
  active m = false -> Particle.repel m p = (Particle.vx p, Particle.vy p).
Proof. intros H. unfold Particle.repel. rewrite H. reflexivity. Qed.





(** ** The breathing radius *)

Lemma updates_constants canvas frames p :
  Particle.baseRadius (updates canvas frames p) = Particle.baseRadius p
  /\ Particle.pulseOffset (updates canvas frames p) = Particle.pulseOffset p.
Proof.
  unfold updates. revert p.
  induction frames as [|f frames IH]; intros p; simpl; [tauto|].
  destruct (IH (Particle.update canvas (fst f) (snd f) p)) as [B O].
  rewrite B, O, update_fields. simpl. tauto.
Qed.

Lemma reset_fields canvas rng :
  fst (Particle.reset canvas rng) =
    let vx := rng 2%nat * CONFIG.particleSpeedRange - CONFIG.particleSpeedRange / 2 in
    let vy := rng 3%nat * CONFIG.particleSpeedRange - CONFIG.particleSpeedRange / 2 in
    let r := rng 4%nat * (CONFIG.particleMaxRadius - CONFIG.particleMinRadius)
             + CONFIG.particleMinRadius in
    {| Particle.x := rng 0%nat * IZR (Z.of_N (width canvas));
       Particle.y := rng 1%nat * IZR (Z.of_N (height canvas));
       Particle.vx := vx; Particle.vy := vy;
       Particle.baseVx := vx; Particle.baseVy := vy;
       Particle.baseRadius := r; Particle.radius := r;
       Particle.pulseOffset := rng 5%nat * PI * 2 |}.
Proof. reflexivity. Qed.

(** C8.  A particle created by [reset()] has a base radius in
    [minRadius, maxRadius]; however many frames it has been through, the
    next [update()] sets its radius to the base radius plus
    [0.4 * sin(frameCount * pulseSpeed + phase)], an oscillation of at most
    0.4 in absolute value, and the radius is at least 0.1, so strictly
    positive (as it is at creation, where it is the base radius). *)
Theorem particle_radius_breathes
    (canvas : Canvas) (rng : JS.Rng) (frames : list (Mouse * Z))
    (m : Mouse) (fc : Z) :
  JS.rng_ok rng ->
  let p0 := fst (Particle.reset canvas rng) in
  let p := Particle.update canvas m fc (updates canvas frames p0) in
  let wave := sin (IZR fc * CONFIG.pulseSpeed + Particle.pulseOffset p0) in
  Particle.radius p = Particle.baseRadius p0 + 0.4 * wave
  /\ Particle.baseRadius p = Particle.baseRadius p0
  /\ CONFIG.particleMinRadius <= Particle.baseRadius p0 <= CONFIG.particleMaxRadius
  /\ -0.4 <= 0.4 * wave <= 0.4
  /\ 0.1 <= Particle.radius p
  /\ 0 < Particle.radius p
  /\ 0 < Particle.radius p0.
Proof.
  intros Hrng p0 p wave.
  destruct (updates_constants canvas frames p0) as [B O].
  assert (R1 : Particle.radius p = Particle.baseRadius p0 + 0.4 * wave).
  { unfold p. rewrite update_fields. cbn [Particle.radius]. rewrite B, O.
    fold wave. lra. }
  assert (R2 : Particle.baseRadius p = Particle.baseRadius p0).
  { unfold p. rewrite update_fields. cbn [Particle.baseRadius]. exact B. }
  assert (R3 : CONFIG.particleMinRadius <= Particle.baseRadius p0
               <= CONFIG.particleMaxRadius
               /\ Particle.radius p0 = Particle.baseRadius p0).
  { unfold p0. rewrite reset_fields. simpl.
    unfold CONFIG.particleMaxRadius, CONFIG.particleMinRadius.
    pose proof (Hrng 4%nat). lra. }
  pose proof (SIN_bound (IZR fc * CONFIG.pulseSpeed + Particle.pulseOffset p0)) as S.
  fold wave in S.
  unfold CONFIG.particleMaxRadius, CONFIG.particleMinRadius in *.
  repeat split; try lra.
Qed.

(** With [Math.random] returning 1/2 throughout, the particle created on
    an 800 x 600 canvas keeps a positive radius at frame 7. *)
Lemma particle_radius_breathes_witness :
  0 < Particle.radius
        (Particle.update (mkCanvas 800 600) mouse_init 7
           (updates (mkCanvas 800 600) [(mouse_init, 6%Z)]
              (fst (Particle.reset (mkCanvas 800 600) (fun _ => 1 / 2))))).
Proof.
  apply (particle_radius_breathes (mkCanvas 800 600) (fun _ => 1 / 2)
           [(mouse_init, 6%Z)] mouse_init 7).
  intros n. lra.
Defined.

(** ** The pointer repel force *)

Lemma checked_div_nonzero a b : b <> 0 -> checked_div a b = Some (a / b).
Proof.
  intros H. unfold checked_div. destruct (Req_dec_T b 0); [contradiction|reflexivity].
Qed.

Lemma repel_at_pointer m p :
  Particle.x p = mouse_x m -> Particle.y p = mouse_y m ->
  Particle.repel m p = (Particle.vx p, Particle.vy p).
Proof.
  intros Hx Hy. unfold Particle.repel.
  destruct (active m); [|reflexivity].
  rewrite Hx, Hy.
  replace ((mouse_x m - mouse_x m) * (mouse_x m - mouse_x m)
           + (mouse_y m - mouse_y m) * (mouse_y m - mouse_y m)) with 0 by ring.
  unfold JS.Math_sqrt. rewrite sqrt_0.
  js_cases; simpl; try reflexivity; lra.
Qed.

(** C10.  The repel force is computed only on the branch guarded by
    [0 < dist < mouseRadius], so none of its divisions has a zero divisor
    (the checked computation never fails and agrees with [repel]); outside
    that range the velocity is not touched, inside it the force is added
    along the outward direction; and a particle exactly at the pointer is
    updated as if the pointer were inactive. *)
Theorem repel_never_divides_by_zero
    (canvas : Canvas) (m : Mouse) (fc : Z) (p : Particle.t) :
  let dist := pointerDist m p in
  let dx := Particle.x p - mouse_x m in
  let dy := Particle.y p - mouse_y m in
  let force := (1 - dist / CONFIG.mouseRadius) * CONFIG.mouseRepelForce in
  Checked.repel m p = Some (Particle.repel m p)
  /\ (Particle.repel m p <> (Particle.vx p, Particle.vy p) ->
        active m = true /\ 0 < dist < CONFIG.mouseRadius)
  /\ (active m = true -> 0 < dist < CONFIG.mouseRadius ->
        Particle.repel m p =
          (Particle.vx p + dx / dist * force, Particle.vy p + dy / dist * force))
  /\ (Particle.x p = mouse_x m -> Particle.y p = mouse_y m ->
        dist = 0
        /\ Particle.repel m p = (Particle.vx p, Particle.vy p)
        /\ Particle.update canvas m fc p =
           Particle.update canvas (mkMouse (mouse_x m) (mouse_y m) false) fc p).
Proof.
  intros dist dx dy force.
  split; [|split; [|split]].
  - unfold Checked.repel, Particle.repel.
    destruct (active m); [|reflexivity].
    js_cases; simpl; try reflexivity.
    rewrite !checked_div_nonzero; try reflexivity; lra.
  - intros Hne.
    unfold Particle.repel in Hne. unfold dist, pointerDist.
    destruct (active m); [|contradiction].
    revert Hne. js_cases; simpl; intros Hne; try contradiction.
    split; [reflexivity|lra].
  - intros Ha [H0 H1]. unfold Particle.repel. rewrite Ha.
    fold dx dy. unfold dist, pointerDist in H0, H1. fold dx dy in H0, H1.
    js_cases; simpl; try lra. reflexivity.
  - intros Hx Hy.
    assert (D : dist = 0).
    { unfold dist, pointerDist. rewrite Hx, Hy.
      replace ((mouse_x m - mouse_x m) * (mouse_x m - mouse_x m)
               + (mouse_y m - mouse_y m) * (mouse_y m - mouse_y m)) with 0 by ring.
      apply sqrt_0. }
    split; [exact D|]. split; [apply repel_at_pointer; assumption|].
    rewrite !update_fields.
    rewrite (repel_at_pointer m p Hx Hy).
    rewrite (repel_inactive (mkMouse (mouse_x m) (mouse_y m) false) p eq_refl).
    reflexivity.
Qed.

(** The pointer sits exactly on a particle: the particle moves as it would
    with the pointer away. *)
Lemma repel_never_divides_by_zero_witness :
  let p := Particle.mk 400 300 1 0 0 0 1 1 0 in
  let m := mkMouse 400 300 true in
  Particle.update (mkCanvas 800 600) m 1 p
  = Particle.update (mkCanvas 800 600) (mkMouse 400 300 false) 1 p.
Proof.
  intros p m.
  pose proof (repel_never_divides_by_zero (mkCanvas 800 600) m 1 p) as T.
  destruct T as (_ & _ & _ & T).
  destruct (T eq_refl eq_refl) as (_ & _ & E). exact E.
Defined.

(** ** Particle creation *)

Lemma Zfloor_div (n d : Z) : (0 < d)%Z -> Zfloor (IZR n / IZR d) = (n / d)%Z.
Proof.
  intros Hd. apply Zfloor_eq.
  assert (Dpos : 0 < IZR d) by (apply IZR_lt; exact Hd).
  pose proof (Z.div_mod n d ltac:(lia)) as E.
  pose proof (Z.mod_pos_bound n d Hd) as [M0 M1].
  assert (En : IZR n = IZR d * IZR (n / d) + IZR (n mod d)).
  { rewrite <- mult_IZR, <- plus_IZR. f_equal. exact E. }
  apply IZR_le in M0. apply IZR_lt in M1.
  unfold Rdiv. rewrite En.
  replace ((IZR d * IZR (n / d) + IZR (n mod d)) * / IZR d)
    with (IZR (n / d) + IZR (n mod d) * / IZR d) by (field; lra).
  assert (0 <= IZR (n mod d) * / IZR d < 1).
  { split.
    - apply Rmult_le_pos; [exact M0 | left; apply Rinv_0_lt_compat; exact Dpos].
    - apply (Rmult_lt_reg_r (IZR d)); [exact Dpos|].
      rewrite Rmult_assoc, Rinv_l by lra. lra. }
  lra.
Qed.

Lemma getDensity_cases w :
  (innerWidth w < 768)%N /\ getDensity w = CONFIG.particleDensityMobile
  \/ (768 <= innerWidth w)%N /\ getDensity w = CONFIG.particleDensity.
Proof.
  unfold getDensity. destruct (N.ltb_spec (innerWidth w) 768); [left|right]; tauto.
Qed.

Lemma getDensity_pos w : (0 < getDensity w)%Z.
Proof.
  destruct (getDensity_cases w) as [[_ E]|[_ E]]; rewrite E; reflexivity.
Qed.

Lemma particleCount_div c w :
  particleCount c w = (Z.of_N (width c) * Z.of_N (height c) / getDensity w)%Z.
Proof.
  unfold particleCount, JS.Math_floor. rewrite <- mult_IZR.
  apply Zfloor_div, getDensity_pos.
Qed.

Lemma particleCount_nonneg c w : (0 <= particleCount c w)%Z.
Proof.
  rewrite particleCount_div. apply Z.div_pos; [lia | apply getDensity_pos].
Qed.

Lemma newParticles_refs c count ref rng :
  refs (fst (newParticles c count ref rng)) = seq ref count.
Proof.
  revert ref rng. induction count as [|k IH]; intros ref rng; [reflexivity|].
  simpl. unfold JS.bind.
  destruct (Particle.reset c rng) as [p rng1].
  specialize (IH (S ref) rng1).
  destruct (newParticles c k (S ref) rng1) as [rest rng2].
  simpl in *. rewrite IH. reflexivity.
Qed.

Lemma newParticles_length c count ref rng :
  List.length (fst (newParticles c count ref rng)) = count.
Proof.
  rewrite <- (length_map fst). fold (refs (fst (newParticles c count ref rng))).
  rewrite newParticles_refs. apply length_seq.
Qed.

Lemma createParticles_particles st :
  particles (createParticles st) =
    fst (newParticles (canvas st) (Z.to_nat (particleCount (canvas st) (window st)))
           (nextRef st) (random st)).
Proof.
  unfold createParticles.
  destruct (newParticles _ _ _ _) as [ps rng]. reflexivity.
Qed.

Lemma createParticles_frame st :
  window (createParticles st) = window st
  /\ canvas (createParticles st) = canvas st
  /\ shootingStars (createParticles st) = shootingStars st
  /\ nextRef (createParticles st) =
       (nextRef st + Z.to_nat (particleCount (canvas st) (window st)))%nat.
Proof.
  unfold createParticles.
  destruct (newParticles _ _ _ _) as [ps rng]. simpl. tauto.
Qed.

Lemma createParticles_length st :
  Z.of_nat (List.length (particles (createParticles st)))
  = particleCount (canvas st) (window st).
Proof.
  rewrite createParticles_particles, newParticles_length.
  apply Z2Nat.id, particleCount_nonneg.
Qed.

Lemma animate_particles_length st :
  List.length (particles (fst (animate st))) = List.length (particles st).
Proof.
  unfold animate. destruct (hidden st); simpl; [reflexivity|apply length_map].
Qed.

Lemma animate_particles_refs st :
  refs (particles (fst (animate st))) = refs (particles st).
Proof.
  unfold animate, refs. destruct (hidden st); simpl; [reflexivity|].
  rewrite map_map. reflexivity.
Qed.

Lemma initialize_particles_length w h rng :
  Z.of_nat (List.length (particles (initializeConstellation w h rng)))
  = (Z.of_N (innerWidth w) * Z.of_N (innerHeight w) / getDensity w)%Z.
Proof.
  unfold initializeConstellation.
  rewrite animate_particles_length, createParticles_length, particleCount_div.
  reflexivity.
Qed.

(** C4.  [createParticles()] leaves exactly
    [floor(width * height / density)] particles, the density being the one
    [getDensity()] selects by the 768-pixel width threshold; the count
    depends on nothing but width, height and density, it is 0 for an empty
    area, and an 800 x 600 page starts with 32 particles. *)
Theorem createParticles_count (st : State) :
  let W := Z.of_N (width (canvas st)) in
  let H := Z.of_N (height (canvas st)) in
  let D := getDensity (window st) in
  let n := Z.of_nat (List.length (particles (createParticles st))) in
  n = Zfloor (IZR W * IZR H / IZR D)
  /\ n = (W * H / D)%Z
  /\ ((innerWidth (window st) < 768)%N /\ D = 30000%Z
      \/ (768 <= innerWidth (window st))%N /\ D = 15000%Z)
  /\ ((W * H = 0)%Z -> n = 0%Z)
  /\ (forall st2 : State,
        canvas st2 = canvas st -> getDensity (window st2) = D ->
        List.length (particles (createParticles st2))
        = List.length (particles (createParticles st)))
  /\ (forall h rng,
        List.length (particles (initializeConstellation (mkWindow 800 600) h rng))
        = 32%nat).
Proof.
  intros W H D n.
  assert (E1 : n = (W * H / D)%Z).
  { unfold n. rewrite createParticles_length. apply particleCount_div. }
  split; [|split; [exact E1|split; [|split; [|split]]]].
  - unfold n. rewrite createParticles_length. reflexivity.
  - apply getDensity_cases.
  - intros Z0. rewrite E1, Z0. apply Z.div_0_l.
    pose proof (getDensity_pos (window st)). fold D in H0. lia.
  - intros st2 Ec Ed. apply Nat2Z.inj.
    rewrite !createParticles_length. unfold particleCount. rewrite Ec, Ed.
    reflexivity.
  - intros h rng. apply Nat2Z.inj.
    rewrite initialize_particles_length. reflexivity.
Qed.

(** An empty 0 x 600 canvas gets no particle. *)
Lemma createParticles_count_witness :
  List.length
    (particles
       (createParticles
          (mkState (mkWindow 0 600) false (fun _ => 1 / 2) (mkCanvas 0 600)
             [] [] 0 mouse_init false 0%nat))) = 0%nat.
Proof.
  pose proof (createParticles_count
                (mkState (mkWindow 0 600) false (fun _ => 1 / 2) (mkCanvas 0 600)
                   [] [] 0 mouse_init false 0%nat)) as T.
  destruct T as (_ & _ & _ & T & _).
  apply Nat2Z.inj. apply T. reflexivity.
Defined.

(** ** Object identity and the shooting stars *)

Lemma refs_app {A} (l1 l2 : list (Ref * A)) : refs (l1 ++ l2) = refs l1 ++ refs l2.
Proof. apply map_app. Qed.

Lemma refs_updateStars l : refs (updateStars l) = refs l.
Proof. unfold refs, updateStars. rewrite map_map. reflexivity. Qed.

Lemma refs_liveStars_incl c l r : In r (refs (liveStars c l)) -> In r (refs l).
Proof.
  unfold refs, liveStars. intros H. apply in_map_iff in H.
  destruct H as (rs & E & H). apply filter_In in H.
  apply in_map_iff. exists rs. tauto.
Qed.

Lemma refs_liveStars_NoDup c l : NoDup (refs l) -> NoDup (refs (liveStars c l)).
Proof.
  induction l as [|rs l IH]; simpl; intros H; [constructor|].
  inversion H as [|? ? Hn Hd]; subst.
  destruct (negb (ShootingStar.isDead c (snd rs))); simpl; [|auto].
  constructor; [|auto]. intros Hin. apply Hn. eapply refs_liveStars_incl, Hin.
Qed.

Lemma animate_stars st :
  hidden st = false ->
  shootingStars (fst (animate st))
  = updateStars (liveStars (canvas st) (shootingStars st)).
Proof. intros H. unfold animate. rewrite H. reflexivity. Qed.

Lemma animate_frame st :
  nextRef (fst (animate st)) = nextRef st
  /\ random (fst (animate st)) = random st
  /\ canvas (fst (animate st)) = canvas st.
Proof. unfold animate. destruct (hidden st); simpl; tauto. Qed.

Lemma animate_stars_incl st r :
  In r (refs (shootingStars (fst (animate st)))) -> In r (refs (shootingStars st)).
Proof.
  unfold animate. destruct (hidden st); simpl; [tauto|].
  rewrite refs_updateStars. apply refs_liveStars_incl.
Qed.

Lemma spawn_frame st :
  (nextRef st <= nextRef (spawnShootingStar st))%nat
  /\ particles (spawnShootingStar st) = particles st
  /\ (shootingStars (spawnShootingStar st) = shootingStars st
      \/ exists s,
           shootingStars (spawnShootingStar st) = shootingStars st ++ [(nextRef st, s)]
           /\ nextRef (spawnShootingStar st) = S (nextRef st)
           /\ s = fst (ShootingStar.new (canvas st) (fun n => random st (S n)))).
Proof.
  unfold spawnShootingStar. destruct (hidden st); [auto|].
  unfold JS.Math_random.
  destruct (JS.ltb (random st 0%nat) 0.7).
  - destruct (ShootingStar.new (canvas st) (fun n => random st (S n))) as [s rng'] eqn:E.
    simpl. repeat split; auto. right. exists s. auto.
  - simpl. auto.
Qed.

Lemma step_nextRef st e : (nextRef st <= nextRef (step st e))%nat.
Proof.
  destruct e; simpl; try lia.
  - destruct (resizeTimer st); [|lia]. unfold resizeCallback.
    destruct (createParticles_frame (setCanvasSize (with_resizeTimer false st)))
      as (_ & _ & _ & E).
    rewrite E. simpl. lia.
  - destruct (animate_frame st) as (E & _). lia.
  - apply spawn_frame.
Qed.

Lemma step_refs_ok st e : refs_ok st -> refs_ok (step st e).
Proof.
  intros (P & S & D). destruct e; simpl; try (split; [|split]; assumption).
  - (* resizeTimeout *)
    destruct (resizeTimer st); [|split; [|split]; assumption].
    unfold resizeCallback.
    set (st1 := setCanvasSize (with_resizeTimer false st)).
    destruct (createParticles_frame st1) as (_ & _ & Es & En).
    unfold refs_ok. rewrite Es, En, createParticles_particles, newParticles_refs.
    simpl. split; [|split; [|exact D]].
    + apply Forall_forall. intros r Hr. apply in_seq in Hr. lia.
    + eapply Forall_impl; [|exact S]. simpl. intros; lia.
  - (* animationFrame *)
    destruct (animate_frame st) as (En & _).
    unfold refs_ok. rewrite En, animate_particles_refs.
    split; [exact P|]. split.
    + apply Forall_forall. intros r Hr.
      rewrite Forall_forall in S. apply S, animate_stars_incl, Hr.
    + unfold animate. destruct (hidden st); simpl; [exact D|].
      rewrite refs_updateStars. apply refs_liveStars_NoDup, D.
  - (* spawnInterval *)
    destruct (spawn_frame st) as (Hn & Ep & [Es | (s & Es & En & _)]);
      unfold refs_ok; rewrite Ep, Es.
    + split; [|split; [|exact D]];
        (eapply Forall_impl; [|eassumption]); simpl; intros; lia.
    + rewrite En, refs_app. simpl. split; [|split].
      * eapply Forall_impl; [|exact P]. simpl. intros; lia.
      * apply Forall_app. split.
        -- eapply Forall_impl; [|exact S]. simpl. intros; lia.
        -- repeat constructor.
      * apply NoDup_app; [exact D|repeat constructor; simpl; tauto|].
        intros r Hr [<-|[]]. rewrite Forall_forall in S.
        specialize (S _ Hr). simpl in S. lia.
Qed.

Lemma run_app st es1 es2 : run st (es1 ++ es2) = run (run st es1) es2.
Proof. apply fold_left_app. Qed.

Lemma run_refs_ok st es : refs_ok st -> refs_ok (run st es).
Proof.
  revert st. induction es as [|e es IH]; intros st H; simpl; [exact H|].
  apply IH, step_refs_ok, H.
Qed.

Lemma initialize_refs_ok w h rng : refs_ok (initializeConstellation w h rng).
Proof.
  unfold initializeConstellation.
  set (st0 := mkState w h rng (mkCanvas 0 0) [] [] 0 mouse_init false 0%nat).
  apply (step_refs_ok (createParticles (setCanvasSize st0)) animationFrame).
  destruct (createParticles_frame (setCanvasSize st0)) as (_ & _ & Es & En).
  unfold refs_ok. rewrite Es, En, createParticles_particles, newParticles_refs.
  simpl. split; [|split; constructor].
  apply Forall_forall. intros r Hr. apply in_seq in Hr. simpl in Hr. lia.
Qed.

(** ** Resize *)

Lemma resizeCallback_canvas st :
  canvas (resizeCallback st)
  = mkCanvas (innerWidth (window st)) (innerHeight (window st)).
Proof.
  unfold resizeCallback.
  destruct (createParticles_frame (setCanvasSize st)) as (_ & E & _).
  rewrite E. reflexivity.
Qed.

Lemma resizeCallback_length st :
  Z.of_nat (List.length (particles (resizeCallback st)))
  = (Z.of_N (innerWidth (window st)) * Z.of_N (innerHeight (window st))
     / getDensity (window st))%Z.
Proof.
  unfold resizeCallback. rewrite createParticles_length, particleCount_div.
  reflexivity.
Qed.

Lemma resizeCallback_fresh st r :
  refs_ok st -> In r (refs (particles st)) -> ~ In r (refs (particles (resizeCallback st))).
Proof.
  intros (P & _) Hr Hr'. rewrite Forall_forall in P. specialize (P _ Hr).
  unfold resizeCallback in Hr'.
  rewrite createParticles_particles, newParticles_refs in Hr'.
  apply in_seq in Hr'. simpl in Hr'. lia.
Qed.

Lemma resize_400x300_count st :
  List.length (particles (run st [resize 400 300; resizeTimeout])) = 4%nat.
Proof.
  simpl. apply Nat2Z.inj. rewrite resizeCallback_length. reflexivity.
Qed.

(** C7, as the code has it.  When the debounce timer of a resize fires,
    the canvas takes the window's current size and the particle array is
    replaced by [floor(newW * newH / D)] newly created particles, [D]
    being the density [getDensity()] selects for the new width; no
    particle object from before is in the new array, and the timer does
    nothing more until the next resize.  Resizing an 800 x 600 page to
    400 x 300 selects the density 30000 and leaves 4 particles. *)
Theorem resize_recreates_particles
    (w0 : Window) (h0 : bool) (rng : JS.Rng) (es : list Event) :
  let st := run (initializeConstellation w0 h0 rng) es in
  resizeTimer st = true ->
  let st' := step st resizeTimeout in
  let W := Z.of_N (innerWidth (window st)) in
  let H := Z.of_N (innerHeight (window st)) in
  let D := getDensity (window st) in
  canvas st' = mkCanvas (innerWidth (window st)) (innerHeight (window st))
  /\ Z.of_nat (List.length (particles st')) = Zfloor (IZR W * IZR H / IZR D)
  /\ Z.of_nat (List.length (particles st')) = (W * H / D)%Z
  /\ (forall r, In r (refs (particles st)) -> ~ In r (refs (particles st')))
  /\ step st' resizeTimeout = st'
  /\ List.length
       (particles (run (initializeConstellation (mkWindow 800 600) h0 rng)
                       [resize 400 300; resizeTimeout])) = 4%nat.
Proof.
  intros st Ht st' W H D.
  assert (Ok : refs_ok st) by apply run_refs_ok, initialize_refs_ok.
  assert (E : st' = resizeCallback (with_resizeTimer false st)).
  { unfold st'. simpl. rewrite Ht. reflexivity. }
  split; [|split; [|split; [|split; [|split]]]].
  - rewrite E, resizeCallback_canvas. reflexivity.
  - rewrite E, resizeCallback_length. simpl. fold W H D.
    rewrite <- mult_IZR. symmetry. apply Zfloor_div, getDensity_pos.
  - rewrite E, resizeCallback_length. reflexivity.
  - intros r Hr. rewrite E.
    apply (resizeCallback_fresh (with_resizeTimer false st)); assumption.
  - assert (Hf : resizeTimer st' = false).
    { rewrite E. unfold resizeCallback, createParticles.
      destruct (newParticles _ _ _ _). reflexivity. }
    simpl. rewrite Hf. reflexivity.
  - apply resize_400x300_count.
Qed.

(** An 1200 x 800 page is resized to 1000 x 600: the 64 particles are
    replaced by 40 new ones. *)
Lemma resize_recreates_particles_witness :
  let st := run (initializeConstellation (mkWindow 1200 800) false (fun _ => 1 / 2))
                [resize 1000 600] in
  Z.of_nat (List.length (particles st)) = 64%Z
  /\ Z.of_nat (List.length (particles (step st resizeTimeout))) = 40%Z.
Proof.
  intros st. split.
  - unfold st. simpl. rewrite initialize_particles_length. reflexivity.
  - pose proof (resize_recreates_particles (mkWindow 1200 800) false
                  (fun _ => 1 / 2) [resize 1000 600] eq_refl) as T.
    destruct T as (_ & _ & T & _). exact T.
Defined.

(** C7 fails as stated on its own example: a window 400 pixels wide is
    below the 768-pixel threshold, so [getDensity()] returns 30000, not
    15000, and the resize from 800 x 600 to 400 x 300 leaves 4 particles,
    not 8. *)
Lemma resize_to_400x300_leaves_4_not_8 :
  let st0 := initializeConstellation (mkWindow 800 600) false (fun _ => 1 / 2) in
  let st1 := run st0 [resize 400 300; resizeTimeout] in
  List.length (particles st0) = 32%nat
  /\ getDensity (window st1) = 30000%Z
  /\ List.length (particles st1) = 4%nat
  /\ List.length (particles st1) <> 8%nat.
Proof.
  intros st0 st1.
  assert (L : List.length (particles st1) = 4%nat) by apply resize_400x300_count.
  split; [|split; [|split]].
  - apply Nat2Z.inj. unfold st0. rewrite initialize_particles_length. reflexivity.
  - unfold st1. simpl. unfold resizeCallback.
    destruct (createParticles_frame
                (setCanvasSize
                   (with_resizeTimer false
                      (with_resizeTimer true (with_window (mkWindow 400 300) st0)))))
      as (E & _).
    rewrite E. reflexivity.
  - exact L.
  - rewrite L. discriminate.
Qed.

(** ** Shooting stars *)

Lemma reset_rng c rng :
  snd (Particle.reset c rng) = fun n => rng (6 + n)%nat.
Proof. reflexivity. Qed.

Lemma newParticles_rng_ok c count ref rng :
  JS.rng_ok rng -> JS.rng_ok (snd (newParticles c count ref rng)).
Proof.
  revert ref rng. induction count as [|k IH]; intros ref rng H; [exact H|].
  simpl. unfold JS.bind.
  pose proof (reset_rng c rng) as E.
  destruct (Particle.reset c rng) as [p rng1]. simpl in E.
  assert (H1 : JS.rng_ok rng1) by (rewrite E; intros n; apply H).
  specialize (IH (S ref) rng1 H1).
  destruct (newParticles c k (S ref) rng1) as [rest rng2]. exact IH.
Qed.

Lemma new_star_fields c rng :
  ShootingStar.decay (fst (ShootingStar.new c rng)) = 0.008 + rng 4%nat * 0.008
  /\ ShootingStar.life (fst (ShootingStar.new c rng)) = 1.0
  /\ snd (ShootingStar.new c rng) = fun n => rng (5 + n)%nat.
Proof.
  unfold ShootingStar.new, JS.bind, JS.Math_random, JS.ret.
  destruct (JS.ltb (rng 0%nat) 0.5); simpl; auto.
Qed.

Lemma new_star_ok c rng : JS.rng_ok rng -> star_ok (fst (ShootingStar.new c rng)).
Proof.
  intros G.
  pose proof (G 1%nat) as G1. pose proof (G 2%nat) as G2. pose proof (G 4%nat) as G4.
  pose proof PI_RGT_0 as Pi.
  pose proof (N_nonneg_R (width c)) as Wn. pose proof (N_nonneg_R (height c)) as Hn.
  assert (A : 0 < PI / 6 + rng 2%nat * PI / 4 < PI / 2) by nra.
  assert (Vx : 0 < cos (PI / 6 + rng 2%nat * PI / 4) * CONFIG.shootingStarSpeed).
  { apply Rmult_lt_0_compat; [apply cos_gt_0; lra | unfold CONFIG.shootingStarSpeed; lra]. }
  assert (Vy : 0 < sin (PI / 6 + rng 2%nat * PI / 4) * CONFIG.shootingStarSpeed).
  { apply Rmult_lt_0_compat; [apply sin_gt_0; lra | unfold CONFIG.shootingStarSpeed; lra]. }
  unfold ShootingStar.new, JS.bind, JS.Math_random, JS.ret, star_ok,
    JS.Math_cos, JS.Math_sin, JS.Math_PI.
  destruct (JS.ltb (rng 0%nat) 0.5); simpl; repeat split; try lra; try nra.
Qed.

Lemma star_update_ok s : star_ok s -> star_ok (ShootingStar.update s).
Proof. unfold star_ok. simpl. intros (D & X & Y & Px & Py). repeat split; lra. Qed.

Lemma star_update_life s :
  0 < ShootingStar.decay s ->
  ShootingStar.life (ShootingStar.update s) < ShootingStar.life s.
Proof. intros H. simpl. lra. Qed.

Lemma isDead_spec c s :
  ShootingStar.isDead c s = true <->
  ShootingStar.life s <= 0
  \/ IZR (Z.of_N (width c)) + 50 < ShootingStar.x s
  \/ IZR (Z.of_N (height c)) + 50 < ShootingStar.y s.
Proof.
  unfold ShootingStar.isDead.
  rewrite !orb_true_iff, leb_true, !ltb_true. tauto.
Qed.

Lemma step_stars_ok st e : stars_ok st -> stars_ok (step st e).
Proof.
  intros (G & Hs). destruct e; simpl; try (split; assumption).
  - destruct (resizeTimer st); [|split; assumption].
    unfold resizeCallback, createParticles, stars_ok.
    pose proof (newParticles_rng_ok
                  (canvas (setCanvasSize (with_resizeTimer false st)))
                  (Z.to_nat (particleCount (canvas (setCanvasSize (with_resizeTimer false st)))
                                           (window (setCanvasSize (with_resizeTimer false st)))))
                  (nextRef (setCanvasSize (with_resizeTimer false st)))
                  (random (setCanvasSize (with_resizeTimer false st))) G) as G'.
    destruct (newParticles _ _ _ _) as [ps rng']. simpl in *. split; assumption.
  - unfold animate, stars_ok. destruct (hidden st); simpl; [split; assumption|].
    split; [exact G|].
    unfold updateStars, liveStars. apply Forall_map. simpl.
    apply Forall_forall. intros rs Hrs. apply filter_In in Hrs.
    rewrite Forall_forall in Hs. apply star_update_ok, Hs, Hrs.
  - unfold spawnShootingStar, stars_ok. destruct (hidden st); [split; assumption|].
    unfold JS.Math_random.
    destruct (JS.ltb (random st 0%nat) 0.7).
    + destruct (new_star_fields (canvas st) (fun n => random st (S n)))
        as (_ & _ & Er).
      pose proof (new_star_ok (canvas st) (fun n => random st (S n))
                    (rng_ok_tail _ G)) as Sk.
      destruct (ShootingStar.new (canvas st) (fun n => random st (S n))) as [s rng'].
      simpl in *. split.
      * rewrite Er. intros n. apply G.
      * apply Forall_app. split; [exact Hs|]. constructor; [exact Sk|constructor].
    + simpl. split; [apply rng_ok_tail, G | exact Hs].
Qed.

Lemma run_stars_ok st es : stars_ok st -> stars_ok (run st es).
Proof.
  revert st. induction es as [|e es IH]; intros st H; simpl; [exact H|].
  apply IH, step_stars_ok, H.
Qed.

Lemma initialize_stars_ok w h rng :
  JS.rng_ok rng -> stars_ok (initializeConstellation w h rng).
Proof.
  intros G. unfold initializeConstellation.
  set (st0 := mkState w h rng (mkCanvas 0 0) [] [] 0 mouse_init false 0%nat).
  apply (step_stars_ok (createParticles (setCanvasSize st0)) animationFrame).
  unfold createParticles, stars_ok.
  pose proof (newParticles_rng_ok (canvas (setCanvasSize st0))
                (Z.to_nat (particleCount (canvas (setCanvasSize st0))
                                         (window (setCanvasSize st0))))
                (nextRef (setCanvasSize st0)) (random (setCanvasSize st0)) G) as G'.
  destruct (newParticles _ _ _ _) as [ps rng']. simpl in *.
  split; [exact G'|constructor].
Qed.

Lemma step_star_gone st e r :
  refs_ok st -> (r < nextRef st)%nat ->
  ~ In r (refs (shootingStars st)) ->
  ~ In r (refs (shootingStars (step st e))).
Proof.
  intros Ok Hr Hn. destruct e; simpl; try exact Hn.
  - destruct (resizeTimer st); [|exact Hn]. unfold resizeCallback.
    destruct (createParticles_frame (setCanvasSize (with_resizeTimer false st)))
      as (_ & _ & E & _).
    rewrite E. exact Hn.
  - intros H. apply Hn, animate_stars_incl, H.
  - destruct (spawn_frame st) as (_ & _ & [E | (s & E & _)]); rewrite E; [exact Hn|].
    rewrite refs_app, in_app_iff. simpl. intros [H|[H|[]]]; [tauto|lia].
Qed.

Lemma run_star_gone st es r :
  refs_ok st -> (r < nextRef st)%nat ->
  ~ In r (refs (shootingStars st)) ->
  ~ In r (refs (shootingStars (run st es))).
Proof.
  revert st. induction es as [|e es IH]; intros st Ok Hr Hn; simpl; [exact Hn|].
  apply IH.
  - apply step_refs_ok, Ok.
  - pose proof (step_nextRef st e). lia.
  - apply step_star_gone; assumption.
Qed.

Lemma drawStars_In l r k :
  In (r, k) (drawStars l) ->
  exists s, In (r, s) l /\ ShootingStar.draw s = Some k /\ 0 < ShootingStar.life s.
Proof.
  unfold drawStars. intros H. apply in_flat_map in H.
  destruct H as ([r' s] & Hin & H). simpl in H.
  destruct (ShootingStar.draw s) as [k'|] eqn:E; [|contradiction].
  destruct H as [H|[]]. inversion H; subst. exists s.
  split; [exact Hin|]. split; [exact E|].
  unfold ShootingStar.draw in E. revert E. js_cases; [discriminate|].
  intros _. lra.
Qed.

Lemma animate_streaks_live st r k :
  In (r, k) (streaks (snd (animate st))) ->
  exists s, In (r, s) (shootingStars (fst (animate st))) /\ 0 < ShootingStar.life s.
Proof.
  unfold animate. destruct (hidden st); simpl; [contradiction|].
  intros H. apply drawStars_In in H. destruct H as (s & H & _ & L).
  exists s. tauto.
Qed.

(** C5.  In every state the renderer can reach, each live shooting star
    has a strictly positive decay rate, so [update()] strictly lowers its
    life, and it is never beyond the left or the top margin, so it can
    leave the canvas only to the right or at the bottom.  A frame keeps exactly the stars that are not dead when it
    starts (life > 0 and inside the canvas plus the 50-pixel margin) and
    updates each of them once; only stars kept by the frame are painted,
    and only with positive life.  No star is listed twice, and a star that
    has left the list never comes back: it is in no later live set, so it
    is neither updated nor painted again. *)
Theorem shooting_star_lifecycle
    (w : Window) (h : bool) (rng : JS.Rng) (es : list Event) :
  JS.rng_ok rng ->
  let st := run (initializeConstellation w h rng) es in
  let st' := fst (animate st) in
  let W := IZR (Z.of_N (width (canvas st))) in
  let H := IZR (Z.of_N (height (canvas st))) in
  (forall r s, In (r, s) (shootingStars st) ->
     0 < ShootingStar.decay s
     /\ ShootingStar.life (ShootingStar.update s) < ShootingStar.life s
     /\ -10 <= ShootingStar.x s /\ -10 <= ShootingStar.y s)
  /\ (hidden st = false ->
      forall r s',
        In (r, s') (shootingStars st') <->
        exists s, In (r, s) (shootingStars st)
                  /\ s' = ShootingStar.update s
                  /\ ~ (ShootingStar.life s <= 0
                        \/ W + 50 < ShootingStar.x s
                        \/ H + 50 < ShootingStar.y s))
  /\ (forall r k, In (r, k) (streaks (snd (animate st))) ->
        exists s', In (r, s') (shootingStars st') /\ 0 < ShootingStar.life s')
  /\ NoDup (refs (shootingStars st))
  /\ (forall r, (r < nextRef st)%nat -> ~ In r (refs (shootingStars st)) ->
      forall es',
        ~ In r (refs (shootingStars (run st es')))
        /\ ~ In r (map fst (streaks (snd (animate (run st es')))))).
Proof.
  intros G st st' W H. subst W H.
  assert (Ok : refs_ok st) by apply run_refs_ok, initialize_refs_ok.
  assert (Sk : stars_ok st) by (apply run_stars_ok, initialize_stars_ok, G).
  split; [|split; [|split; [|split]]].
  - intros r s Hin. destruct Sk as (_ & Sk). rewrite Forall_forall in Sk.
    specialize (Sk _ Hin). simpl in Sk. destruct Sk as (D & _ & _ & Px & Py).
    split; [exact D|]. split; [apply star_update_life, D|]. split; assumption.
  - intros Hh r s'. unfold st'. rewrite (animate_stars st Hh).
    unfold updateStars, liveStars. rewrite in_map_iff. split.
    + intros ([r0 s] & E & Hin). simpl in E. inversion E; subst.
      apply filter_In in Hin. destruct Hin as (Hin & Hd). simpl in Hd.
      exists s. split; [exact Hin|]. split; [reflexivity|].
      rewrite <- isDead_spec. destruct (ShootingStar.isDead (canvas st) s);
        [discriminate|intros X; discriminate].
    + intros (s & Hin & -> & Hd). exists (r, s). split; [reflexivity|].
      apply filter_In. split; [exact Hin|]. simpl.
      rewrite <- isDead_spec in Hd.
      destruct (ShootingStar.isDead (canvas st) s); [exfalso; auto|reflexivity].
  - intros r k. apply animate_streaks_live.
  - apply Ok.
  - intros r Hr Hn es'.
    assert (Gone : forall es2, ~ In r (refs (shootingStars (run st es2)))).
    { intros es2. apply run_star_gone; assumption. }
    split; [apply Gone|].
    intros Hd. apply in_map_iff in Hd. destruct Hd as ([r0 k] & E & Hd).
    simpl in E. subst r0.
    apply animate_streaks_live in Hd. destruct Hd as (s & Hs & _).
    apply (Gone (es' ++ [animationFrame])).
    rewrite run_app. simpl. unfold refs. apply in_map_iff.
    exists (r, s). split; [reflexivity|exact Hs].
Qed.

(** [Math.random] returns 1/2 throughout: the page spawns one shooting
    star, whose life then falls on [update()]. *)
Lemma shooting_star_lifecycle_witness :
  let st := run (initializeConstellation (mkWindow 800 600) false (fun _ => 1 / 2))
                [spawnInterval] in
  Forall (fun rs : Ref * ShootingStar.t =>
            ShootingStar.life (ShootingStar.update (snd rs)) < ShootingStar.life (snd rs))
         (shootingStars st)
  /\ NoDup (refs (shootingStars st)).
Proof.
  intros st.
  assert (G : JS.rng_ok (fun _ : nat => 1 / 2)) by (intros n; lra).
  pose proof (shooting_star_lifecycle (mkWindow 800 600) false
                (fun _ => 1 / 2) [spawnInterval] G) as T.
  destruct T as (T & _ & _ & N & _). split; [|exact N].
  apply Forall_forall. intros [r s] Hin. apply (T r s Hin).
Defined.

(** ** The spatial grid *)

Section GridFacts.

Lemma get_push key key' idx g :
  Grid.get key' (Grid.push key idx g) =
    if (key =? key')%Z then Some (cellList key g ++ [idx]) else Grid.get key' g.
Proof.
  unfold cellList.
  induction g as [|[k l] g IH]; simpl.
  - destruct (key =? key')%Z; reflexivity.
  - destruct (k =? key)%Z eqn:E; simpl.
    + apply Z.eqb_eq in E. subst k. destruct (key =? key')%Z; reflexivity.
    + destruct (k =? key')%Z eqn:E'.
      * apply Z.eqb_eq in E'. subst k. rewrite Z.eqb_sym, E. reflexivity.
      * exact IH.
Qed.

Lemma cellList_push key key' idx g :
  cellList key' (Grid.push key idx g) =
    cellList key' g ++ (if (key =? key')%Z then [idx] else []).
Proof.
  unfold cellList at 1. rewrite get_push.
  destruct (key =? key')%Z eqn:E.
  - apply Z.eqb_eq in E. subst. reflexivity.
  - fold (cellList key' g). rewrite app_nil_r. reflexivity.
Qed.

Lemma push_keys key idx g k :
  In k (map fst (Grid.push key idx g)) <-> k = key \/ In k (map fst g).
Proof.
  induction g as [|[k0 l] g IH]; simpl.
  - intuition.
  - destruct (k0 =? key)%Z eqn:E; simpl.
    + apply Z.eqb_eq in E. subst. intuition.
    + rewrite IH. intuition.
Qed.

Lemma push_NoDup key idx g :
  NoDup (map fst g) -> NoDup (map fst (Grid.push key idx g)).
Proof.
  induction g as [|[k0 l] g IH]; simpl; intros H.
  - repeat constructor. simpl. tauto.
  - inversion H as [|? ? Hn Hd]; subst.
    destruct (k0 =? key)%Z eqn:E; simpl.
    + constructor; assumption.
    + constructor; [|auto]. rewrite push_keys. intros [->|Hin]; [|auto].
      rewrite Z.eqb_refl in E. discriminate.
Qed.

Lemma get_In_keys key g : Grid.get key g <> None <-> In key (map fst g).
Proof.
  induction g as [|[k l] g IH]; simpl.
  - intuition.
  - destruct (k =? key)%Z eqn:E.
    + apply Z.eqb_eq in E. subst. intuition discriminate.
    + apply Z.eqb_neq in E. rewrite IH. intuition.
Qed.

Variable cols : Z.

Let addParticle (g : Grid.t) (ip : nat * Particle.t) : Grid.t :=
  Grid.push (cellKey cols (snd ip)) (fst ip) g.

Lemma fold_cellList items g key :
  cellList key (fold_left addParticle items g) =
    cellList key g
    ++ map fst (filter (fun ip => (cellKey cols (snd ip) =? key)%Z) items).
Proof.
  revert g. induction items as [|ip items IH]; intros g; simpl.
  - rewrite app_nil_r. reflexivity.
  - rewrite IH. unfold addParticle. rewrite cellList_push, <- app_assoc.
    destruct (cellKey cols (snd ip) =? key)%Z; reflexivity.
Qed.

Lemma fold_keys items g k :
  In k (map fst (fold_left addParticle items g)) <->
  In k (map fst g) \/ exists ip, In ip items /\ cellKey cols (snd ip) = k.
Proof.
  revert g. induction items as [|ip items IH]; intros g; simpl.
  - split; [auto|]. intros [H|(? & [] & _)]. exact H.
  - rewrite IH. unfold addParticle. rewrite push_keys. split.
    + intros [[->|H]|(ip' & H & E)]; eauto.
    + intros [H|(ip' & [->|H] & E)]; eauto.
Qed.

Lemma fold_NoDup items g :
  NoDup (map fst g) -> NoDup (map fst (fold_left addParticle items g)).
Proof.
  revert g. induction items as [|ip items IH]; intros g H; simpl; [exact H|].
  apply IH, push_NoDup, H.
Qed.

Lemma In_indexed (ps : list Particle.t) start i p :
  In (i, p) (combine (seq start (List.length ps)) ps) <->
  (start <= i)%nat /\ nth_error ps (i - start) = Some p.
Proof.
  revert start. induction ps as [|q ps IH]; intros start; simpl.
  - split; [tauto|]. intros [_ H]. destruct (i - start)%nat; discriminate.
  - rewrite IH. split.
    + intros [E|[Hle Hn]].
      * inversion E; subst. rewrite Nat.sub_diag. auto.
      * split; [lia|]. replace (i - start)%nat with (S (i - S start)) by lia.
        exact Hn.
    + intros [Hle Hn]. destruct (i - start)%nat as [|k] eqn:E.
      * left. simpl in Hn. inversion Hn. f_equal. lia.
      * right. split; [lia|]. simpl in Hn.
        replace (i - S start)%nat with k by lia. exact Hn.
Qed.

Lemma buildGrid_cellList ps key :
  cellList key (buildGrid cols ps) =
    map fst (filter (fun ip => (cellKey cols (snd ip) =? key)%Z)
                    (combine (seq 0 (List.length ps)) ps)).
Proof. unfold buildGrid. apply (fold_cellList _ [] key). Qed.

Lemma In_cellList ps key i :
  In i (cellList key (buildGrid cols ps)) <->
  exists p, nth_error ps i = Some p /\ cellKey cols p = key.
Proof.
  rewrite buildGrid_cellList, in_map_iff. split.
  - intros ([i' p] & E & H). simpl in E. subst i'.
    apply filter_In in H. destruct H as (H & K). simpl in K.
    apply In_indexed in H. rewrite Nat.sub_0_r in H.
    exists p. split; [tauto|]. apply Z.eqb_eq, K.
  - intros (p & Hn & K). exists (i, p). split; [reflexivity|].
    apply filter_In. split.
    + apply In_indexed. rewrite Nat.sub_0_r. split; [lia|exact Hn].
    + simpl. apply Z.eqb_eq, K.
Qed.

Lemma buildGrid_keys ps k :
  In k (map fst (buildGrid cols ps)) <-> exists p, In p ps /\ cellKey cols p = k.
Proof.
  unfold buildGrid.
  etransitivity; [exact (fold_keys (combine (seq 0 (List.length ps)) ps) [] k)|].
  simpl. split.
  - intros [[]|([i p] & H & E)]. exists p. split; [|exact E].
    eapply in_combine_r, H.
  - intros (p & H & E). right. apply In_nth_error in H. destruct H as (i & H).
    exists (i, p). split; [|exact E].
    apply In_indexed. rewrite Nat.sub_0_r. split; [lia|exact H].
Qed.

Lemma buildGrid_NoDup_keys ps : NoDup (map fst (buildGrid cols ps)).
Proof. unfold buildGrid. apply (fold_NoDup _ []). constructor. Qed.

End GridFacts.

(** ** Iteration order and the pair loops *)

Lemma insert_asc_perm k l : Permutation (Grid.insert_asc k l) (k :: l).
Proof.
  induction l as [|h l IH]; simpl; [reflexivity|].
  destruct (k <=? h)%Z; [reflexivity|].
  rewrite IH. apply perm_swap.
Qed.

Lemma sort_asc_perm l : Permutation (Grid.sort_asc l) l.
Proof.
  induction l as [|h l IH]; simpl; [reflexivity|].
  rewrite insert_asc_perm. constructor. exact IH.
Qed.

Lemma filter_split_perm {A} (f : A -> bool) (l : list A) :
  Permutation (filter f l ++ filter (fun x => negb (f x)) l) l.
Proof.
  induction l as [|a l IH]; simpl; [reflexivity|].
  destruct (f a); simpl.
  - constructor. exact IH.
  - rewrite <- Permutation_middle. constructor. exact IH.
Qed.

Lemma for_in_perm g : Permutation (Grid.for_in g) (map fst g).
Proof.
  unfold Grid.for_in. rewrite sort_asc_perm. apply filter_split_perm.
Qed.

Lemma NoDup_flat_map {A B} (f : A -> list B) (l : list A) :
  NoDup l ->
  (forall x, In x l -> NoDup (f x)) ->
  (forall x y z, In x l -> In y l -> In z (f x) -> In z (f y) -> x = y) ->
  NoDup (flat_map f l).
Proof.
  induction l as [|a l IH]; simpl; intros Hl Hf Hd; [constructor|].
  inversion Hl as [|? ? Hn Hl']; subst.
  apply NoDup_app.
  - apply Hf. auto.
  - apply IH; auto. intros x y z Hx Hy. apply Hd; auto.
  - intros z Hz Hz'. apply in_flat_map in Hz'. destruct Hz' as (y & Hy & Hz').
    assert (a = y) by (apply (Hd a y z); auto). subst. contradiction.
Qed.

Lemma NoDup_map_on {A B} (f : A -> B) (l : list A) :
  (forall x y, In x l -> In y l -> f x = f y -> x = y) ->
  NoDup l -> NoDup (map f l).
Proof.
  intros Hinj. apply NoDup_map_NoDup_ForallPairs.
  intros x y Hx Hy. apply Hinj; assumption.
Qed.

Lemma flat_map_flat_map {A B C} (f : B -> list C) (g : A -> list B) (l : list A) :
  flat_map f (flat_map g l) = flat_map (fun x => flat_map f (g x)) l.
Proof.
  induction l as [|a l IH]; simpl; [reflexivity|].
  rewrite flat_map_app, IH. reflexivity.
Qed.

Lemma flat_map_shift {B} (G : nat -> list B) (n : nat) :
  flat_map G (seq 1 n) = flat_map (fun i => G (S i)) (seq 0 n).
Proof.
  rewrite <- seq_shift. induction (seq 0 n) as [|a l IH]; simpl; [reflexivity|].
  rewrite IH. reflexivity.
Qed.

Lemma cellPairs_same_cons a l :
  cellPairs true (a :: l) (a :: l) = map (pair a) l ++ cellPairs true l l.
Proof.
  unfold cellPairs. cbn [List.length seq flat_map]. f_equal.
  rewrite flat_map_shift. apply flat_map_ext. intros i.
  replace (S i + 1)%nat with (S (i + 1)) by lia. reflexivity.
Qed.

Lemma cellPairs_same l : cellPairs true l l = triPairs l.
Proof.
  induction l as [|a l IH]; [reflexivity|].
  rewrite cellPairs_same_cons, IH. reflexivity.
Qed.

Lemma cellPairs_other_cons a l1 l2 :
  cellPairs false (a :: l1) l2 = map (pair a) l2 ++ cellPairs false l1 l2.
Proof.
  unfold cellPairs. cbn [List.length seq flat_map]. f_equal.
  rewrite flat_map_shift. reflexivity.
Qed.

Lemma In_cellPairs_other l1 l2 a b :
  In (a, b) (cellPairs false l1 l2) <-> In a l1 /\ In b l2.
Proof.
  induction l1 as [|x l1 IH].
  - simpl. tauto.
  - rewrite cellPairs_other_cons, in_app_iff, IH, in_map_iff. simpl. split.
    + intros [(y & E & H)|H]; [inversion E; subst; tauto|tauto].
    + intros [[->|H] Hb]; [left; exists b; tauto|tauto].
Qed.

Lemma NoDup_cellPairs_other l1 l2 :
  NoDup l1 -> NoDup l2 -> NoDup (cellPairs false l1 l2).
Proof.
  intros H1 H2. induction l1 as [|x l1 IH]; [constructor|].
  inversion H1 as [|? ? Hn H1']; subst.
  rewrite cellPairs_other_cons. apply NoDup_app.
  - apply NoDup_map_on; [|exact H2]. intros u v _ _ E. inversion E. reflexivity.
  - apply IH, H1'.
  - intros [a b] Ha Hb. apply in_map_iff in Ha. destruct Ha as (y & E & _).
    inversion E; subst. apply In_cellPairs_other in Hb. tauto.
Qed.

Lemma In_triPairs l a b : In (a, b) (triPairs l) -> In a l /\ In b l.
Proof.
  induction l as [|x l IH]; simpl; [tauto|].
  rewrite in_app_iff, in_map_iff.
  intros [(y & E & H)|H]; [inversion E; subst; tauto|].
  apply IH in H. tauto.
Qed.

Lemma NoDup_triPairs l : NoDup l -> NoDup (triPairs l).
Proof.
  induction l as [|x l IH]; simpl; intros H; [constructor|].
  inversion H as [|? ? Hn H']; subst.
  apply NoDup_app.
  - apply NoDup_map_on; [|exact H']. intros u v _ _ E. inversion E. reflexivity.
  - apply IH, H'.
  - intros [a b] Ha Hb. apply in_map_iff in Ha. destruct Ha as (y & E & _).
    inversion E; subst. apply In_triPairs in Hb. tauto.
Qed.

(** In a strictly ascending list the pairs (earlier, later) are the pairs
    (smaller, larger). *)
Lemma In_triPairs_sorted l a b :
  StronglySorted lt l ->
  (In (a, b) (triPairs l) <-> In a l /\ In b l /\ (a < b)%nat).
Proof.
  induction l as [|x l IH]; simpl; intros Hs; [tauto|].
  inversion Hs as [|? ? Hs' Hall]; subst. rewrite Forall_forall in Hall.
  rewrite in_app_iff, in_map_iff, (IH Hs'). split.
  - intros [(y & E & H)|H].
    + inversion E; subst. specialize (Hall _ H). tauto.
    + tauto.
  - intros ([->|Ha] & [->|Hb] & Hlt).
    + lia.
    + left. exists b. tauto.
    + specialize (Hall _ Ha). lia.
    + tauto.
Qed.

Lemma sorted_NoDup l : StronglySorted lt l -> NoDup l.
Proof.
  induction 1 as [|x l Hs IH Hall]; constructor; [|exact IH].
  rewrite Forall_forall in Hall. intros Hin. specialize (Hall _ Hin). lia.
Qed.

Lemma indexed_filter_sorted (f : nat * Particle.t -> bool) ps start :
  StronglySorted lt
    (map fst (filter f (combine (seq start (List.length ps)) ps))).
Proof.
  revert start. induction ps as [|p ps IH]; intros start; simpl; [constructor|].
  assert (Hall : Forall (lt start)
            (map fst (filter f (combine (seq (S start) (List.length ps)) ps)))).
  { apply Forall_forall. intros i Hi. apply in_map_iff in Hi.
    destruct Hi as ([i' q] & E & Hi). simpl in E. subst i'.
    apply filter_In in Hi. destruct Hi as (Hi & _).
    apply In_indexed in Hi. lia. }
  destruct (f (start, p)); simpl; [constructor; [apply IH|exact Hall]|apply IH].
Qed.

Lemma cellList_sorted cols ps key :
  StronglySorted lt (cellList key (buildGrid cols ps)).
Proof. rewrite buildGrid_cellList. apply indexed_filter_sorted. Qed.

(** ** Cells of particles inside the canvas *)

Lemma floor_cell_range (v hi : R) :
  0 <= v <= hi ->
  (0 <= Zfloor (v / cellSize) < Zceil (hi / cellSize) + 1)%Z.
Proof.
  intros [H0 H1]. unfold cellSize, CONFIG.connectionDistance.
  split.
  - apply Zfloor_lub. simpl. lra.
  - pose proof (Zfloor_bound (v / 120)) as [F _].
    pose proof (Zceil_bound (hi / 120)) as [_ C].
    assert (IZR (Zfloor (v / 120)) <= IZR (Zceil (hi / 120))) by lra.
    apply le_IZR in H. lia.
Qed.

Lemma cell_bounds canvas p :
  inBounds canvas p ->
  (0 <= cellCol p < gridCols canvas)%Z /\ (0 <= cellRow p < gridRows canvas)%Z.
Proof.
  intros [Hx Hy]. unfold cellCol, cellRow, gridCols, gridRows, JS.Math_floor, JS.Math_ceil.
  split; apply floor_cell_range; assumption.
Qed.

Lemma key_decode (cols r c : Z) :
  (0 <= c < cols)%Z -> (0 <= r)%Z ->
  JS.Math_floor (IZR (r * cols + c) / IZR cols) = r
  /\ Z.rem (r * cols + c) cols = c.
Proof.
  intros Hc Hr. unfold JS.Math_floor. split.
  - rewrite Zfloor_div by lia.
    rewrite Z.div_add_l by lia. rewrite Z.div_small by lia. lia.
  - rewrite Z.rem_mod_nonneg by nia.
    rewrite Z.add_comm, Z.mod_add by lia. apply Z.mod_small. lia.
Qed.

Lemma key_inj (cols r1 c1 r2 c2 : Z) :
  (0 <= c1 < cols)%Z -> (0 <= c2 < cols)%Z ->
  (r1 * cols + c1 = r2 * cols + c2)%Z -> r1 = r2 /\ c1 = c2.
Proof.
  intros H1 H2 E.
  assert (r1 = r2) by nia. subst. lia.
Qed.

Lemma floor_close (u v : R) :
  -1 < u - v < 1 -> (-1 <= Zfloor u - Zfloor v <= 1)%Z.
Proof.
  intros H.
  pose proof (Zfloor_bound u) as [U0 U1].
  pose proof (Zfloor_bound v) as [V0 V1].
  assert (A : IZR (Zfloor u) < IZR (Zfloor v + 2)) by (rewrite plus_IZR; lra).
  assert (B : IZR (Zfloor v) < IZR (Zfloor u + 2)) by (rewrite plus_IZR; lra).
  apply lt_IZR in A. apply lt_IZR in B. lia.
Qed.

Lemma close_cells p q :
  distSq p q < maxDistSq ->
  (-1 <= cellRow q - cellRow p <= 1)%Z /\ (-1 <= cellCol q - cellCol p <= 1)%Z.
Proof.
  unfold distSq, maxDistSq, cellRow, cellCol, cellSize, JS.Math_floor,
    CONFIG.connectionDistance.
  intros H.
  assert (Sq : forall a b, a * a + b * b < 120 * 120 -> -120 < a < 120).
  { intros a b Hab. split; apply Rnot_le_lt; intros Hle; nra. }
  assert (Hx : -120 < Particle.x p - Particle.x q < 120) by (eapply Sq, H).
  assert (Hy : -120 < Particle.y p - Particle.y q < 120).
  { apply (Sq _ (Particle.x p - Particle.x q)). lra. }
  split; apply floor_close; lra.
Qed.

Lemma distSq_sym p q : distSq p q = distSq q p.
Proof. unfold distSq. ring. Qed.

Lemma distSq_nonneg p q : 0 <= distSq p q.
Proof.
  unfold distSq. cbv zeta.
  pose proof (Rle_0_sqr (Particle.x p - Particle.x q)).
  pose proof (Rle_0_sqr (Particle.y p - Particle.y q)).
  unfold Rsqr in *. lra.
Qed.

(** The squared test of [connectParticles] is the distance test. *)
Lemma close_sqrt p q :
  distSq p q < maxDistSq <-> sqrt (distSq p q) < CONFIG.connectionDistance.
Proof.
  unfold maxDistSq, CONFIG.connectionDistance.
  pose proof (distSq_nonneg p q) as N.
  pose proof (sqrt_pos (distSq p q)) as S0.
  pose proof (sqrt_sqrt _ N) as S1.
  split; intros H.
  - apply Rnot_le_lt. intros Hle.
    assert (120 * 120 <= sqrt (distSq p q) * sqrt (distSq p q)) by nra. lra.
  - rewrite <- S1.
    assert (sqrt (distSq p q) * sqrt (distSq p q) <= sqrt (distSq p q) * 120) by nra.
    nra.
Qed.

Lemma closeb_true ps a b :
  closeb ps (a, b) = true <->
  exists p q, nth_error ps a = Some p /\ nth_error ps b = Some q
              /\ distSq p q < maxDistSq.
Proof.
  unfold closeb. simpl.
  destruct (nth_error ps a) as [p|]; [destruct (nth_error ps b) as [q|]|].
  - rewrite ltb_true. split.
    + intros H. exists p, q. auto.
    + intros (p' & q' & E1 & E2 & H). inversion E1; inversion E2; subst. exact H.
  - split; [discriminate|]. intros (? & ? & _ & E & _). discriminate.
  - split; [discriminate|]. intros (? & ? & E & _). discriminate.
Qed.

(** ** The candidate pairs of the line pass *)

Section Candidates.

Variable canvas : Canvas.
Variable ps : list Particle.t.
Hypothesis inside : Forall (inBounds canvas) ps.

Let cols := gridCols canvas.
Let rows := gridRows canvas.
Let grid := buildGrid cols ps.

Lemma nth_inside i p : nth_error ps i = Some p -> inBounds canvas p.
Proof.
  intros H. rewrite Forall_forall in inside. eapply inside, nth_error_In, H.
Qed.

Lemma same_key_same_cell p q :
  inBounds canvas p -> inBounds canvas q ->
  (cellKey cols p = cellKey cols q
   <-> cellRow p = cellRow q /\ cellCol p = cellCol q).
Proof.
  intros Hp Hq. unfold cellKey. split.
  - apply key_inj; [apply (cell_bounds canvas p Hp) | apply (cell_bounds canvas q Hq)].
  - intros [-> ->]. reflexivity.
Qed.

Lemma In_neighborCandidates p0 d a b :
  inBounds canvas p0 ->
  (In (a, b) (neighborCandidates cols rows grid (cellKey cols p0) d) <->
   exists p q,
     nth_error ps a = Some p /\ nth_error ps b = Some q
     /\ cellRow p = cellRow p0 /\ cellCol p = cellCol p0
     /\ cellRow q = (cellRow p0 + fst d)%Z /\ cellCol q = (cellCol p0 + snd d)%Z
     /\ (d = (0, 0)%Z -> (a < b)%nat)).
Proof.
  intros H0. destruct (cell_bounds canvas p0 H0) as (C0 & R0).
  fold cols in C0. fold rows in R0.
  unfold neighborCandidates, grid.
  destruct (key_decode cols (cellRow p0) (cellCol p0) C0 ltac:(lia)) as (Er & Ec).
  fold (cellKey cols p0) in Er, Ec. rewrite Er, Ec.
  destruct d as [dr dc]. cbn [fst snd].
  set (nr := (cellRow p0 + dr)%Z). set (nc := (cellCol p0 + dc)%Z).
  destruct ((nr <? 0)%Z || (rows <=? nr)%Z || (nc <? 0)%Z || (cols <=? nc)%Z) eqn:Chk.
  - (* the neighbor cell is outside the grid: no particle is in it *)
    split; [intros []|]. intros (p & q & _ & Hq & _ & _ & Eqr & Eqc & _).
    destruct (cell_bounds canvas q (nth_inside _ _ Hq)) as (Cq & Rq).
    fold cols in Cq. fold rows in Rq. fold nr in Eqr. fold nc in Eqc.
    rewrite !orb_true_iff in Chk.
    rewrite !Z.ltb_lt, !Z.leb_le in Chk. lia.
  - rewrite !orb_false_iff in Chk. rewrite !Z.ltb_ge, !Z.leb_gt in Chk.
    assert (Key : forall i k,
               In i (cellList k (buildGrid cols ps)) <->
               exists p, nth_error ps i = Some p /\ cellKey cols p = k)
      by (intros; apply In_cellList).
    assert (Cell : forall q r c, inBounds canvas q -> (0 <= c < cols)%Z ->
               (cellKey cols q = (r * cols + c)%Z <-> cellRow q = r /\ cellCol q = c)).
    { intros q r c Hq Hc. unfold cellKey. split.
      - apply key_inj; [apply (cell_bounds canvas q Hq)|exact Hc].
      - intros [-> ->]. reflexivity. }
    destruct ((dr =? 0)%Z && (dc =? 0)%Z) eqn:Same.
    + apply andb_true_iff in Same. rewrite !Z.eqb_eq in Same.
      destruct Same; subst dr dc.
      replace (nr * cols + nc)%Z with (cellKey cols p0)
        by (unfold cellKey, nr, nc; lia).
      rewrite cellPairs_same, (In_triPairs_sorted _ _ _ (cellList_sorted _ _ _)).
      rewrite !Key. unfold nr, nc. split.
      * intros ((p & Hp & Kp) & (q & Hq & Kq) & Hlt).
        apply (same_key_same_cell p p0 (nth_inside _ _ Hp) H0) in Kp.
        apply (same_key_same_cell q p0 (nth_inside _ _ Hq) H0) in Kq.
        exists p, q. repeat split; try tauto; lia.
      * intros (p & q & Hp & Hq & E1 & E2 & E3 & E4 & Hlt).
        split; [|split; [|auto]].
        -- exists p. split; [exact Hp|].
           apply (same_key_same_cell p p0 (nth_inside _ _ Hp) H0). tauto.
        -- exists q. split; [exact Hq|].
           apply (same_key_same_cell q p0 (nth_inside _ _ Hq) H0). split; lia.
    + rewrite In_cellPairs_other, !Key. split.
      * intros ((p & Hp & Kp) & (q & Hq & Kq)).
        apply (same_key_same_cell p p0 (nth_inside _ _ Hp) H0) in Kp.
        apply (Cell q nr nc (nth_inside _ _ Hq)) in Kq; [|lia].
        exists p, q. repeat split; try tauto.
        intros E. inversion E; subst. rewrite !Z.eqb_refl in Same. discriminate.
      * intros (p & q & Hp & Hq & E1 & E2 & E3 & E4 & _). split.
        -- exists p. split; [exact Hp|].
           apply (same_key_same_cell p p0 (nth_inside _ _ Hp) H0). tauto.
        -- exists q. split; [exact Hq|].
           apply (Cell q nr nc (nth_inside _ _ Hq)); [lia|tauto].
Qed.

Lemma NoDup_cellList k : NoDup (cellList k grid).
Proof. apply sorted_NoDup, cellList_sorted. Qed.

Lemma NoDup_neighborCandidates p0 d :
  inBounds canvas p0 ->
  NoDup (neighborCandidates cols rows grid (cellKey cols p0) d).
Proof.
  intros H0. destruct (cell_bounds canvas p0 H0) as (C0 & R0).
  fold cols in C0. unfold neighborCandidates.
  destruct (key_decode cols (cellRow p0) (cellCol p0) C0 ltac:(lia)) as (Er & Ec).
  fold (cellKey cols p0) in Er, Ec. rewrite Er, Ec.
  destruct (_ || _ || _ || _); [constructor|].
  destruct ((fst d =? 0)%Z && (snd d =? 0)%Z) eqn:Same.
  - apply andb_true_iff in Same. rewrite !Z.eqb_eq in Same.
    destruct Same as [-> ->].
    replace ((cellRow p0 + 0) * cols + (cellCol p0 + 0))%Z with (cellKey cols p0)
      by (unfold cellKey; lia).
    rewrite cellPairs_same. apply NoDup_triPairs, NoDup_cellList.
  - apply NoDup_cellPairs_other; apply NoDup_cellList.
Qed.

Lemma NoDup_neighbors : NoDup neighbors.
Proof.
  unfold neighbors. repeat constructor; simpl; intuition congruence.
Qed.

Lemma for_in_key k :
  In k (Grid.for_in grid) <-> exists p, In p ps /\ cellKey cols p = k.
Proof.
  rewrite <- (buildGrid_keys cols ps k). fold grid. split; apply Permutation_in.
  - apply for_in_perm.
  - symmetry. apply for_in_perm.
Qed.

Lemma NoDup_for_in : NoDup (Grid.for_in grid).
Proof.
  eapply Permutation_NoDup; [symmetry; apply for_in_perm|].
  apply buildGrid_NoDup_keys.
Qed.

End Candidates.

Lemma In_candidatePairs canvas ps a b :
  Forall (inBounds canvas) ps ->
  (In (a, b) (candidatePairs canvas ps) <->
   exists p q,
     nth_error ps a = Some p /\ nth_error ps b = Some q
     /\ In ((cellRow q - cellRow p)%Z, (cellCol q - cellCol p)%Z) neighbors
     /\ (cellRow q = cellRow p -> cellCol q = cellCol p -> (a < b)%nat)).
Proof.
  intros inside. unfold candidatePairs. rewrite in_flat_map. split.
  - intros (key & Hkey & H). apply in_flat_map in H. destruct H as (d & Hd & H).
    apply (for_in_key canvas ps) in Hkey. destruct Hkey as (p0 & Hp0 & <-).
    assert (H0 : inBounds canvas p0) by (rewrite Forall_forall in inside; auto).
    apply (In_neighborCandidates canvas ps inside p0 d a b H0) in H.
    destruct H as (p & q & Hp & Hq & E1 & E2 & E3 & E4 & Hlt).
    exists p, q. split; [exact Hp|]. split; [exact Hq|].
    destruct d as [dr dc]. simpl in E3, E4.
    replace (cellRow q - cellRow p)%Z with dr by lia.
    replace (cellCol q - cellCol p)%Z with dc by lia.
    split; [exact Hd|]. intros Er Ec. apply Hlt. f_equal; lia.
  - intros (p & q & Hp & Hq & Hd & Hlt).
    assert (H0 : inBounds canvas p) by (eapply nth_inside; eassumption).
    exists (cellKey (gridCols canvas) p). split.
    + apply (for_in_key canvas ps). exists p. split; [|reflexivity].
      eapply nth_error_In, Hp.
    + apply in_flat_map.
      exists ((cellRow q - cellRow p)%Z, (cellCol q - cellCol p)%Z).
      split; [exact Hd|].
      apply (In_neighborCandidates canvas ps inside p _ a b H0).
      exists p, q. simpl. repeat split; try assumption; try lia.
      intros E. inversion E. apply Hlt; lia.
Qed.

Lemma candidates_antisym canvas ps a b :
  Forall (inBounds canvas) ps ->
  In (a, b) (candidatePairs canvas ps) -> In (b, a) (candidatePairs canvas ps) -> False.
Proof.
  intros inside H1 H2.
  apply (In_candidatePairs canvas ps a b inside) in H1.
  apply (In_candidatePairs canvas ps b a inside) in H2.
  destruct H1 as (p & q & Hp & Hq & Hd & Hlt).
  destruct H2 as (q' & p' & Hq' & Hp' & Hd' & Hlt').
  rewrite Hq in Hq'. rewrite Hp in Hp'. inversion Hq'; inversion Hp'; subst q' p'.
  unfold neighbors in Hd, Hd'. simpl in Hd, Hd'.
  assert (Er : cellRow q = cellRow p).
  { repeat (destruct Hd as [Hd|Hd]; [inversion Hd|]); try contradiction;
      repeat (destruct Hd' as [Hd'|Hd']; [inversion Hd'|]); try contradiction; lia. }
  assert (Ec : cellCol q = cellCol p).
  { repeat (destruct Hd as [Hd|Hd]; [inversion Hd|]); try contradiction;
      repeat (destruct Hd' as [Hd'|Hd']; [inversion Hd'|]); try contradiction; lia. }
  specialize (Hlt Er Ec). specialize (Hlt' (eq_sym Er) (eq_sym Ec)). lia.
Qed.

Lemma NoDup_candidatePairs canvas ps :
  Forall (inBounds canvas) ps -> NoDup (candidatePairs canvas ps).
Proof.
  intros inside. unfold candidatePairs.
  assert (Key : forall key, In key (Grid.for_in (buildGrid (gridCols canvas) ps)) ->
            exists p0, inBounds canvas p0 /\ key = cellKey (gridCols canvas) p0).
  { intros key Hkey. apply (for_in_key canvas ps) in Hkey.
    destruct Hkey as (p0 & Hp0 & <-). exists p0. split; [|reflexivity].
    rewrite Forall_forall in inside. auto. }
  apply NoDup_flat_map.
  - apply NoDup_for_in.
  - intros key Hkey. destruct (Key key Hkey) as (p0 & H0 & ->).
    apply NoDup_flat_map.
    + apply NoDup_neighbors.
    + intros d _. apply NoDup_neighborCandidates; assumption.
    + intros d1 d2 [a b] _ _ H1 H2.
      apply (In_neighborCandidates canvas ps inside p0 d1 a b H0) in H1.
      apply (In_neighborCandidates canvas ps inside p0 d2 a b H0) in H2.
      destruct H1 as (p & q & Hp & Hq & _ & _ & E3 & E4 & _).
      destruct H2 as (p' & q' & Hp' & Hq' & _ & _ & E3' & E4' & _).
      rewrite Hq in Hq'. inversion Hq'; subst q'.
      destruct d1, d2; simpl in *. f_equal; lia.
  - intros k1 k2 [a b] Hk1 Hk2 H1 H2.
    destruct (Key k1 Hk1) as (p1 & I1 & ->). destruct (Key k2 Hk2) as (p2 & I2 & ->).
    apply in_flat_map in H1. destruct H1 as (d1 & _ & H1).
    apply in_flat_map in H2. destruct H2 as (d2 & _ & H2).
    apply (In_neighborCandidates canvas ps inside p1 d1 a b I1) in H1.
    apply (In_neighborCandidates canvas ps inside p2 d2 a b I2) in H2.
    destruct H1 as (p & _ & Hp & _ & E1 & E2 & _).
    destruct H2 as (p' & _ & Hp' & _ & E1' & E2' & _).
    rewrite Hp in Hp'. inversion Hp'; subst p'.
    unfold cellKey. rewrite <- E1, <- E2, E1', E2'. reflexivity.
Qed.

Lemma cellPairs_nil_r same l : cellPairs same l [] = [].
Proof.
  unfold cellPairs. induction (seq 0 (List.length l)) as [|i s IH]; simpl.
  - reflexivity.
  - rewrite IH. destruct same; simpl; [|reflexivity].
    rewrite skipn_nil. reflexivity.
Qed.

Lemma flat_map_nil {A B} (f : A -> list B) (l : list A) :
  (forall x, In x l -> f x = []) -> flat_map f l = [].
Proof.
  induction l as [|a l IH]; simpl; intros H; [reflexivity|].
  rewrite (H a), IH by auto. reflexivity.
Qed.

(** The line pass is the distance test run over the candidate pairs. *)
Lemma connectParticles_candidates canvas ps :
  connectParticles canvas ps = flat_map (connectPair ps) (candidatePairs canvas ps).
Proof.
  unfold connectParticles, candidatePairs. rewrite flat_map_flat_map.
  apply flat_map_ext. intros key. unfold connectCell.
  rewrite flat_map_flat_map.
  destruct (Grid.get key (buildGrid (gridCols canvas) ps)) as [l|] eqn:E.
  - apply flat_map_ext. intros [dr dc].
    unfold neighborCandidates, cellList. rewrite E. cbn [fst snd]. clear E.
    match goal with |- context [if ?c then [] else _] => destruct c end;
      [reflexivity|].
    match goal with |- context [Grid.get ?k ?g] => destruct (Grid.get k g) end;
      [reflexivity|].
    rewrite cellPairs_nil_r. reflexivity.
  - symmetry. apply flat_map_nil. intros d _.
    unfold neighborCandidates, cellList. rewrite E.
    destruct (_ || _ || _ || _); reflexivity.
Qed.

(** ** The strokes *)

Lemma In_connectPair ps ab s :
  In s (connectPair ps ab) <->
  exists p q,
    nth_error ps (fst ab) = Some p /\ nth_error ps (snd ab) = Some q
    /\ distSq p q < maxDistSq
    /\ s = {| stroke_from := fst ab; stroke_to := snd ab;
              stroke_alpha := 1 - sqrt (distSq p q) / CONFIG.connectionDistance |}.
Proof.
  unfold connectPair, JS.Math_sqrt.
  destruct (nth_error ps (fst ab)) as [p|]; [destruct (nth_error ps (snd ab)) as [q|]|].
  - destruct (JS.ltb (distSq p q) maxDistSq) eqn:E.
    + apply ltb_true in E. simpl. split.
      * intros [<-|[]]. exists p, q. auto.
      * intros (p' & q' & E1 & E2 & _ & ->). inversion E1; inversion E2; subst. auto.
    + apply ltb_false in E. simpl. split; [tauto|].
      intros (p' & q' & E1 & E2 & H & _). inversion E1; inversion E2; subst. lra.
  - simpl. split; [tauto|]. intros (? & ? & _ & E & _). discriminate.
  - simpl. split; [tauto|]. intros (? & ? & E & _). discriminate.
Qed.

Lemma connectPair_pairs ps ab :
  map (fun s => (stroke_from s, stroke_to s)) (connectPair ps ab)
  = if closeb ps ab then [ab] else [].
Proof.
  unfold connectPair, closeb. destruct ab as [a b]. simpl.
  destruct (nth_error ps a); [destruct (nth_error ps b)|]; try reflexivity.
  destruct (JS.ltb _ _); reflexivity.
Qed.

Lemma strokes_pairs ps (cands : list (nat * nat)) :
  map (fun s => (stroke_from s, stroke_to s)) (flat_map (connectPair ps) cands)
  = filter (closeb ps) cands.
Proof.
  induction cands as [|ab cands IH]; simpl; [reflexivity|].
  rewrite map_app, IH, connectPair_pairs.
  destruct (closeb ps ab); reflexivity.
Qed.

Lemma strokePair_unordered (l : list Stroke) :
  map strokePair l = map unordered (map (fun s => (stroke_from s, stroke_to s)) l).
Proof. rewrite map_map. reflexivity. Qed.

Lemma unordered_eq a b c d :
  unordered (a, b) = unordered (c, d) -> (a, b) = (c, d) \/ (a, b) = (d, c).
Proof.
  unfold unordered. simpl. intros E. inversion E.
  assert (a = c /\ b = d \/ a = d /\ b = c) as [[-> ->]|[-> ->]] by lia; auto.
Qed.

Lemma In_bruteForcePairs ps i j :
  In (i, j) (bruteForcePairs ps) <->
  (i < j)%nat
  /\ exists p q, nth_error ps i = Some p /\ nth_error ps j = Some q
                 /\ sqrt (distSq p q) < CONFIG.connectionDistance.
Proof.
  unfold bruteForcePairs, JS.Math_sqrt. rewrite in_flat_map. split.
  - intros (i' & Hi' & H). apply in_flat_map in H. destruct H as (j' & Hj' & H).
    apply in_seq in Hj'.
    destruct (nth_error ps i') as [p|] eqn:Ep; [|contradiction].
    destruct (nth_error ps j') as [q|] eqn:Eq; [|contradiction].
    destruct (JS.ltb _ _) eqn:E; [|contradiction].
    destruct H as [H|[]]. inversion H; subst. apply ltb_true in E.
    split; [lia|]. exists p, q. auto.
  - intros (Hlt & p & q & Hp & Hq & H).
    assert (Hj : (j < List.length ps)%nat) by (apply nth_error_Some; congruence).
    exists i. split; [apply in_seq; lia|].
    apply in_flat_map. exists j. split; [apply in_seq; lia|].
    rewrite Hp, Hq. apply ltb_true in H. rewrite H. left. reflexivity.
Qed.

Lemma NoDup_bruteForcePairs ps : NoDup (bruteForcePairs ps).
Proof.
  unfold bruteForcePairs. apply NoDup_flat_map.
  - apply seq_NoDup.
  - intros i _. apply NoDup_flat_map.
    + apply seq_NoDup.
    + intros j _. destruct (nth_error ps i); [|constructor].
      destruct (nth_error ps j); [|constructor].
      destruct (JS.ltb _ _); repeat constructor. simpl. tauto.
    + intros j1 j2 z _ _ H1 H2.
      destruct (nth_error ps i); [|contradiction].
      destruct (nth_error ps j1); [|contradiction].
      destruct (nth_error ps j2); [|contradiction].
      destruct (JS.ltb _ _); [|contradiction].
      destruct (JS.ltb _ _); [|contradiction].
      destruct H1 as [<-|[]]. destruct H2 as [H2|[]]. inversion H2. reflexivity.
  - intros i1 i2 z _ _ H1 H2.
    apply in_flat_map in H1. destruct H1 as (j1 & _ & H1).
    apply in_flat_map in H2. destruct H2 as (j2 & _ & H2).
    destruct (nth_error ps i1); [|contradiction].
    destruct (nth_error ps j1); [|contradiction].
    destruct (nth_error ps i2); [|contradiction].
    destruct (nth_error ps j2); [|contradiction].
    destruct (JS.ltb _ _); [|contradiction].
    destruct (JS.ltb _ _); [|contradiction].
    destruct H1 as [<-|[]]. destruct H2 as [H2|[]]. inversion H2. reflexivity.
Qed.

(** Two particles closer than the connection distance are a candidate
    pair, in one order or the other. *)
Lemma close_candidates canvas ps i j p q :
  Forall (inBounds canvas) ps ->
  (i < j)%nat -> nth_error ps i = Some p -> nth_error ps j = Some q ->
  distSq p q < maxDistSq ->
  In (i, j) (candidatePairs canvas ps) \/ In (j, i) (candidatePairs canvas ps).
Proof.
  intros inside Hlt Hp Hq H.
  destruct (close_cells p q H) as (Hr & Hc).
  set (dr := (cellRow q - cellRow p)%Z) in *.
  set (dc := (cellCol q - cellCol p)%Z) in *.
  assert (Fwd : In (dr, dc) neighbors -> In (i, j) (candidatePairs canvas ps)).
  { intros Hd. apply In_candidatePairs; [exact inside|].
    exists p, q. repeat split; auto. }
  assert (Bwd : In ((- dr)%Z, (- dc)%Z) neighbors -> (dr, dc) <> (0, 0)%Z ->
                In (j, i) (candidatePairs canvas ps)).
  { intros Hd Hne. apply In_candidatePairs; [exact inside|].
    exists q, p. repeat split; auto.
    - replace (cellRow p - cellRow q)%Z with (- dr)%Z by (unfold dr; lia).
      replace (cellCol p - cellCol q)%Z with (- dc)%Z by (unfold dc; lia).
      exact Hd.
    - intros Er Ec. exfalso. apply Hne. unfold dr, dc. f_equal; lia. }
  assert (Cases : (dr = -1 \/ dr = 0 \/ dr = 1)%Z /\ (dc = -1 \/ dc = 0 \/ dc = 1)%Z)
    by lia.
  unfold neighbors in Fwd, Bwd. simpl in Fwd, Bwd.
  destruct Cases as ([Er|[Er|Er]] & [Ec|[Ec|Ec]]); rewrite Er, Ec in *;
    first [ left; apply Fwd; tauto
          | right; apply Bwd; [simpl; tauto | intros X; inversion X] ].
Qed.

(** The line pass paints, once each, the pairs of the brute-force check. *)
Lemma connectParticles_perm canvas ps :
  Forall (inBounds canvas) ps ->
  Permutation (map strokePair (connectParticles canvas ps)) (bruteForcePairs ps).
Proof.
  intros inside.
  rewrite connectParticles_candidates, strokePair_unordered, strokes_pairs.
  pose proof (NoDup_candidatePairs canvas ps inside) as ND.
  apply NoDup_Permutation.
  - apply NoDup_map_on; [|apply NoDup_filter, ND].
    intros [a b] [c d] Hab Hcd E.
    apply filter_In in Hab. apply filter_In in Hcd.
    destruct (unordered_eq _ _ _ _ E) as [E'|E']; [exact E'|].
    inversion E'; subst. exfalso.
    apply (candidates_antisym canvas ps d c inside); tauto.
  - apply NoDup_bruteForcePairs.
  - intros [i j]. rewrite In_bruteForcePairs, in_map_iff. split.
    + intros ([a b] & E & H). apply filter_In in H. destruct H as (Hc & Hcl).
      apply closeb_true in Hcl. destruct Hcl as (p & q & Hp & Hq & Hd).
      assert (Hne : a <> b).
      { intros ->. apply (candidates_antisym canvas ps b b inside); exact Hc. }
      unfold unordered in E. simpl in E. inversion E; subst.
      split; [lia|].
      destruct (Nat.lt_ge_cases a b) as [L|L].
      * rewrite Nat.min_l, Nat.max_r by lia. exists p, q.
        split; [exact Hp|]. split; [exact Hq|]. apply close_sqrt, Hd.
      * rewrite Nat.min_r, Nat.max_l by lia. exists q, p.
        split; [exact Hq|]. split; [exact Hp|].
        rewrite distSq_sym. apply close_sqrt, Hd.
    + intros (Hlt & p & q & Hp & Hq & Hd). apply close_sqrt in Hd.
      destruct (close_candidates canvas ps i j p q inside Hlt Hp Hq Hd) as [H|H].
      * exists (i, j). split.
        -- unfold unordered. simpl. rewrite Nat.min_l, Nat.max_r by lia. reflexivity.
        -- apply filter_In. split; [exact H|]. apply closeb_true. exists p, q. auto.
      * exists (j, i). split.
        -- unfold unordered. simpl. rewrite Nat.min_r, Nat.max_l by lia. reflexivity.
        -- apply filter_In. split; [exact H|]. apply closeb_true. exists q, p.
           rewrite distSq_sym. auto.
Qed.

Lemma get_cellList key g i :
  (exists l, Grid.get key g = Some l /\ In i l) <-> In i (cellList key g).
Proof.
  unfold cellList. destruct (Grid.get key g) as [l|].
  - split; [intros (l' & E & H); inversion E; subst; exact H | eauto].
  - split; [intros (l' & E & _); discriminate | intros []].
Qed.

Lemma animate_lines st :
  hidden st = false ->
  lines (snd (animate st))
  = connectParticles (canvas st) (map snd (particles (fst (animate st)))).
Proof. intros Hh. unfold animate. rewrite Hh. reflexivity. Qed.

(** C1.  For particles inside the canvas, as they all are when the line
    pass runs, the unordered pairs joined by the strokes of
    [connectParticles] are, up to the order of painting, exactly the pairs
    [i < j] that the brute-force check finds closer than the connection
    distance, and no unordered pair is painted twice; indeed no unordered
    pair is submitted to the distance test twice by the loops over cells
    and neighbors.  In particular the equivalence holds for the lines of
    every frame [animate] draws. *)
Theorem spatial_hash_matches_brute_force (canvas : Canvas) (ps : list Particle.t) :
  Forall (inBounds canvas) ps ->
  Permutation (map strokePair (connectParticles canvas ps)) (bruteForcePairs ps)
  /\ NoDup (map strokePair (connectParticles canvas ps))
  /\ NoDup (map unordered (candidatePairs canvas ps))
  /\ connectParticles canvas ps = flat_map (connectPair ps) (candidatePairs canvas ps)
  /\ (forall i j,
        In (i, j) (bruteForcePairs ps) <->
        (i < j)%nat
        /\ exists p q, nth_error ps i = Some p /\ nth_error ps j = Some q
                       /\ sqrt (distSq p q) < CONFIG.connectionDistance)
  /\ (forall st : State,
        hidden st = false ->
        Permutation (map strokePair (lines (snd (animate st))))
                    (bruteForcePairs (map snd (particles (fst (animate st)))))).
Proof.
  intros inside.
  pose proof (connectParticles_perm canvas ps inside) as P.
  split; [exact P|]. split; [|split; [|split; [|split]]].
  - eapply Permutation_NoDup; [symmetry; exact P|apply NoDup_bruteForcePairs].
  - apply NoDup_map_on; [|apply NoDup_candidatePairs, inside].
    intros [a b] [c d] Hab Hcd E.
    destruct (unordered_eq _ _ _ _ E) as [E'|E']; [exact E'|].
    inversion E'; subst. exfalso.
    apply (candidates_antisym canvas ps d c inside); assumption.
  - apply connectParticles_candidates.
  - intros i j. apply In_bruteForcePairs.
  - intros st Hh. rewrite (animate_lines st Hh).
    apply connectParticles_perm, animate_inBounds, Hh.
Qed.

(** Two particles 50 pixels apart on an 800 x 600 canvas. *)
Lemma spatial_hash_matches_brute_force_witness :
  Permutation
    (map strokePair
       (connectParticles (mkCanvas 800 600) [particleAt 100 100; particleAt 150 100]))
    (bruteForcePairs [particleAt 100 100; particleAt 150 100]).
Proof.
  apply (spatial_hash_matches_brute_force (mkCanvas 800 600)
           [particleAt 100 100; particleAt 150 100]).
  repeat constructor; simpl; lra.
Defined.

(** C6.  The grid of a frame lists every particle index in exactly one
    cell, once: the index is in the array stored under a key exactly when
    the key is [floor(y / cellSize) * cols + floor(x / cellSize)] for the
    particle's position; no key occurs twice in the grid; and, the
    particles being inside the canvas, two of them get the same key only
    when they have the same row and the same column. *)
Theorem grid_partitions_particles (canvas : Canvas) (ps : list Particle.t) :
  Forall (inBounds canvas) ps ->
  let cols := gridCols canvas in
  let grid := buildGrid cols ps in
  (forall idx p, nth_error ps idx = Some p ->
     cellKey cols p
     = (Zfloor (Particle.y p / cellSize) * cols + Zfloor (Particle.x p / cellSize))%Z
     /\ (forall key,
           (exists l, Grid.get key grid = Some l /\ In idx l) <-> key = cellKey cols p))
  /\ (forall key l, Grid.get key grid = Some l ->
        NoDup l /\ forall idx, In idx l -> (idx < List.length ps)%nat)
  /\ NoDup (map fst grid)
  /\ (forall p q, In p ps -> In q ps ->
        (0 <= cellCol p < cols)%Z /\ (0 <= cellRow p < gridRows canvas)%Z
        /\ (cellKey cols p = cellKey cols q
            <-> cellRow p = cellRow q /\ cellCol p = cellCol q)).
Proof.
  intros inside cols grid. split; [|split; [|split]].
  - intros idx p Hp. split; [reflexivity|].
    intros key. unfold grid. rewrite get_cellList, In_cellList. split.
    + intros (p' & Hp' & <-). congruence.
    + intros ->. exists p. auto.
  - intros key l Hl.
    assert (E : l = cellList key grid) by (unfold cellList; rewrite Hl; reflexivity).
    subst l. split.
    + apply sorted_NoDup, cellList_sorted.
    + intros idx Hi. apply In_cellList in Hi. destruct Hi as (p & Hp & _).
      apply nth_error_Some. congruence.
  - apply buildGrid_NoDup_keys.
  - intros p q Hp Hq. rewrite Forall_forall in inside.
    destruct (cell_bounds canvas p (inside p Hp)) as (C & R).
    split; [exact C|]. split; [exact R|].
    apply (same_key_same_cell canvas); auto.
Qed.

(** The two particles of the example fall into the cells with keys 0 and 1. *)
Lemma grid_partitions_particles_witness :
  NoDup (map fst (buildGrid (gridCols (mkCanvas 800 600))
                    [particleAt 100 100; particleAt 150 100])).
Proof.
  pose proof (grid_partitions_particles (mkCanvas 800 600)
                [particleAt 100 100; particleAt 150 100]) as T.
  assert (I : Forall (inBounds (mkCanvas 800 600))
                [particleAt 100 100; particleAt 150 100])
    by (repeat constructor; simpl; lra).
  destruct (T I) as (_ & _ & N & _). exact N.
Defined.

Lemma strokePair_cases s i j :
  strokePair s = (i, j) -> (i < j)%nat ->
  (stroke_from s = i /\ stroke_to s = j) \/ (stroke_from s = j /\ stroke_to s = i).
Proof.
  unfold strokePair. intros E Hlt. inversion E. lia.
Qed.

(** C9.  Every stroke of the line pass joins two particles at a distance
    [d] below the connection distance [T = 120] and has opacity
    [1 - d / T].  For particles inside the canvas, a pair at distance
    [d < T] gets such a stroke, every stroke for the pair has that opacity,
    and a pair at distance [d >= T] gets none. *)
Theorem connection_opacity (canvas : Canvas) (ps : list Particle.t) :
  Forall (inBounds canvas) ps ->
  let T := CONFIG.connectionDistance in
  let strokes := connectParticles canvas ps in
  (forall s, In s strokes ->
     exists p q,
       nth_error ps (stroke_from s) = Some p /\ nth_error ps (stroke_to s) = Some q
       /\ sqrt (distSq p q) < T
       /\ stroke_alpha s = 1 - sqrt (distSq p q) / T)
  /\ (forall i j p q,
        (i < j)%nat -> nth_error ps i = Some p -> nth_error ps j = Some q ->
        let d := sqrt (distSq p q) in
        (d < T ->
           (exists s, In s strokes /\ strokePair s = (i, j) /\ stroke_alpha s = 1 - d / T)
           /\ (forall s, In s strokes -> strokePair s = (i, j) ->
                 stroke_alpha s = 1 - d / T))
        /\ (T <= d -> forall s, In s strokes -> strokePair s <> (i, j))).
Proof.
  intros inside T strokes.
  assert (Every : forall s, In s strokes ->
            exists p q,
              nth_error ps (stroke_from s) = Some p /\ nth_error ps (stroke_to s) = Some q
              /\ sqrt (distSq p q) < T
              /\ stroke_alpha s = 1 - sqrt (distSq p q) / T).
  { intros s Hs. unfold strokes in Hs. rewrite connectParticles_candidates in Hs.
    apply in_flat_map in Hs. destruct Hs as (ab & _ & Hs).
    apply In_connectPair in Hs. destruct Hs as (p & q & Hp & Hq & Hd & ->).
    exists p, q. simpl. repeat split; auto. apply close_sqrt, Hd. }
  split; [exact Every|].
  intros i j p q Hlt Hp Hq d.
  assert (Alpha : forall s, In s strokes -> strokePair s = (i, j) ->
            sqrt (distSq p q) < T /\ stroke_alpha s = 1 - d / T).
  { intros s Hs E. destruct (Every s Hs) as (p' & q' & Hp' & Hq' & Hd & Ha).
    destruct (strokePair_cases s i j E Hlt) as [[E1 E2]|[E1 E2]];
      rewrite E1 in Hp'; rewrite E2 in Hq'.
    - assert (p' = p) by congruence. assert (q' = q) by congruence. subst.
      split; [exact Hd|exact Ha].
    - assert (p' = q) by congruence. assert (q' = p) by congruence. subst.
      rewrite distSq_sym in Hd, Ha. split; [exact Hd|exact Ha]. }
  split.
  - intros Hd. split; [|intros s Hs E; apply (Alpha s Hs E)].
    assert (Hc : distSq p q < maxDistSq) by (apply close_sqrt; exact Hd).
    unfold strokes. rewrite connectParticles_candidates.
    destruct (close_candidates canvas ps i j p q inside Hlt Hp Hq Hc) as [H|H].
    + exists {| stroke_from := i; stroke_to := j; stroke_alpha := 1 - d / T |}.
      split; [|split; [|reflexivity]].
      * apply in_flat_map. exists (i, j). split; [exact H|].
        apply In_connectPair. exists p, q. simpl. auto.
      * unfold strokePair. simpl. f_equal; lia.
    + exists {| stroke_from := j; stroke_to := i; stroke_alpha := 1 - d / T |}.
      split; [|split; [|reflexivity]].
      * apply in_flat_map. exists (j, i). split; [exact H|].
        apply In_connectPair. exists q, p. simpl.
        rewrite (distSq_sym q p). auto.
      * unfold strokePair. simpl. f_equal; lia.
  - intros Hd s Hs E. destruct (Alpha s Hs E) as (Hlt' & _). unfold d in Hd. lra.
Qed.

Lemma example_distance :
  sqrt (distSq (particleAt 100 100) (particleAt 150 100)) = 50.
Proof.
  unfold distSq, particleAt. simpl.
  replace ((100 - 150) * (100 - 150) + (100 - 100) * (100 - 100)) with (50 * 50) by ring.
  apply sqrt_square. lra.
Qed.

(** The scenario of the specification: particles at (100, 100) and
    (150, 100) are joined by a stroke of opacity 1 - 50/120, which is
    0.583 to three places. *)
Lemma connection_opacity_witness :
  exists s,
    In s (connectParticles (mkCanvas 800 600) [particleAt 100 100; particleAt 150 100])
    /\ strokePair s = (0%nat, 1%nat)
    /\ stroke_alpha s = 1 - 50 / 120
    /\ Rabs (stroke_alpha s - 0.583) < 0.001.
Proof.
  assert (I : Forall (inBounds (mkCanvas 800 600))
                [particleAt 100 100; particleAt 150 100])
    by (repeat constructor; simpl; lra).
  pose proof (connection_opacity (mkCanvas 800 600)
                [particleAt 100 100; particleAt 150 100] I) as T.
  destruct T as (_ & T).
  specialize (T 0%nat 1%nat (particleAt 100 100) (particleAt 150 100)
                ltac:(lia) eq_refl eq_refl).
  destruct T as (T & _).
  assert (D : sqrt (distSq (particleAt 100 100) (particleAt 150 100))
              < CONFIG.connectionDistance).
  { rewrite example_distance. unfold CONFIG.connectionDistance. lra. }
  destruct (T D) as ((s & Hs & Hp & Ha) & _).
  rewrite example_distance in Ha. unfold CONFIG.connectionDistance in Ha.
  exists s. split; [exact Hs|]. split; [exact Hp|]. split; [exact Ha|].
  rewrite Ha. apply Rabs_def1; lra.
Defined.

(** ** The line pass traced on concrete inputs *)

Example for_in_order :
  Grid.for_in [(17, [0%nat]); (-1, [1%nat]); (0, [2%nat]); (3, [3%nat])]%Z
  = [0; 3; 17; -1]%Z.
Proof. reflexivity. Qed.

Example grid_800x600 :
  gridCols (mkCanvas 800 600) = 8%Z /\ gridRows (mkCanvas 800 600) = 6%Z.
Proof.
  unfold gridCols, gridRows, JS.Math_ceil, cellSize, CONFIG.connectionDistance. simpl.
  rewrite (Zceil_eq 7) by lra. rewrite (Zceil_eq 5) by lra. split; reflexivity.
Qed.

Lemma cellKey_at cols x y c r :
  IZR c <= x / 120 < IZR c + 1 -> IZR r <= y / 120 < IZR r + 1 ->
  cellKey cols (particleAt x y) = (r * cols + c)%Z.
Proof.
  intros Hc Hr.
  unfold cellKey, cellRow, cellCol, JS.Math_floor, cellSize, CONFIG.connectionDistance.
  unfold particleAt. cbn [Particle.x Particle.y].
  rewrite (Zfloor_eq r (y / 120)), (Zfloor_eq c (x / 120)) by assumption.
  reflexivity.
Qed.

Example buildGrid_three :
  buildGrid 8 [particleAt 100 100; particleAt 150 100; particleAt 130 250]
  = [(0, [0%nat]); (1, [1%nat]); (17, [2%nat])]%Z.
Proof.
  unfold buildGrid. simpl.
  rewrite (cellKey_at 8 100 100 0 0) by lra.
  rewrite (cellKey_at 8 150 100 1 0) by lra.
  rewrite (cellKey_at 8 130 250 1 2) by lra.
  reflexivity.
Qed.

(** The scenario of the specification, traced through the code: the two
    particles are in neighboring cells and one stroke is painted, from
    particle 0 to particle 1. *)
Example connectParticles_two :
  connectParticles (mkCanvas 800 600) [particleAt 100 100; particleAt 150 100]
  = [ {| stroke_from := 0; stroke_to := 1; stroke_alpha := 1 - 50 / 120 |} ].
Proof.
  unfold connectParticles. destruct grid_800x600 as [-> ->].
  unfold buildGrid. simpl.
  rewrite (cellKey_at 8 100 100 0 0) by lra.
  rewrite (cellKey_at 8 150 100 1 0) by lra.
  cbn [Grid.push Z.eqb Z.mul Z.add]. unfold Grid.for_in. cbn.
  unfold connectCell. cbn [Grid.get Z.eqb Z.rem].
  unfold JS.Math_floor.
  replace (IZR 0 / IZR 8) with (IZR 0) by (simpl; lra).
  replace (IZR 1 / IZR 8) with (1 / 8) by reflexivity.
  rewrite ZfloorZ. rewrite (Zfloor_eq 0 (1 / 8)) by lra.
  cbn. unfold connectPair. cbn.
  fold (particleAt 100 100). fold (particleAt 150 100).
  assert (D : distSq (particleAt 100 100) (particleAt 150 100) = 50 * 50).
  { unfold distSq, particleAt. simpl. ring. }
  rewrite D. unfold JS.Math_sqrt. rewrite sqrt_square by lra.
  assert (C : JS.ltb (50 * 50) maxDistSq = true).
  { apply ltb_true. unfold maxDistSq, CONFIG.connectionDistance. lra. }
  rewrite C. reflexivity.
Qed.

(** * Further properties of the renderer *)

(** ** The debounced resize *)

Lemma resize_overwrites st a b w h :
  step (step st (resize a b)) (resize w h) = step st (resize w h).
Proof. reflexivity. Qed.

Lemma run_resize_burst st (burst : list (N * N)) w h :
  run st (map (fun wh => resize (fst wh) (snd wh)) burst ++ [resize w h])
  = step st (resize w h).
Proof.
  revert st. induction burst as [|[a b] burst IH]; intros st; [reflexivity|].
  change (run (step st (resize a b))
              (map (fun wh => resize (fst wh) (snd wh)) burst ++ [resize w h])
          = step st (resize w h)).
  rewrite IH. apply resize_overwrites.
Qed.

(** X1.  A burst of resize events followed by the debounce timeout has
    the effect of its last resize alone: the callback runs once, for the
    last window size.  Until the timeout fires, canvas and particles are
    untouched, and a further timeout with no resize before it does
    nothing. *)
Theorem resize_burst_coalesces (st : State) (burst : list (N * N)) (w h : N) :
  let resizes := map (fun wh => resize (fst wh) (snd wh)) burst in
  run st (resizes ++ [resize w h; resizeTimeout]) = run st [resize w h; resizeTimeout]
  /\ canvas (run st (resizes ++ [resize w h])) = canvas st
  /\ particles (run st (resizes ++ [resize w h])) = particles st
  /\ canvas (run st (resizes ++ [resize w h; resizeTimeout])) = mkCanvas w h
  /\ run st (resizes ++ [resize w h; resizeTimeout; resizeTimeout])
     = run st (resizes ++ [resize w h; resizeTimeout]).
Proof.
  intros resizes.
  assert (E : forall tl, run st (resizes ++ resize w h :: tl)
                         = run (step st (resize w h)) tl).
  { intros tl. change (resize w h :: tl) with ([resize w h] ++ tl).
    rewrite app_assoc, run_app. unfold resizes. rewrite run_resize_burst.
    reflexivity. }
  split; [apply E|]. split; [rewrite E; reflexivity|].
  split; [rewrite E; reflexivity|]. split.
  - rewrite E. simpl. apply resizeCallback_canvas.
  - rewrite !E. simpl.
    assert (F : resizeTimer
                  (resizeCallback
                     (with_resizeTimer false
                        (with_resizeTimer true (with_window (mkWindow w h) st))))
                = false).
    { unfold resizeCallback, createParticles.
      destruct (newParticles _ _ _ _). reflexivity. }
    rewrite F. reflexivity.
Qed.

(** ** The colour cache *)

Lemma colorCache_state themes initial k :
  colorCacheFrame (colorCacheAfter themes initial k) = k
  /\ ((0 < k)%nat ->
      frameColors (colorCacheAfter themes initial k)
      = themes (60 * ((k - 1) / 60))%nat).
Proof.
  induction k as [|k [IHc IHf]]; [split; [reflexivity|lia]|].
  cbn [colorCacheAfter]. unfold getFrameColors. rewrite IHc. cbn [snd].
  split; [reflexivity|]. intros _. cbn [frameColors].
  replace (S k - 1)%nat with k by lia.
  destruct (Nat.eqb_spec (k mod 60) 0) as [E|E].
  - f_equal. pose proof (Nat.div_mod_eq k 60). lia.
  - rewrite IHf by (destruct k; [simpl in E; lia|lia]). f_equal.
    f_equal.
    pose proof (Nat.div_mod_eq k 60). pose proof (Nat.div_mod_eq (k - 1) 60).
    pose proof (Nat.mod_upper_bound k 60 ltac:(lia)).
    pose proof (Nat.mod_upper_bound (k - 1) 60 ltac:(lia)).
    nia.
Qed.

(** X2.  [getFrameColors()] has been called [k] times before.  The next
    call returns the theme colours as they were at call [60 * floor(k/60)],
    the last call whose number is a multiple of 60: the style is re-read on
    exactly those calls, and a theme change is picked up at most 59 calls
    late. *)
Theorem frame_colors_refresh (themes : nat -> Colors) (initial : Colors) (k : nat) :
  let cache := colorCacheAfter themes initial k in
  colorCacheFrame cache = k
  /\ fst (getFrameColors (themes k) cache) = themes (60 * (k / 60))%nat
  /\ ((k mod 60 = 0)%nat -> fst (getFrameColors (themes k) cache) = themes k)
  /\ ((k mod 60 <> 0)%nat -> fst (getFrameColors (themes k) cache) = frameColors cache)
  /\ (k - 60 * (k / 60) <= 59)%nat.
Proof.
  intros cache. destruct (colorCache_state themes initial k) as [Hc Hf].
  fold cache in Hc, Hf.
  assert (R : fst (getFrameColors (themes k) cache) = themes (60 * (k / 60))%nat).
  { unfold getFrameColors. rewrite Hc. cbn [fst].
    destruct (Nat.eqb_spec (k mod 60) 0) as [E|E].
    - f_equal. pose proof (Nat.div_mod_eq k 60). lia.
    - rewrite Hf by (destruct k; [simpl in E; lia|lia]). f_equal. f_equal.
      pose proof (Nat.div_mod_eq k 60). pose proof (Nat.div_mod_eq (k - 1) 60).
      pose proof (Nat.mod_upper_bound k 60 ltac:(lia)).
      pose proof (Nat.mod_upper_bound (k - 1) 60 ltac:(lia)).
      nia. }
  split; [exact Hc|]. split; [exact R|]. split; [|split].
  - intros E. unfold getFrameColors. rewrite Hc, E. reflexivity.
  - intros E. unfold getFrameColors. rewrite Hc.
    destruct (Nat.eqb_spec (k mod 60) 0); [contradiction|reflexivity].
  - pose proof (Nat.div_mod_eq k 60).
    pose proof (Nat.mod_upper_bound k 60 ltac:(lia)). lia.
Qed.

(** ** The pointer glow pass *)

Lemma pointerDist_nonneg m p : 0 <= pointerDist m p.
Proof. unfold pointerDist, JS.Math_sqrt. apply sqrt_pos. Qed.

Lemma In_mouseGlow m ps i a :
  active m = true ->
  (In (i, a) (mouseGlow m ps) <->
   exists p, nth_error ps i = Some p
             /\ pointerDist m p < CONFIG.mouseRadius
             /\ a = (1 - pointerDist m p / CONFIG.mouseRadius) * 0.4).
Proof.
  intros Ha. unfold mouseGlow. rewrite Ha, in_flat_map. split.
  - intros ([i' p] & Hin & H). apply In_indexed in Hin. rewrite Nat.sub_0_r in Hin.
    cbn [fst snd] in H. fold (pointerDist m p) in H.
    destruct (JS.ltb (pointerDist m p) CONFIG.mouseRadius) eqn:E; [|contradiction].
    apply ltb_true in E. destruct H as [H|[]]. inversion H; subst.
    exists p. tauto.
  - intros (p & Hp & Hd & ->). exists (i, p). split.
    + apply In_indexed. rewrite Nat.sub_0_r. split; [lia|exact Hp].
    + cbn [fst snd]. fold (pointerDist m p).
      apply ltb_true in Hd. rewrite Hd. left. reflexivity.
Qed.

Lemma glow_indices_sorted m ps start :
  StronglySorted lt
    (map fst
       (flat_map
          (fun ip : nat * Particle.t =>
             let p := snd ip in
             let dx := Particle.x p - mouse_x m in
             let dy := Particle.y p - mouse_y m in
             let dist := JS.Math_sqrt (dx * dx + dy * dy) in
             if JS.ltb dist CONFIG.mouseRadius
             then [(fst ip, (1 - dist / CONFIG.mouseRadius) * 0.4)]
             else [])
          (combine (seq start (List.length ps)) ps))).
Proof.
  revert start. induction ps as [|p ps IH]; intros start; simpl; [constructor|].
  destruct (JS.ltb _ _); simpl; [|apply IH].
  constructor; [apply IH|].
  apply Forall_forall. intros i Hi. apply in_map_iff in Hi.
  destruct Hi as ([i' a] & E & Hi). simpl in E. subst i'.
  apply in_flat_map in Hi. destruct Hi as ([j q] & Hj & Hi).
  apply In_indexed in Hj. cbn [fst snd] in Hi.
  destruct (JS.ltb _ _); [|contradiction].
  destruct Hi as [Hi|[]]. inversion Hi; subst. lia.
Qed.

Lemma mouse_inactive_run st es :
  active (mouse st) = false ->
  Forall (fun e => match e with mousemove _ _ => False | _ => True end) es ->
  active (mouse (run st es)) = false.
Proof.
  revert st. induction es as [|e es IH]; intros st Ha Hes; [exact Ha|].
  inversion Hes as [|? ? He Hes']; subst. simpl. apply IH; [|exact Hes'].
  destruct e; simpl; try exact Ha; try contradiction; try reflexivity.
  - destruct (resizeTimer st); [|exact Ha]. unfold resizeCallback, createParticles.
    destruct (newParticles _ _ _ _). exact Ha.
  - unfold animate. destruct (hidden st); exact Ha.
  - unfold spawnShootingStar. destruct (hidden st); [exact Ha|].
    destruct (JS.Math_random (random st)) as [r rng].
    destruct (JS.ltb r 0.7); [|exact Ha].
    destruct (ShootingStar.new (canvas st) rng). exact Ha.
Qed.

Lemma initialize_mouse w h rng : mouse (initializeConstellation w h rng) = mouse_init.
Proof.
  unfold initializeConstellation, animate, createParticles.
  destruct (newParticles _ _ _ _). simpl. destruct h; reflexivity.
Qed.

(** X3.  The glow pass draws nothing while the pointer is inactive, and
    so in no frame before the first mouse move.  With an active pointer
    it draws one line to each particle nearer than [mouseRadius], the
    particle exactly at the pointer included, with opacity
    [(1 - dist / mouseRadius) * 0.4], which lies in (0, 0.4]; particles
    are visited in index order, none twice. *)
Theorem pointer_glow_lines (m : Mouse) (ps : list Particle.t) :
  (active m = false -> mouseGlow m ps = [])
  /\ (active m = true ->
      forall i a,
        In (i, a) (mouseGlow m ps) <->
        exists p, nth_error ps i = Some p
                  /\ pointerDist m p < CONFIG.mouseRadius
                  /\ a = (1 - pointerDist m p / CONFIG.mouseRadius) * 0.4)
  /\ (forall i a, In (i, a) (mouseGlow m ps) -> 0 < a <= 0.4)
  /\ (forall i p, active m = true -> nth_error ps i = Some p ->
        Particle.x p = mouse_x m -> Particle.y p = mouse_y m ->
        In (i, 0.4) (mouseGlow m ps))
  /\ StronglySorted lt (map fst (mouseGlow m ps))
  /\ (forall w h rng es,
        Forall (fun e => match e with mousemove _ _ => False | _ => True end) es ->
        glow (snd (animate (run (initializeConstellation w h rng) es))) = []).
Proof.
  split; [intros Ha; unfold mouseGlow; rewrite Ha; reflexivity|].
  split; [intros Ha i a; apply In_mouseGlow, Ha|].
  split; [|split; [|split]].
  - intros i a Hin. destruct (active m) eqn:Ha.
    + apply (In_mouseGlow m ps i a Ha) in Hin. destruct Hin as (p & _ & Hd & ->).
      pose proof (pointerDist_nonneg m p). unfold CONFIG.mouseRadius in *. lra.
    + unfold mouseGlow in Hin. rewrite Ha in Hin. contradiction.
  - intros i p Ha Hp Hx Hy. apply (In_mouseGlow m ps i 0.4 Ha). exists p.
    assert (D : pointerDist m p = 0).
    { unfold pointerDist, JS.Math_sqrt. rewrite Hx, Hy.
      replace ((mouse_x m - mouse_x m) * (mouse_x m - mouse_x m)
               + (mouse_y m - mouse_y m) * (mouse_y m - mouse_y m)) with 0 by ring.
      apply sqrt_0. }
    rewrite D. unfold CONFIG.mouseRadius. repeat split; [exact Hp|lra|lra].
  - unfold mouseGlow. destruct (active m); [apply glow_indices_sorted|constructor].
  - intros w h rng es Hes.
    assert (Ha : active (mouse (run (initializeConstellation w h rng) es)) = false).
    { apply mouse_inactive_run; [|exact Hes]. rewrite initialize_mouse. reflexivity. }
    unfold animate. destruct (hidden _); [reflexivity|]. cbn [snd glow].
    unfold mouseGlow. rewrite Ha. reflexivity.
Qed.

(** ** What holds of every particle and star at all times *)

Lemma abs_le a b : Rabs a <= b <-> - b <= a <= b.
Proof.
  unfold Rabs. destruct (Rcase_abs a); split; intros; lra.
Qed.

Lemma reset_ok c rng : JS.rng_ok rng -> particle_ok c (fst (Particle.reset c rng)).
Proof.
  intros G. rewrite reset_fields. unfold particle_ok, inBounds, maxSpeed. cbn.
  unfold CONFIG.particleSpeedRange, CONFIG.particleMaxRadius, CONFIG.particleMinRadius.
  pose proof (G 0%nat). pose proof (G 1%nat). pose proof (G 2%nat).
  pose proof (G 3%nat). pose proof (G 4%nat). pose proof (G 5%nat).
  pose proof (N_nonneg_R (width c)). pose proof (N_nonneg_R (height c)).
  pose proof PI_RGT_0.
  rewrite !abs_le. repeat split; try lra; try nra.
Qed.

Lemma newParticles_ok c count ref rng :
  JS.rng_ok rng -> Forall (particle_ok c) (map snd (fst (newParticles c count ref rng))).
Proof.
  revert ref rng. induction count as [|k IH]; intros ref rng G; [constructor|].
  simpl. unfold JS.bind.
  pose proof (reset_ok c rng G) as P. pose proof (reset_rng c rng) as E.
  destruct (Particle.reset c rng) as [p rng1]. simpl in P, E.
  assert (G1 : JS.rng_ok rng1) by (rewrite E; intros n; apply G).
  specialize (IH (S ref) rng1 G1).
  destruct (newParticles c k (S ref) rng1) as [rest rng2]. simpl in *.
  constructor; assumption.
Qed.

(** The pointer changes each velocity component by less than
    [mouseRepelForce]. *)
Lemma repel_delta m p :
  -0.08 <= fst (Particle.repel m p) - Particle.vx p <= 0.08
  /\ -0.08 <= snd (Particle.repel m p) - Particle.vy p <= 0.08.
Proof.
  unfold Particle.repel. destruct (active m); [|simpl; lra].
  set (dx := Particle.x p - mouse_x m). set (dy := Particle.y p - mouse_y m).
  unfold JS.Math_sqrt. set (dist := sqrt (dx * dx + dy * dy)).
  destruct (JS.ltb dist CONFIG.mouseRadius) eqn:E1; [|simpl; lra].
  destruct (JS.ltb 0 dist) eqn:E2; [|simpl; lra].
  apply ltb_true in E1. apply ltb_true in E2. unfold CONFIG.mouseRadius in E1.
  cbn [andb fst snd]. unfold CONFIG.mouseRadius, CONFIG.mouseRepelForce.
  assert (Sq : dist * dist = dx * dx + dy * dy).
  { apply sqrt_sqrt. pose proof (Rle_0_sqr dx). pose proof (Rle_0_sqr dy).
    unfold Rsqr in *. lra. }
  assert (Ux : -1 <= dx / dist <= 1).
  { assert (- dist <= dx <= dist) by (split; nra).
    split.
    - apply (Rmult_le_reg_r dist); [lra|]. unfold Rdiv.
      rewrite Rmult_assoc, Rinv_l by lra. lra.
    - apply (Rmult_le_reg_r dist); [lra|]. unfold Rdiv.
      rewrite Rmult_assoc, Rinv_l by lra. lra. }
  assert (Uy : -1 <= dy / dist <= 1).
  { assert (- dist <= dy <= dist) by (split; nra).
    split.
    - apply (Rmult_le_reg_r dist); [lra|]. unfold Rdiv.
      rewrite Rmult_assoc, Rinv_l by lra. lra.
    - apply (Rmult_le_reg_r dist); [lra|]. unfold Rdiv.
      rewrite Rmult_assoc, Rinv_l by lra. lra. }
  assert (F : 0 <= (1 - dist / 180) * 0.08 <= 0.08).
  { assert (0 <= dist / 180 <= 1) by (split; lra). nra. }
  set (force := (1 - dist / 180) * 0.08) in *.
  set (ux := dx / dist) in *. set (uy := dy / dist) in *.
  split; split; nra.
Qed.

Lemma clamp_abs pos v hi : Rabs (snd (Particle.clamp pos v hi)) = Rabs v.
Proof.
  unfold Particle.clamp, JS.Math_abs. js_cases; simpl.
  - apply Rabs_Rabsolu.
  - rewrite Rabs_Ropp. apply Rabs_Rabsolu.
  - reflexivity.
Qed.

Lemma update_ok c m fc p : particle_ok c p -> particle_ok c (Particle.update c m fc p).
Proof.
  intros (_ & Bx & By & Vx & Vy & Br & _ & Po).
  unfold particle_ok. split; [apply update_inBounds|].
  rewrite update_fields. cbn.
  rewrite !clamp_abs.
  destruct (repel_delta m p) as [Dx Dy].
  unfold relaxed, CONFIG.mouseReturnSpeed, maxSpeed in *.
  rewrite !abs_le in *.
  pose proof (SIN_bound (IZR fc * CONFIG.pulseSpeed + Particle.pulseOffset p)).
  repeat split; lra.
Qed.

Lemma new_star_shape c rng :
  JS.rng_ok rng ->
  star_shape (fst (ShootingStar.new c rng))
  /\ ShootingStar.life (fst (ShootingStar.new c rng)) = 1
  /\ (ShootingStar.y (fst (ShootingStar.new c rng)) = -10
      /\ 0 <= ShootingStar.x (fst (ShootingStar.new c rng)) <= IZR (Z.of_N (width c))
      \/ ShootingStar.x (fst (ShootingStar.new c rng)) = -10
         /\ 0 <= ShootingStar.y (fst (ShootingStar.new c rng))
            <= IZR (Z.of_N (height c)) / 2).
Proof.
  intros G.
  pose proof (G 1%nat) as G1. pose proof (G 2%nat) as G2.
  pose proof (G 3%nat) as G3. pose proof (G 4%nat) as G4.
  pose proof PI_RGT_0 as Pi.
  pose proof (N_nonneg_R (width c)) as Wn. pose proof (N_nonneg_R (height c)) as Hn.
  set (a := PI / 6 + rng 2%nat * PI / 4).
  assert (A : PI / 6 <= a < PI / 2) by (unfold a; nra).
  assert (Vx : 0 < cos a) by (apply cos_gt_0; lra).
  assert (Vy : 1 / 2 <= sin a).
  { rewrite <- sin_PI6. apply sin_incr_1; lra. }
  assert (Sp : sqrt (cos a * 12 * (cos a * 12) + sin a * 12 * (sin a * 12)) = 12).
  { replace (cos a * 12 * (cos a * 12) + sin a * 12 * (sin a * 12))
      with (12 * 12 * (Rsqr (sin a) + Rsqr (cos a))) by (unfold Rsqr; ring).
    rewrite sin2_cos2, Rmult_1_r. apply sqrt_square. lra. }
  unfold ShootingStar.new, JS.bind, JS.Math_random, JS.ret, star_shape,
    JS.Math_cos, JS.Math_sin, JS.Math_PI, CONFIG.shootingStarSpeed,
    CONFIG.shootingStarLength.
  fold a.
  destruct (JS.ltb (rng 0%nat) 0.5); cbn;
    (split; [repeat split; try exact Sp; try lra; try nra|]);
    (split; [lra|]); [left|right]; repeat split; try lra; try nra.
Qed.

Lemma star_update_shape s : star_shape s -> star_shape (ShootingStar.update s).
Proof.
  unfold star_shape. cbn. intros (Sp & Vx & Vy & L & Li & D).
  repeat split; try assumption; lra.
Qed.

Lemma step_field_ok st e : field_ok st -> field_ok (step st e).
Proof.
  intros (G & P & Hs). destruct e; simpl; try (split; [|split]; assumption).
  - destruct (resizeTimer st); [|split; [|split]; assumption].
    unfold resizeCallback, createParticles, field_ok.
    set (st1 := setCanvasSize (with_resizeTimer false st)).
    pose proof (newParticles_rng_ok (canvas st1)
                  (Z.to_nat (particleCount (canvas st1) (window st1)))
                  (nextRef st1) (random st1) G) as G'.
    pose proof (newParticles_ok (canvas st1)
                  (Z.to_nat (particleCount (canvas st1) (window st1)))
                  (nextRef st1) (random st1) G) as P'.
    destruct (newParticles _ _ _ _) as [ps rng']. simpl in *.
    split; [exact G'|]. split; [exact P'|exact Hs].
  - unfold animate, field_ok. destruct (hidden st); simpl; [split; [|split]; assumption|].
    split; [exact G|]. split.
    + rewrite map_map. simpl. rewrite Forall_map in P. apply Forall_map.
      eapply Forall_impl; [|exact P]. intros rp. apply update_ok.
    + unfold updateStars, liveStars. rewrite map_map. simpl.
      rewrite Forall_map in Hs. apply Forall_map, Forall_forall.
      intros rs Hrs. apply filter_In in Hrs. rewrite Forall_forall in Hs.
      apply star_update_shape, Hs, Hrs.
  - unfold spawnShootingStar, field_ok. destruct (hidden st); [split; [|split]; assumption|].
    unfold JS.Math_random.
    destruct (JS.ltb (random st 0%nat) 0.7).
    + destruct (new_star_fields (canvas st) (fun n => random st (S n)))
        as (_ & _ & Er).
      destruct (new_star_shape (canvas st) (fun n => random st (S n))
                  (rng_ok_tail _ G)) as (Sh & _).
      destruct (ShootingStar.new (canvas st) (fun n => random st (S n))) as [s rng'].
      simpl in *. split; [rewrite Er; intros n; apply G|]. split; [exact P|].
      rewrite map_app. apply Forall_app. split; [exact Hs|].
      constructor; [exact Sh|constructor].
    + simpl. split; [apply rng_ok_tail, G|]. split; assumption.
Qed.

Lemma run_field_ok st es : field_ok st -> field_ok (run st es).
Proof.
  revert st. induction es as [|e es IH]; intros st H; simpl; [exact H|].
  apply IH, step_field_ok, H.
Qed.

Lemma initialize_field_ok w h rng :
  JS.rng_ok rng -> field_ok (initializeConstellation w h rng).
Proof.
  intros G. unfold initializeConstellation.
  set (st0 := mkState w h rng (mkCanvas 0 0) [] [] 0 mouse_init false 0%nat).
  apply (step_field_ok (createParticles (setCanvasSize st0)) animationFrame).
  unfold createParticles, field_ok.
  pose proof (newParticles_rng_ok (canvas (setCanvasSize st0))
                (Z.to_nat (particleCount (canvas (setCanvasSize st0))
                                         (window (setCanvasSize st0))))
                (nextRef (setCanvasSize st0)) (random (setCanvasSize st0)) G) as G'.
  pose proof (newParticles_ok (canvas (setCanvasSize st0))
                (Z.to_nat (particleCount (canvas (setCanvasSize st0))
                                         (window (setCanvasSize st0))))
                (nextRef (setCanvasSize st0)) (random (setCanvasSize st0)) G) as P'.
  destruct (newParticles _ _ _ _) as [ps rng']. simpl in *.
  split; [exact G'|]. split; [exact P'|constructor].
Qed.

Lemma createParticles_rest st :
  hidden (createParticles st) = hidden st
  /\ frameCount (createParticles st) = frameCount st
  /\ mouse (createParticles st) = mouse st.
Proof.
  unfold createParticles. destruct (newParticles _ _ _ _). simpl. tauto.
Qed.

Lemma step_hidden st e :
  hidden (step st e) = match e with visibilitychange h => h | _ => hidden st end.
Proof.
  destruct e; simpl; try reflexivity.
  - destruct (resizeTimer st); [|reflexivity]. unfold resizeCallback.
    destruct (createParticles_rest (setCanvasSize (with_resizeTimer false st)))
      as (E & _). rewrite E. reflexivity.
  - unfold animate. destruct (hidden st) eqn:E; simpl; [exact E|reflexivity].
  - unfold spawnShootingStar. destruct (hidden st) eqn:E; [exact E|].
    destruct (JS.Math_random (random st)) as [r rng].
    destruct (JS.ltb r 0.7); [|reflexivity].
    destruct (ShootingStar.new (canvas st) rng). reflexivity.
Qed.

Lemma step_frameCount st e :
  frameCount (step st e)
  = match e with
    | animationFrame => if hidden st then frameCount st else (frameCount st + 1)%Z
    | _ => frameCount st
    end.
Proof.
  destruct e; simpl; try reflexivity.
  - destruct (resizeTimer st); [|reflexivity]. unfold resizeCallback.
    destruct (createParticles_rest (setCanvasSize (with_resizeTimer false st)))
      as (_ & E & _). rewrite E. reflexivity.
  - unfold animate. destruct (hidden st); reflexivity.
  - unfold spawnShootingStar. destruct (hidden st); [reflexivity|].
    destruct (JS.Math_random (random st)) as [r rng].
    destruct (JS.ltb r 0.7); [|reflexivity].
    destruct (ShootingStar.new (canvas st) rng). reflexivity.
Qed.

Lemma visibleFrames_cons h e es :
  visibleFrames h (e :: es)
  = ((match e with animationFrame => if h then 0 else 1 | _ => 0 end)
     + visibleFrames (match e with visibilitychange h' => h' | _ => h end) es)%nat.
Proof. destruct e; reflexivity. Qed.

(** X4.  The frame counter counts the frames drawn: over any sequence
    of events it grows by one for each run of [animate] that finds the
    page visible and is changed by nothing else; a run that finds the page
    hidden changes no state at all and paints nothing. *)
Theorem frame_counter_counts_visible_frames (st : State) (es : list Event) :
  frameCount (run st es)
  = (frameCount st + Z.of_nat (visibleFrames (hidden st) es))%Z
  /\ (hidden st = true -> animate st = (st, noOutput)).
Proof.
  split.
  - revert st. induction es as [|e es IH]; intros st; [simpl; lia|].
    change (run st (e :: es)) with (run (step st e) es).
    rewrite IH, step_hidden, step_frameCount, visibleFrames_cons.
    destruct e; try lia. destruct (hidden st); lia.
  - intros H. unfold animate. rewrite H. reflexivity.
Qed.



(** X6.  In every frame of a reachable state each particle is painted
    as a disc centred at its new position, inside the canvas, with the
    radius [Math.max(p.radius, 0.1)], which is at least 0.1 and at most
    2.4: [arc] never gets a radius that is negative or zero. *)
Theorem particle_discs_radius_guarded
    (w : Window) (h : bool) (rng : JS.Rng) (es : list Event) :
  JS.rng_ok rng ->
  let st := run (initializeConstellation w h rng) es in
  arcs (snd (animate st))
  = (if hidden st then []
     else map (fun rp : Ref * Particle.t =>
                 (Particle.x (snd rp), Particle.y (snd rp),
                  Rmax (Particle.radius (snd rp)) 0.1))
              (particles (fst (animate st))))
  /\ Forall (fun a : R * R * R =>
               (0 <= fst (fst a) <= IZR (Z.of_N (width (canvas st)))
                /\ 0 <= snd (fst a) <= IZR (Z.of_N (height (canvas st))))
               /\ 0.1 <= snd a <= 2.4)
            (arcs (snd (animate st))).
Proof.
  intros G st.
  assert (F : field_ok (run (initializeConstellation w h rng) (es ++ [animationFrame]))).
  { apply run_field_ok, initialize_field_ok, G. }
  rewrite run_app in F. fold st in F. simpl in F.
  destruct F as (_ & P & _). revert P.
  unfold animate. destruct (hidden st); [intros _; split; [reflexivity|constructor]|].
  cbn [fst snd arcs particles canvas].
  intros P. split; [reflexivity|].
  apply Forall_map, Forall_forall. intros rp Hrp.
  rewrite Forall_forall in P.
  assert (K : particle_ok (canvas st) (snd rp)).
  { apply P. apply in_map_iff. exists rp. auto. }
  destruct K as (In & _ & _ & _ & _ & _ & Rr & _).
  cbn [fst snd]. split; [exact In|].
  split; [apply Rmax_r|apply Rmax_lub; lra].
Qed.

Lemma initialize_hidden w h rng : hidden (initializeConstellation w h rng) = h.
Proof.
  unfold initializeConstellation.
  change (fst (animate ?s)) with (step s animationFrame).
  rewrite step_hidden.
  destruct (createParticles_rest
              (setCanvasSize (mkState w h rng (mkCanvas 0 0) [] [] 0 mouse_init false 0%nat)))
    as (E & _).
  rewrite E. reflexivity.
Qed.

Lemma particle_discs_radius_guarded_witness :
  let st := initializeConstellation (mkWindow 800 600) false (fun _ => 1 / 2) in
  Forall (fun a : R * R * R =>
            (0 <= fst (fst a) <= IZR (Z.of_N (width (canvas st)))
             /\ 0 <= snd (fst a) <= IZR (Z.of_N (height (canvas st))))
            /\ 0.1 <= snd a <= 2.4)
         (arcs (snd (animate st))).
Proof.
  intros st.
  assert (G : JS.rng_ok (fun _ : nat => 1 / 2)) by (intros n; lra).
  pose proof (particle_discs_radius_guarded (mkWindow 800 600) false
                (fun _ => 1 / 2) [] G) as T.
  cbv zeta in T. change (run ?s []) with s in T.
  exact (proj2 T).
Defined.

(** ** Shooting stars: shape, streak and lifetime *)

(** X7.  The constructor, [Math.random] returning values in [0, 1),
    draws five random numbers and makes a star of life 1 that enters at the
    top edge or on the upper half of the left edge, 10 pixels outside, and
    moves right and down: its speed is [shootingStarSpeed] = 12 pixels per
    frame to within a hundredth, of which more than 5.99 are downward and
    at most 10.4 to the right; its trail length is between 80 and 120 and
    its decay between 0.008 and 0.016. *)
Theorem shooting_star_constructor (c : Canvas) (rng : JS.Rng) :
  JS.rng_ok rng ->
  let s := fst (ShootingStar.new c rng) in
  ShootingStar.life s = 1
  /\ Rabs (sqrt (ShootingStar.vx s * ShootingStar.vx s
                 + ShootingStar.vy s * ShootingStar.vy s) - 12) <= 0.01
  /\ 0 < ShootingStar.vx s <= 10.4 /\ 5.99 <= ShootingStar.vy s <= 12
  /\ 80 <= ShootingStar.length s <= 120
  /\ 0.008 <= ShootingStar.decay s <= 0.016
  /\ (ShootingStar.y s = -10 /\ 0 <= ShootingStar.x s <= IZR (Z.of_N (width c))
      \/ ShootingStar.x s = -10
         /\ 0 <= ShootingStar.y s <= IZR (Z.of_N (height c)) / 2)
  /\ snd (ShootingStar.new c rng) = (fun n => rng (5 + n)%nat).
Proof.
  intros G s.
  destruct (new_star_shape c rng G) as ((Sp & Vx & Vy & L & _ & D) & Li & Edge).
  destruct (new_star_fields c rng) as (_ & _ & Er).
  fold s in Sp, Vx, Vy, L, D, Li, Edge. unfold CONFIG.shootingStarSpeed in Sp.
  assert (Sq : ShootingStar.vx s * ShootingStar.vx s
               + ShootingStar.vy s * ShootingStar.vy s = 144).
  { pose proof (Rle_0_sqr (ShootingStar.vx s)) as Qx.
    pose proof (Rle_0_sqr (ShootingStar.vy s)) as Qy. unfold Rsqr in Qx, Qy.
    rewrite <- (sqrt_sqrt (ShootingStar.vx s * ShootingStar.vx s
                           + ShootingStar.vy s * ShootingStar.vy s)) by lra.
    rewrite Sp. lra. }
  split; [exact Li|]. split.
  { rewrite Sp. replace (12 - 12) with 0 by lra. rewrite Rabs_R0. lra. }
  split; [split; [exact Vx|nra]|]. split; [split; [lra|nra]|].
  split; [lra|]. split; [lra|]. split; [exact Edge|exact Er].
Qed.

Lemma shooting_star_constructor_witness :
  ShootingStar.life (fst (ShootingStar.new (mkCanvas 800 600) (fun _ => 1 / 2))) = 1.
Proof.
  apply (shooting_star_constructor (mkCanvas 800 600) (fun _ => 1 / 2)).
  intros n. lra.
Defined.

Lemma draw_geometry s k :
  star_shape s -> ShootingStar.draw s = Some k ->
  0 < ShootingStar.life s
  /\ ShootingStar.headX k = ShootingStar.x s /\ ShootingStar.headY k = ShootingStar.y s
  /\ ShootingStar.tailX k
     = ShootingStar.x s - ShootingStar.vx s / 12 * ShootingStar.length s
  /\ ShootingStar.tailY k
     = ShootingStar.y s - ShootingStar.vy s / 12 * ShootingStar.length s
  /\ sqrt ((ShootingStar.headX k - ShootingStar.tailX k)
           * (ShootingStar.headX k - ShootingStar.tailX k)
           + (ShootingStar.headY k - ShootingStar.tailY k)
             * (ShootingStar.headY k - ShootingStar.tailY k))
     = ShootingStar.length s
  /\ ShootingStar.streakAlpha k = ShootingStar.life s * 0.8
  /\ ShootingStar.headAlpha k = ShootingStar.life s * 0.6
  /\ 0 < ShootingStar.streakAlpha k <= 0.8
  /\ 0 < ShootingStar.headAlpha k <= 0.6.
Proof.
  intros (Sp & Vx & Vy & L & Li & D) Hd.
  unfold ShootingStar.draw, JS.Math_sqrt in Hd. revert Hd.
  js_cases; [discriminate|]. rewrite Sp. unfold CONFIG.shootingStarSpeed in *.
  intros Hd. inversion Hd; subst k; clear Hd. cbn.
  assert (Sq : ShootingStar.vx s * ShootingStar.vx s
               + ShootingStar.vy s * ShootingStar.vy s = 12 * 12).
  { rewrite <- Sp at 1 2. symmetry. apply sqrt_sqrt. nra. }
  repeat split; try lra.
  replace ((ShootingStar.x s
            - (ShootingStar.x s - ShootingStar.vx s / 12 * ShootingStar.length s))
           * (ShootingStar.x s
              - (ShootingStar.x s - ShootingStar.vx s / 12 * ShootingStar.length s))
           + (ShootingStar.y s
              - (ShootingStar.y s - ShootingStar.vy s / 12 * ShootingStar.length s))
             * (ShootingStar.y s
                - (ShootingStar.y s - ShootingStar.vy s / 12 * ShootingStar.length s)))
    with ((ShootingStar.vx s * ShootingStar.vx s + ShootingStar.vy s * ShootingStar.vy s)
          / (12 * 12) * (ShootingStar.length s * ShootingStar.length s))
    by (field; lra).
  rewrite Sq. replace (12 * 12 / (12 * 12)) with 1 by (field; lra).
  rewrite Rmult_1_l. apply sqrt_square. lra.
Qed.

(** X8.  Every streak painted in a frame of a reachable state belongs to
    a star the frame kept and whose life is still positive; its head is the
    star's position, its tail lies behind the head against the direction of
    motion at a distance of exactly the star's trail length, between 80
    and 120 pixels, and its two opacities are [0.8 * life] and
    [0.6 * life], in (0, 0.8] and (0, 0.6]. *)
Theorem streaks_geometry
    (w : Window) (h : bool) (rng : JS.Rng) (es : list Event) :
  JS.rng_ok rng ->
  let st := run (initializeConstellation w h rng) es in
  forall r k, In (r, k) (streaks (snd (animate st))) ->
    exists s,
      In (r, s) (shootingStars (fst (animate st)))
      /\ 0 < ShootingStar.life s <= 1
      /\ ShootingStar.headX k = ShootingStar.x s /\ ShootingStar.headY k = ShootingStar.y s
      /\ ShootingStar.tailX k
         = ShootingStar.x s - ShootingStar.vx s / 12 * ShootingStar.length s
      /\ ShootingStar.tailY k
         = ShootingStar.y s - ShootingStar.vy s / 12 * ShootingStar.length s
      /\ sqrt ((ShootingStar.headX k - ShootingStar.tailX k)
               * (ShootingStar.headX k - ShootingStar.tailX k)
               + (ShootingStar.headY k - ShootingStar.tailY k)
                 * (ShootingStar.headY k - ShootingStar.tailY k))
         = ShootingStar.length s
      /\ 80 <= ShootingStar.length s < 120
      /\ ShootingStar.streakAlpha k = ShootingStar.life s * 0.8
      /\ ShootingStar.headAlpha k = ShootingStar.life s * 0.6
      /\ 0 < ShootingStar.streakAlpha k <= 0.8
      /\ 0 < ShootingStar.headAlpha k <= 0.6.
Proof.
  intros G st r k Hin.
  assert (F : field_ok (run (initializeConstellation w h rng) (es ++ [animationFrame]))).
  { apply run_field_ok, initialize_field_ok, G. }
  rewrite run_app in F. fold st in F. simpl in F. destruct F as (_ & _ & Sh).
  revert Hin Sh. unfold animate. destruct (hidden st); [intros []|].
  cbn [fst snd streaks shootingStars]. intros Hin Sh.
  apply drawStars_In in Hin. destruct Hin as (s & Hs & Hd & _).
  rewrite Forall_forall in Sh.
  assert (K : star_shape s) by (apply Sh, in_map_iff; exists (r, s); auto).
  destruct (draw_geometry s k K Hd) as (L0 & Hx & Hy & Tx & Ty & Len & A1 & A2 & R1 & R2).
  destruct K as (_ & _ & _ & Lr & Li & _).
  exists s. repeat split; try assumption; try lra.
Qed.

Lemma streaks_geometry_witness :
  let st := run (initializeConstellation (mkWindow 800 600) false (fun _ => 1 / 2))
                [spawnInterval] in
  Forall (fun rk : Ref * ShootingStar.Streak => 0 < ShootingStar.streakAlpha (snd rk) <= 0.8)
         (streaks (snd (animate st))).
Proof.
  intros st. apply Forall_forall. intros [r k] Hin.
  assert (G : JS.rng_ok (fun _ : nat => 1 / 2)) by (intros n; lra).
  destruct (streaks_geometry (mkWindow 800 600) false (fun _ => 1 / 2)
              [spawnInterval] G r k Hin) as (s & T).
  simpl. tauto.
Defined.

Lemma step_star_origin st e r s1 :
  (r < nextRef st)%nat ->
  In (r, s1) (shootingStars (step st e)) ->
  (e = animationFrame /\ hidden st = false
   /\ exists s, In (r, s) (shootingStars st)
                /\ s1 = ShootingStar.update s
                /\ ShootingStar.isDead (canvas st) s = false)
  \/ ((e <> animationFrame \/ hidden st = true) /\ In (r, s1) (shootingStars st)).
Proof.
  intros Hr Hin. destruct e; simpl in Hin;
    try (right; split; [left; discriminate|exact Hin]).
  - right. split; [left; discriminate|].
    destruct (resizeTimer st); [|exact Hin]. unfold resizeCallback in Hin.
    destruct (createParticles_frame (setCanvasSize (with_resizeTimer false st)))
      as (_ & _ & E & _).
    rewrite E in Hin. exact Hin.
  - unfold animate in Hin. destruct (hidden st) eqn:Hh.
    + right. split; [right; reflexivity|exact Hin].
    + left. split; [reflexivity|]. split; [reflexivity|].
      simpl in Hin. unfold updateStars, liveStars in Hin.
      apply in_map_iff in Hin. destruct Hin as ([r0 s] & E & Hin).
      simpl in E. inversion E; subst. apply filter_In in Hin.
      destruct Hin as (Hin & Hd). simpl in Hd.
      exists s. split; [exact Hin|]. split; [reflexivity|].
      destruct (ShootingStar.isDead (canvas st) s); [discriminate|reflexivity].
  - right. split; [left; discriminate|].
    destruct (spawn_frame st) as (_ & _ & [E | (s & E & _)]); rewrite E in Hin;
      [exact Hin|].
    apply in_app_iff in Hin. destruct Hin as [Hin|[Hin|[]]]; [exact Hin|].
    inversion Hin. lia.
Qed.

(** A star still listed after [k >= 1] visible frames had a life above
    [0.008 * (k - 1)] before them. *)
Lemma survivors_young es :
  forall st r s',
    field_ok st -> (r < nextRef st)%nat ->
    In (r, s') (shootingStars (run st es)) ->
    exists s, In (r, s) (shootingStars st)
              /\ ((1 <= visibleFrames (hidden st) es)%nat ->
                  0.008 * INR (visibleFrames (hidden st) es - 1) < ShootingStar.life s).
Proof.
  induction es as [|e es IH]; intros st r s' F Hr Hin.
  - exists s'. split; [exact Hin|]. simpl. lia.
  - change (run st (e :: es)) with (run (step st e) es) in Hin.
    assert (Hr' : (r < nextRef (step st e))%nat)
      by (pose proof (step_nextRef st e); lia).
    destruct (IH (step st e) r s' (step_field_ok st e F) Hr' Hin) as (s1 & H1 & B1).
    rewrite step_hidden in B1.
    destruct (step_star_origin st e r s1 Hr H1)
      as [(-> & Hh & s & Hs & -> & Hd) | (Hne & Hs)].
    + exists s. split; [exact Hs|]. intros _.
      rewrite visibleFrames_cons, Hh. cbn [Nat.add].
      replace (S (visibleFrames false es) - 1)%nat with (visibleFrames false es) by lia.
      rewrite Hh in B1.
      assert (Alive : 0 < ShootingStar.life s).
      { destruct (Rlt_dec 0 (ShootingStar.life s)) as [L|L]; [exact L|].
        assert (D : ShootingStar.isDead (canvas st) s = true)
          by (apply isDead_spec; left; lra).
        rewrite D in Hd. discriminate. }
      destruct F as (_ & _ & Sh). rewrite Forall_forall in Sh.
      assert (K : star_shape s) by (apply Sh, in_map_iff; exists (r, s); auto).
      destruct K as (_ & _ & _ & _ & _ & D).
      destruct (visibleFrames false es) as [|k] eqn:Ek; [simpl; lra|].
      specialize (B1 ltac:(lia)). simpl ShootingStar.life in B1.
      replace (S k - 1)%nat with k in B1 by lia.
      rewrite S_INR. lra.
    + exists s1. split; [exact Hs|].
      rewrite visibleFrames_cons.
      assert (Z0 : (match e with animationFrame => if hidden st then 0 else 1 | _ => 0 end
                    = 0)%nat).
      { destruct e; try reflexivity. destruct Hne as [Hne|Hh];
          [contradiction|rewrite Hh; reflexivity]. }
      rewrite Z0. exact B1.
Qed.

(** X9.  No shooting star outlives 126 drawn frames: a star listed in a
    reachable state is gone from the list once 126 runs of [animate] have
    found the page visible, whatever else happens in between. *)
Theorem shooting_star_lifetime
    (w : Window) (h : bool) (rng : JS.Rng) (es es' : list Event) (r : Ref) :
  JS.rng_ok rng ->
  let st := run (initializeConstellation w h rng) es in
  In r (refs (shootingStars st)) ->
  (126 <= visibleFrames (hidden st) es')%nat ->
  ~ In r (refs (shootingStars (run st es'))).
Proof.
  intros G st Hr Hk Hin.
  assert (F : field_ok st) by (apply run_field_ok, initialize_field_ok, G).
  assert (Ok : refs_ok st) by apply run_refs_ok, initialize_refs_ok.
  destruct Ok as (_ & Rs & _). rewrite Forall_forall in Rs. specialize (Rs r Hr).
  unfold refs in Hin. apply in_map_iff in Hin. destruct Hin as ([r0 s'] & E & Hin).
  simpl in E. subst r0.
  destruct (survivors_young es' st r s' F Rs Hin) as (s & Hs & B).
  specialize (B ltac:(lia)).
  destruct F as (_ & _ & Sh). rewrite Forall_forall in Sh.
  assert (K : star_shape s) by (apply Sh, in_map_iff; exists (r, s); auto).
  destruct K as (_ & _ & _ & _ & Li & _).
  assert (125 <= INR (visibleFrames (hidden st) es' - 1)).
  { replace 125 with (INR 125) by (simpl; lra). apply le_INR. lia. }
  lra.
Qed.

Lemma newParticles_rng_at c count ref rng n :
  snd (newParticles c count ref rng) n = rng (6 * count + n)%nat.
Proof.
  revert ref rng n. induction count as [|k IH]; intros ref rng n; [reflexivity|].
  simpl newParticles. unfold JS.bind.
  pose proof (reset_rng c rng) as E.
  destruct (Particle.reset c rng) as [p rng1]. simpl in E.
  specialize (IH (S ref) rng1 n).
  destruct (newParticles c k (S ref) rng1) as [rest rng2]. simpl in *.
  rewrite IH, E. f_equal. lia.
Qed.

Lemma initialize_random w h rng n :
  exists k, random (initializeConstellation w h rng) n = rng k.
Proof.
  unfold initializeConstellation.
  set (st0 := mkState w h rng (mkCanvas 0 0) [] [] 0 mouse_init false 0%nat).
  destruct (animate_frame (createParticles (setCanvasSize st0))) as (_ & E & _).
  rewrite E. unfold createParticles.
  pose proof (newParticles_rng_at (canvas (setCanvasSize st0))
                (Z.to_nat (particleCount (canvas (setCanvasSize st0))
                                         (window (setCanvasSize st0))))
                (nextRef (setCanvasSize st0)) (random (setCanvasSize st0)) n) as R.
  destruct (newParticles _ _ _ _) as [ps rng']. simpl in *.
  eexists. exact R.
Qed.

Lemma spawn_when_visible st :
  hidden st = false -> random st 0%nat < 0.7 ->
  In (nextRef st) (refs (shootingStars (spawnShootingStar st))).
Proof.
  intros Hh Hr. unfold spawnShootingStar. rewrite Hh. unfold JS.Math_random.
  apply ltb_true in Hr. rewrite Hr.
  destruct (ShootingStar.new (canvas st) (fun n => random st (S n))) as [s rng'].
  simpl. rewrite refs_app. apply in_app_iff. right. left. reflexivity.
Qed.

(** A star spawned on an 800 x 600 page is gone after 126 frames. *)
Lemma shooting_star_lifetime_witness :
  let st0 := initializeConstellation (mkWindow 800 600) false (fun _ => 1 / 2) in
  ~ In (nextRef st0)
       (refs (shootingStars
                (run (run st0 [spawnInterval]) (repeat animationFrame 126)))).
Proof.
  cbv zeta.
  assert (G : JS.rng_ok (fun _ : nat => 1 / 2)) by (intros n; lra).
  pose proof (initialize_hidden (mkWindow 800 600) false (fun _ => 1 / 2)) as Hh.
  destruct (initialize_random (mkWindow 800 600) false (fun _ => 1 / 2) 0) as (k & Er).
  pose proof (fun r => shooting_star_lifetime (mkWindow 800 600) false (fun _ => 1 / 2)
                [spawnInterval] (repeat animationFrame 126) r G) as T.
  cbv zeta in T.
  remember (initializeConstellation (mkWindow 800 600) false (fun _ => 1 / 2)) as st0.
  apply T.
  - apply spawn_when_visible; [exact Hh|]. rewrite Er. lra.
  - assert (H1 : hidden (run st0 [spawnInterval]) = false).
    { unfold run, fold_left. rewrite step_hidden. exact Hh. }
    rewrite H1. apply Nat.leb_le. reflexivity.
Defined.

(** ** The line pass: shape of the strokes, and the earlier version *)

(** X10.  For particles inside the canvas, as in every frame, each
    stroke of the line pass joins two different particles of the array and
    has an opacity in (0, 1]: no particle is joined to itself and no
    stroke is invisible or over-bright. *)
Theorem strokes_well_formed (canvas : Canvas) (ps : list Particle.t) :
  Forall (inBounds canvas) ps ->
  forall s, In s (connectParticles canvas ps) ->
    stroke_from s <> stroke_to s
    /\ (stroke_from s < List.length ps)%nat /\ (stroke_to s < List.length ps)%nat
    /\ 0 < stroke_alpha s <= 1.
Proof.
  intros inside s Hs. rewrite connectParticles_candidates in Hs.
  apply in_flat_map in Hs. destruct Hs as ([a b] & Hc & Hs).
  apply In_connectPair in Hs. destruct Hs as (p & q & Hp & Hq & Hd & ->).
  cbn [fst snd stroke_from stroke_to stroke_alpha] in *.
  split; [|split; [|split]].
  - intros ->. apply (candidates_antisym canvas ps b b inside); exact Hc.
  - apply nth_error_Some. congruence.
  - apply nth_error_Some. congruence.
  - apply close_sqrt in Hd. pose proof (sqrt_pos (distSq p q)).
    unfold CONFIG.connectionDistance in *. lra.
Qed.

Lemma strokes_well_formed_witness :
  Forall (fun s => stroke_from s <> stroke_to s /\ 0 < stroke_alpha s <= 1)
         (connectParticles (mkCanvas 800 600) [particleAt 100 100; particleAt 150 100]).
Proof.
  apply Forall_forall. intros s Hs.
  assert (I : Forall (inBounds (mkCanvas 800 600))
                [particleAt 100 100; particleAt 150 100])
    by (repeat constructor; simpl; lra).
  destruct (strokes_well_formed (mkCanvas 800 600)
              [particleAt 100 100; particleAt 150 100] I s Hs) as (A & _ & _ & B).
  split; assumption.
Defined.

Lemma flat_map_ext_on {A B} (f g : A -> list B) (l : list A) :
  (forall x, In x l -> f x = g x) -> flat_map f l = flat_map g l.
Proof.
  induction l as [|a l IH]; simpl; intros H; [reflexivity|].
  rewrite (H a), IH by auto. reflexivity.
Qed.

Lemma flat_map_cons_perm {A B} (a : A -> B) (f : A -> list B) (l : list A) :
  Permutation (flat_map (fun x => a x :: f x) l) (map a l ++ flat_map f l).
Proof.
  induction l as [|x l IH]; simpl; [reflexivity|].
  constructor. rewrite IH.
  rewrite !app_assoc. apply Permutation_app_tail, Permutation_app_comm.
Qed.

Lemma map_flat_map {A B C} (g : B -> C) (f : A -> list B) (l : list A) :
  map g (flat_map f l) = flat_map (fun x => map g (f x)) l.
Proof.
  induction l as [|x l IH]; simpl; [reflexivity|].
  rewrite map_app, IH. reflexivity.
Qed.

Lemma strokeOf_self ps i p :
  nth_error ps i = Some p ->
  strokeOf ps (i, i) = {| stroke_from := i; stroke_to := i; stroke_alpha := 1 |}.
Proof.
  intros Hp. unfold strokeOf. cbn [fst snd]. rewrite Hp. f_equal.
  assert (D : distSq p p = 0) by (unfold distSq; ring).
  rewrite D, sqrt_0. unfold CONFIG.connectionDistance. lra.
Qed.

Lemma legacy_row ps i p :
  nth_error ps i = Some p ->
  flat_map
    (fun j =>
       match nth_error ps i, nth_error ps j with
       | Some p1, Some p2 =>
           let distance := JS.Math_sqrt (distSq p1 p2) in
           if JS.ltb distance CONFIG.connectionDistance then
             [ {| stroke_from := i; stroke_to := j;
                  stroke_alpha := 1 - distance / CONFIG.connectionDistance |} ]
           else []
       | _, _ => []
       end)
    (seq i (List.length ps - i))
  = strokeOf ps (i, i)
    :: map (strokeOf ps)
         (flat_map
            (fun j =>
               match nth_error ps i, nth_error ps j with
               | Some p1, Some p2 =>
                   if JS.ltb (JS.Math_sqrt (distSq p1 p2)) CONFIG.connectionDistance
                   then [(i, j)] else []
               | _, _ => []
               end)
            (seq (S i) (List.length ps - S i))).
Proof.
  intros Hp.
  assert (Hi : (i < List.length ps)%nat) by (apply nth_error_Some; congruence).
  replace (List.length ps - i)%nat with (S (List.length ps - S i)) by lia.
  cbn [seq flat_map]. rewrite Hp. cbv zeta.
  assert (D : distSq p p = 0) by (unfold distSq; ring).
  assert (C : JS.ltb (JS.Math_sqrt (distSq p p)) CONFIG.connectionDistance = true).
  { apply ltb_true. unfold JS.Math_sqrt. rewrite D, sqrt_0.
    unfold CONFIG.connectionDistance. lra. }
  rewrite C. cbn [app]. f_equal.
  - unfold strokeOf. cbn [fst snd]. rewrite Hp. reflexivity.
  - clear C D. rewrite map_flat_map. apply flat_map_ext. intros j.
    destruct (nth_error ps j) as [q|] eqn:Hq; [|reflexivity].
    destruct (JS.ltb (JS.Math_sqrt (distSq p q)) CONFIG.connectionDistance);
      [|reflexivity].
    cbn [map]. unfold strokeOf. cbn [fst snd]. rewrite Hp, Hq. reflexivity.
Qed.

Lemma legacy_strokes ps :
  Permutation (connectParticlesLegacy ps)
    (map (fun i => strokeOf ps (i, i)) (seq 0 (List.length ps))
     ++ map (strokeOf ps) (bruteForcePairs ps)).
Proof.
  unfold connectParticlesLegacy, bruteForcePairs.
  rewrite map_flat_map.
  rewrite <- flat_map_cons_perm.
  apply Permutation_refl'. apply flat_map_ext_on. intros i Hi.
  apply in_seq in Hi.
  assert (Hex : exists p, nth_error ps i = Some p).
  { destruct (nth_error ps i) eqn:E; [eauto|]. apply nth_error_None in E. lia. }
  destruct Hex as (p & Hp). apply (legacy_row ps i p Hp).
Qed.

Lemma orient_strokeOf canvas ps s :
  In s (connectParticles canvas ps) -> orientStroke s = strokeOf ps (strokePair s).
Proof.
  intros Hs. rewrite connectParticles_candidates in Hs.
  apply in_flat_map in Hs. destruct Hs as ([a b] & _ & Hs).
  apply In_connectPair in Hs. destruct Hs as (p & q & Hp & Hq & _ & ->).
  cbn [fst snd] in *. unfold orientStroke, strokeOf, strokePair.
  cbn [fst snd stroke_from stroke_to stroke_alpha]. f_equal.
  destruct (Nat.le_ge_cases a b) as [L|L].
  - rewrite Nat.min_l, Nat.max_r by lia. rewrite Hp, Hq. reflexivity.
  - rewrite Nat.min_r, Nat.max_l by lia. rewrite Hp, Hq, distSq_sym. reflexivity.
Qed.

(** X11.  The spatial-hash line pass paints what the earlier all-pairs
    version of [connectParticles] painted, less that version's line from
    each particle to itself (zero length, opacity 1): for particles inside
    the canvas the strokes of the earlier version are, up to order, those
    self-lines together with the strokes of the present version with end
    points in ascending order, opacities included. *)
Theorem spatial_hash_refines_legacy (canvas : Canvas) (ps : list Particle.t) :
  Forall (inBounds canvas) ps ->
  Permutation (connectParticlesLegacy ps)
    (map (fun i => {| stroke_from := i; stroke_to := i; stroke_alpha := 1 |})
         (seq 0 (List.length ps))
     ++ map orientStroke (connectParticles canvas ps)).
Proof.
  intros inside. rewrite legacy_strokes. apply Permutation_app.
  - apply Permutation_refl'. apply map_ext_in. intros i Hi. apply in_seq in Hi.
    destruct (nth_error ps i) as [p|] eqn:Hp.
    + apply (strokeOf_self ps i p Hp).
    + apply nth_error_None in Hp. lia.
  - rewrite (map_ext_in orientStroke (fun s => strokeOf ps (strokePair s)))
      by (intros s Hs; apply (orient_strokeOf canvas ps s Hs)).
    rewrite <- (map_map strokePair (strokeOf ps)).
    apply Permutation_map. symmetry. apply connectParticles_perm, inside.
Qed.

Lemma spatial_hash_refines_legacy_witness :
  Permutation
    (connectParticlesLegacy [particleAt 100 100; particleAt 150 100])
    (map (fun i => {| stroke_from := i; stroke_to := i; stroke_alpha := 1 |})
         (seq 0 2)
     ++ map orientStroke
          (connectParticles (mkCanvas 800 600) [particleAt 100 100; particleAt 150 100])).
Proof.
  apply (spatial_hash_refines_legacy (mkCanvas 800 600)
           [particleAt 100 100; particleAt 150 100]).
  repeat constructor; simpl; lra.
Defined.

(** ** Particle count *)

(** X12.  For one density the number of particles [createParticles]
    makes grows with the canvas area. *)
Theorem particle_count_monotone (st1 st2 : State) :
  getDensity (window st1) = getDensity (window st2) ->
  (width (canvas st1) * height (canvas st1)
   <= width (canvas st2) * height (canvas st2))%N ->
  (List.length (particles (createParticles st1))
   <= List.length (particles (createParticles st2)))%nat.
Proof.
  intros Ed Ha. apply Nat2Z.inj_le.
  rewrite !createParticles_length, !particleCount_div, Ed.
  apply Z.div_le_mono; [apply getDensity_pos|lia].
Qed.

Lemma particle_count_monotone_witness :
  (List.length
     (particles
        (createParticles
           (mkState (mkWindow 800 600) false (fun _ => (1 / 2)%R) (mkCanvas 800 600)
              [] [] 0%Z mouse_init false 0%nat)))
   <= List.length
        (particles
           (createParticles
              (mkState (mkWindow 1000 800) false (fun _ => (1 / 2)%R) (mkCanvas 1000 800)
                 [] [] 0%Z mouse_init false 0%nat))))%nat.
Proof.
  apply particle_count_monotone; [reflexivity|vm_compute; discriminate].
Defined.

(** * The album deck *)

Lemma deck_last l c : Deck.lastElementChild (l ++ [c]) = Some c.
Proof. unfold Deck.lastElementChild. rewrite rev_app_distr. reflexivity. Qed.

Lemma deck_prepend l c : ~ In c l -> Deck.prepend c (l ++ [c]) = c :: l.
Proof.
  intros H. unfold Deck.prepend. f_equal.
  rewrite remove_app. rewrite notin_remove by exact H. simpl.
  destruct (Nat.eq_dec c c); [apply app_nil_r|contradiction].
Qed.

Lemma deck_deal n l c i sh :
  (2 <= n)%nat -> ~ In c l ->
  Deck.deal (Deck.mk n (l ++ [c]) i sh [])
  = Some (Deck.mk n (c :: l) ((i + 1) mod n) ((i + 1) mod n + 1) []).
Proof.
  intros Hn Hc. unfold Deck.deal, Deck.click. cbn [Nat.eqb Deck.total Deck.children].
  destruct (Nat.leb_spec n 1) as [L|L]; [lia|].
  rewrite deck_last. cbn. rewrite Nat.eqb_refl. cbn.
  unfold Deck.dealt. cbn. rewrite deck_prepend by exact Hc. reflexivity.
Qed.

Lemma deck_deals_rotate n l2 :
  forall l1 i sh,
    (2 <= n)%nat -> NoDup (l1 ++ l2) -> (1 <= List.length l2)%nat ->
    Deck.deals (List.length l2) (Deck.mk n (l1 ++ l2) i sh [])
    = Some (Deck.mk n (l2 ++ l1) ((i + List.length l2) mod n)
                    ((i + List.length l2) mod n + 1) []).
Proof.
  induction l2 as [|c l2 IH] using rev_ind; intros l1 i sh Hn Hd Hl.
  - simpl in Hl. lia.
  - rewrite length_app. cbn [List.length]. rewrite Nat.add_1_r.
    cbn [Deck.deals]. rewrite app_assoc.
    assert (Hc : ~ In c (l1 ++ l2)).
    { rewrite app_assoc in Hd. apply NoDup_remove_2 in Hd.
      rewrite app_nil_r in Hd. exact Hd. }
    rewrite (deck_deal n (l1 ++ l2) c i sh Hn Hc).
    destruct l2 as [|c2 l2'] using rev_ind.
    + cbn. rewrite app_nil_r. rewrite Nat.add_1_r. reflexivity.
    + clear IHl2'.
      assert (Hd' : NoDup ((c :: l1) ++ (l2' ++ [c2]))).
      { simpl. constructor; [exact Hc|].
        rewrite app_assoc in Hd. apply NoDup_remove_1 in Hd.
        rewrite app_nil_r in Hd. exact Hd. }
      assert (Hl' : (1 <= List.length (l2' ++ [c2]))%nat)
        by (rewrite length_app; simpl; lia).
      specialize (IH (c :: l1) ((i + 1) mod n)%nat (((i + 1) mod n) + 1)%nat Hn Hd' Hl').
      cbn [app] in IH. rewrite IH. f_equal.
      rewrite <- !app_assoc. cbn [app].
      rewrite Nat.Div0.add_mod_idemp_l.
      replace (i + 1 + List.length (l2' ++ [c2]))%nat
        with (i + S (List.length (l2' ++ [c2])))%nat by lia.
      reflexivity.
Qed.

(** X13.  A deck of [n >= 2] distinct cards, dealt by clicks that each
    wait for the animation of the one before: after [k] deals
    ([1 <= k <= n]) the last [k] cards of the original order have moved to
    the front, in their original order, so the top card is the one
    [k] places before the original top; the counter shows [k mod n + 1],
    always between 1 and [n]; and after [n] deals deck and counter are
    exactly as at the start. *)
Theorem deck_deals_cycle (l1 l2 : list Deck.Card) :
  let cards := l1 ++ l2 in
  let n := List.length cards in
  let k := List.length l2 in
  NoDup cards -> (2 <= n)%nat -> (1 <= k)%nat ->
  Deck.deals k (Deck.init cards)
  = Some (Deck.mk n (l2 ++ l1) (k mod n) (k mod n + 1) [])
  /\ (1 <= k mod n + 1 <= n)%nat
  /\ Deck.deals n (Deck.init cards) = Some (Deck.init cards).
Proof.
  intros cards n k Hd Hn Hk. split; [|split].
  - unfold Deck.init. fold n. apply (deck_deals_rotate n l2 l1 0%nat 1%nat Hn Hd Hk).
  - pose proof (Nat.mod_upper_bound k n ltac:(lia)). lia.
  - unfold Deck.init. fold n.
    pose proof (deck_deals_rotate n cards [] 0%nat 1%nat Hn) as R.
    cbn [app] in R. fold n in R. rewrite R; [|exact Hd|lia].
    rewrite app_nil_r. cbn [Nat.add]. rewrite Nat.Div0.mod_same. reflexivity.
Qed.

Lemma deck_deals_cycle_witness :
  Deck.deals 2 (Deck.init [10; 11; 12]%nat)
  = Some (Deck.mk 3 [11; 12; 10]%nat 2 3 []).
Proof.
  apply (deck_deals_cycle [10]%nat [11; 12]%nat).
  - repeat constructor; simpl; intuition lia.
  - simpl. lia.
  - simpl. lia.
Defined.

(** X14.  When a second click is handled before the animation of the
    first deal has ended, both listeners sit on the same top card and the
    one [animationend] runs both: the deck is rotated by one card but the
    counter advances by two, so for a deck of three or more cards the
    number shown no longer says which card is on top. *)
Theorem deck_double_click_desync
    (n : nat) (l : list Deck.Card) (c : Deck.Card) (i sh detail : nat) :
  (2 <= n)%nat -> ~ In c l -> detail <> 2%nat ->
  let d := Deck.mk n (l ++ [c]) i sh [] in
  exists d1 d2,
    Deck.click 1 d = Some d1 /\ Deck.click detail d1 = Some d2
    /\ Deck.animationend c d2
       = Deck.mk n (c :: l) ((i + 2) mod n) ((i + 2) mod n + 1) []
    /\ Deck.deal d = Some (Deck.mk n (c :: l) ((i + 1) mod n) ((i + 1) mod n + 1) [])
    /\ ((3 <= n)%nat -> ((i + 2) mod n <> (i + 1) mod n)%nat).
Proof.
  intros Hn Hc Hdet d.
  exists (Deck.mk n (l ++ [c]) i sh [c]), (Deck.mk n (l ++ [c]) i sh [c; c]).
  split; [|split; [|split; [|split]]].
  - unfold d, Deck.click. cbn [Nat.eqb Deck.total Deck.children].
    destruct (Nat.leb_spec n 1) as [L|L]; [lia|]. rewrite deck_last. reflexivity.
  - unfold Deck.click. cbn [Deck.total Deck.children].
    destruct (Nat.eqb_spec detail 2) as [E|E]; [contradiction|].
    destruct (Nat.leb_spec n 1) as [L|L]; [lia|]. rewrite deck_last. reflexivity.
  - unfold Deck.animationend. cbn. rewrite Nat.eqb_refl. cbn.
    unfold Deck.dealt. cbn. rewrite deck_prepend by exact Hc.
    unfold Deck.prepend. cbn. destruct (Nat.eq_dec c c); [|contradiction].
    rewrite notin_remove by exact Hc.
    rewrite Nat.Div0.add_mod_idemp_l.
    replace (i + 1 + 1)%nat with (i + 2)%nat by lia. reflexivity.
  - apply deck_deal; assumption.
  - intros H3 E.
    pose proof (Nat.div_mod_eq (i + 2) n). pose proof (Nat.div_mod_eq (i + 1) n).
    pose proof (Nat.mod_upper_bound (i + 1) n ltac:(lia)).
    pose proof (Nat.mod_upper_bound (i + 2) n ltac:(lia)).
    assert (n * ((i + 2) / n) = n * ((i + 1) / n) + 1)%nat by lia.
    assert (((i + 2) / n = (i + 1) / n) \/ ((i + 2) / n >= (i + 1) / n + 1)
            \/ ((i + 2) / n + 1 <= (i + 1) / n))%nat by lia.
    nia.
Qed.

Lemma deck_double_click_desync_witness :
  Deck.animationend 12%nat (Deck.mk 3 [10; 11; 12]%nat 0 1 [12; 12]%nat)
  = Deck.mk 3 [12; 10; 11]%nat 2 3 [].
Proof.
  assert (Hc : ~ In 12%nat [10; 11]%nat) by (simpl; intuition lia).
  destruct (deck_double_click_desync 3%nat [10; 11]%nat 12%nat 0%nat 1%nat 3%nat
              ltac:(lia) Hc ltac:(lia))
    as (d1 & d2 & E1 & E2 & E3 & _).
  cbv in E1. inversion E1; subst d1. cbv in E2. inversion E2; subst d2.
  exact E3.
Defined.

(** * The VHS shelf *)

Lemma classRemove_single i : VHS.classRemove i [i] = [].
Proof. unfold VHS.classRemove. simpl. rewrite Nat.eqb_refl. reflexivity. Qed.

Lemma vhs_step_ok st e : vhs_ok st -> vhs_ok (fst (VHS.step st e)).
Proof.
  unfold vhs_ok. intros H. destruct e as [tape| |k]; simpl.
  - unfold VHS.insertTape, VHS.ejectTape.
    destruct (VHS.currentTape st) as [cur|] eqn:Ec.
    + destruct (Nat.eqb (VHS.tape_id cur) (VHS.tape_id tape)); simpl.
      * rewrite ?Ec. exact H.
      * rewrite H, classRemove_single. reflexivity.
    + simpl. rewrite H. reflexivity.
  - unfold VHS.ejectTape. destruct (VHS.currentTape st) eqn:Ec; simpl;
      rewrite ?Ec; exact H.
  - destruct (nth_error (VHS.timers st) k) as [[tape|]|]; simpl; [exact H| |exact H].
    destruct (VHS.currentTape st) as [cur|]; simpl; [|exact H].
    rewrite H. apply classRemove_single.
Qed.

Lemma vhs_run_ok es : forall st, vhs_ok st -> vhs_ok (fst (VHS.run st es)).
Proof.
  induction es as [|e es IH]; intros st H; [exact H|].
  simpl. pose proof (vhs_step_ok st e H) as H1.
  destruct (VHS.step st e) as [st1 t1]. simpl in H1.
  specialize (IH st1 H1). destruct (VHS.run st1 es) as [st2 t2]. exact IH.
Qed.

(** X15.  Whatever tapes are clicked, however often eject is pressed
    and in whatever order the pending timeouts fire, at most one tape
    carries the class [inserted], and it is the current tape; with no
    current tape none is inserted. *)
Theorem vhs_one_tape_inserted (es : list VHS.Event) :
  let st := fst (VHS.run VHS.init es) in
  VHS.inserted st
  = match VHS.currentTape st with
    | Some t => [VHS.tape_id t]
    | None => []
    end.
Proof. apply (vhs_run_ok es VHS.init). reflexivity. Qed.

(** X16.  Eject pressed twice before the first eject's timeout has
    fired: both timeouts are scheduled, the first one clears the current
    tape, and the callback of the second throws a TypeError on
    [currentTape.classList]. *)
Theorem vhs_double_eject_throws (st : VHS.t) (a : VHS.Tape) :
  VHS.currentTape st = Some a -> VHS.timers st = [] ->
  snd (VHS.run st [VHS.clickEject; VHS.clickEject; VHS.timeout 0]) = false
  /\ VHS.currentTape
       (fst (VHS.run st [VHS.clickEject; VHS.clickEject; VHS.timeout 0])) = None
  /\ snd (VHS.run st [VHS.clickEject; VHS.clickEject; VHS.timeout 0; VHS.timeout 0])
     = true.
Proof.
  intros Ha Ht. destruct st as [cur ins act ld ttl vid tms].
  simpl in Ha, Ht. subst cur tms. cbn. auto.
Qed.

Lemma vhs_double_eject_throws_witness :
  snd (VHS.run VHS.init
         [VHS.clickTape (VHS.mkTape 1 None None); VHS.timeout 0;
          VHS.clickEject; VHS.clickEject; VHS.timeout 0; VHS.timeout 0]) = true.
Proof.
  pose proof (vhs_double_eject_throws
                (fst (VHS.run VHS.init
                        [VHS.clickTape (VHS.mkTape 1 None None); VHS.timeout 0]))
                (VHS.mkTape 1 None None) eq_refl eq_refl) as (_ & _ & T).
  exact T.
Defined.

(** X17.  Eject is pressed and another tape is clicked before the
    eject's timeout has fired: the timeout then ejects the new tape.  Once
    both timeouts have fired no tape is inserted and the player is closed,
    yet it carries the new tape's title and, if the tape has one, its
    video. *)
Theorem vhs_stale_eject (st : VHS.t) (a b : VHS.Tape) :
  VHS.currentTape st = Some a -> VHS.timers st = [] ->
  VHS.inserted st = [VHS.tape_id a] ->
  VHS.tape_id a <> VHS.tape_id b ->
  let r := VHS.run st [VHS.clickEject; VHS.clickTape b; VHS.timeout 0; VHS.timeout 0] in
  snd r = false
  /\ VHS.currentTape (fst r) = None
  /\ VHS.inserted (fst r) = []
  /\ VHS.playerActive (fst r) = false
  /\ VHS.timers (fst r) = []
  /\ VHS.nowTitle (fst r) = VHS.orDefault (VHS.stickerTitle b) VHS.dash
  /\ (VHS.truthy (VHS.dataVideo b) = true ->
      VHS.videoContainer (fst r) = VHS.dataVideo b).
Proof.
  intros Ha Ht Hi Hne r. subst r. destruct st as [cur ins act ld ttl vid tms].
  simpl in Ha, Ht, Hi. subst cur tms ins.
  unfold VHS.run, VHS.step, VHS.ejectTape, VHS.insertTape. cbn.
  destruct (Nat.eqb_spec (VHS.tape_id a) (VHS.tape_id b)) as [E|E]; [contradiction|].
  cbn. rewrite Nat.eqb_refl. cbn. rewrite Nat.eqb_refl. cbn.
  repeat split; try reflexivity. intros Hv. rewrite Hv. reflexivity.
Qed.

Lemma vhs_stale_eject_witness :
  let a := VHS.mkTape 1 None None in
  let b := VHS.mkTape 2 None None in
  VHS.currentTape
    (fst (VHS.run VHS.init
            [VHS.clickTape a; VHS.timeout 0;
             VHS.clickEject; VHS.clickTape b; VHS.timeout 0; VHS.timeout 0])) = None.
Proof.
  intros a b.
  pose proof (vhs_stale_eject
                (fst (VHS.run VHS.init [VHS.clickTape a; VHS.timeout 0])) a b
                eq_refl eq_refl eq_refl ltac:(simpl; lia)) as (_ & T & _).
  exact T.
Defined.

Lemma vhs_settled_step st e :
  vhs_settled st ->
  match e with VHS.timeout _ => True | _ => VHS.timers st = [] end ->
  vhs_settled (fst (VHS.step st e)) /\ snd (VHS.step st e) = false.
Proof.
  intros Hs Hp. pose proof (vhs_step_ok st e (proj1 Hs)) as Hok.
  destruct Hs as [_ Hs]. unfold vhs_settled. split; [split; [exact Hok|]|]; clear Hok.
  - destruct st as [cur ins act ld ttl vid tms]. simpl in Hs, Hp.
    destruct e as [tape| |k].
    + subst tms. destruct Hs as (Hl & Ha & Hn & Ht).
      unfold VHS.step, VHS.insertTape, VHS.ejectTape. simpl.
      destruct cur as [cur|]; simpl.
      * destruct (Nat.eqb (VHS.tape_id cur) (VHS.tape_id tape)); simpl;
          repeat split; congruence.
      * repeat split; reflexivity.
    + subst tms. unfold VHS.step, VHS.ejectTape. simpl.
      destruct cur as [cur|]; simpl; [repeat split; congruence|exact Hs].
    + unfold VHS.step. simpl.
      destruct tms as [|[tape|] [|tm tms]]; try contradiction.
      * destruct k; exact Hs.
      * destruct k as [|[|k]]; simpl; try exact Hs.
        destruct Hs as (Hc & Ha & Hn). subst cur act ttl.
        split; [reflexivity|]. split; [split; congruence|].
        split; [congruence|]. intros t E. inversion E; subst t.
        split; [reflexivity|]. intros Hv. rewrite Hv. reflexivity.
      * destruct k as [|[|k]]; simpl; try exact Hs.
        destruct Hs as (Hc & Hv & Hn).
        destruct cur as [cur|]; [|congruence]. simpl.
        repeat split; congruence.
  - destruct e as [tape| |k]; try reflexivity. simpl.
    destruct (VHS.timers st) as [|[tape|] [|tm tms]] eqn:Et; try contradiction;
      destruct k as [|[|k]]; try reflexivity.
    simpl. destruct Hs as (Hc & _).
    destruct (VHS.currentTape st); [reflexivity|congruence].
Qed.

Lemma vhs_settled_run es : forall st,
  vhs_settled st -> VHS.patient st es ->
  vhs_settled (fst (VHS.run st es)) /\ snd (VHS.run st es) = false.
Proof.
  induction es as [|e es IH]; intros st Hs Hp; [split; [exact Hs|reflexivity]|].
  simpl in Hp. destruct Hp as [Hp1 Hp2].
  destruct (vhs_settled_step st e Hs Hp1) as [H1 H2].
  simpl. destruct (VHS.step st e) as [st1 t1]. simpl in H1, H2, Hp2.
  destruct (IH st1 H1 Hp2) as [H3 H4].
  destruct (VHS.run st1 es) as [st2 t2]. simpl in H3, H4. subst t1 t2.
  split; [exact H3|reflexivity].
Qed.

Lemma vhs_init_settled : vhs_settled VHS.init.
Proof.
  split; [reflexivity|]. simpl. repeat split; try congruence.
Qed.

(** X18.  A user who clicks a tape or the eject button only when no
    timeout is pending never makes a callback throw, and whenever no
    timeout is pending the player is consistent: it is open exactly when
    a tape is inserted, it is not loading, an empty player shows the
    dash and no video, and an inserted tape shows its title and, if it
    has a video, that video. *)
Theorem vhs_patient_user (es : list VHS.Event) :
  VHS.patient VHS.init es ->
  let st := fst (VHS.run VHS.init es) in
  snd (VHS.run VHS.init es) = false
  /\ (VHS.timers st = [] ->
      VHS.playerLoading st = false
      /\ (VHS.playerActive st = true <-> VHS.currentTape st <> None)
      /\ (VHS.currentTape st = None ->
          VHS.videoContainer st = None /\ VHS.nowTitle st = VHS.dash)
      /\ (forall t, VHS.currentTape st = Some t ->
            VHS.nowTitle st = VHS.orDefault (VHS.stickerTitle t) VHS.dash
            /\ (VHS.truthy (VHS.dataVideo t) = true ->
                VHS.videoContainer st = VHS.dataVideo t))).
Proof.
  intros Hp st.
  destruct (vhs_settled_run es VHS.init vhs_init_settled Hp) as [[_ Hs] Ht].
  split; [exact Ht|]. intros E. fold st in Hs. rewrite E in Hs. exact Hs.
Qed.

Section VHSExample.

Import String.

Lemma vhs_patient_user_witness :
  let a := VHS.mkTape 1 (Some "Reel"%string) (Some "https://example.org/v"%string) in
  let es := [VHS.clickTape a; VHS.timeout 0; VHS.clickEject; VHS.timeout 0;
             VHS.clickTape a; VHS.timeout 0] in
  VHS.patient VHS.init es
  /\ snd (VHS.run VHS.init es) = false
  /\ VHS.videoContainer (fst (VHS.run VHS.init es)) = Some "https://example.org/v"%string.
Proof.
  intros a es.
  assert (Hp : VHS.patient VHS.init es) by (simpl; tauto).
  split; [exact Hp|].
  destruct (vhs_patient_user es Hp) as (T & Hs). split; [exact T|].
  destruct (Hs eq_refl) as (_ & _ & _ & Hv).
  destruct (Hv a eq_refl) as (_ & V). apply V. reflexivity.
Defined.

End VHSExample.

(** * The puzzle physics *)

Ltac fall_cases :=
  unfold Puzzle.fall, Puzzle.GRAVITY, Puzzle.BOUNCE, Puzzle.FRICTION, JS.Math_abs;
  repeat (js_cases; cbv beta iota zeta); cbn [Puzzle.x Puzzle.y Puzzle.vx Puzzle.vy
                                              Puzzle.placed Puzzle.dragging].

Lemma fall_in_view w p :
  Puzzle.y (Puzzle.fall w p) <= Puzzle.floorY w
  /\ Puzzle.x (Puzzle.fall w p) <= Puzzle.viewW w - Puzzle.TILE_W
  /\ (Puzzle.TILE_W <= Puzzle.viewW w -> 0 <= Puzzle.x (Puzzle.fall w p)).
Proof.
  fall_cases; repeat split; intros; lra.
Qed.

Lemma fall_vx w p : Rabs (Puzzle.vx (Puzzle.fall w p)) <= 0.98 * Rabs (Puzzle.vx p).
Proof.
  assert (Hm : Rabs (Puzzle.vx p * 0.98) = 0.98 * Rabs (Puzzle.vx p)).
  { rewrite Rabs_mult, (Rabs_pos_eq 0.98) by lra. lra. }
  pose proof (Rabs_pos (Puzzle.vx p)) as Hp.
  assert (Hv : - (0.98 * Rabs (Puzzle.vx p)) <= Puzzle.vx p * 0.98
               <= 0.98 * Rabs (Puzzle.vx p)) by (apply abs_le; lra).
  assert (Hvv : Rabs (Rabs (Puzzle.vx p * 0.98) * 0.3)
                = Rabs (Puzzle.vx p * 0.98) * 0.3) by (apply Rabs_pos_eq; lra).
  apply abs_le. fall_cases; rewrite ?Hvv; lra.
Qed.

Lemma fall_vy w p :
  Rabs (Puzzle.vy p) <= 29.4 -> Rabs (Puzzle.vy (Puzzle.fall w p)) <= 29.4.
Proof.
  rewrite !abs_le. intros H. fall_cases;
    try match goal with E : Rabs _ < _ |- _ => clear E end;
    try match goal with E : ~ Rabs _ < _ |- _ => clear E end; lra.
Qed.

Lemma fall_flags w p :
  Puzzle.placed (Puzzle.fall w p) = Puzzle.placed p
  /\ Puzzle.dragging (Puzzle.fall w p) = Puzzle.dragging p.
Proof. fall_cases; split; reflexivity. Qed.

Lemma update_flags w p :
  Puzzle.placed (Puzzle.update w p) = Puzzle.placed p
  /\ Puzzle.dragging (Puzzle.update w p) = Puzzle.dragging p.
Proof.
  unfold Puzzle.update.
  destruct (Puzzle.placed p || Puzzle.dragging p); [split; reflexivity|apply fall_flags].
Qed.

Lemma frames_flags w k p :
  Puzzle.placed (Puzzle.frames w k p) = Puzzle.placed p
  /\ Puzzle.dragging (Puzzle.frames w k p) = Puzzle.dragging p.
Proof.
  induction k as [|k IH]; [split; reflexivity|].
  unfold Puzzle.frames in *. simpl.
  destruct (update_flags w (Nat.iter k (Puzzle.update w) p)) as [A B].
  rewrite A, B. exact IH.
Qed.

Lemma update_free w p :
  Puzzle.placed p = false -> Puzzle.dragging p = false ->
  Puzzle.update w p = Puzzle.fall w p.
Proof. intros A B. unfold Puzzle.update. rewrite A, B. reflexivity. Qed.

Lemma frames_succ w k p :
  Puzzle.placed p = false -> Puzzle.dragging p = false ->
  Puzzle.frames w (S k) p = Puzzle.fall w (Puzzle.frames w k p).
Proof.
  intros A B. destruct (frames_flags w k p) as [C D].
  change (Puzzle.frames w (S k) p) with (Puzzle.update w (Puzzle.frames w k p)).
  apply update_free; congruence.
Qed.

Lemma fall_on_floor w p :
  Puzzle.y p = Puzzle.floorY w -> Puzzle.vy p = 0 ->
  Puzzle.y (Puzzle.fall w p) = Puzzle.floorY w /\ Puzzle.vy (Puzzle.fall w p) = 0.
Proof.
  intros Hy Hv. unfold Puzzle.fall, Puzzle.GRAVITY, Puzzle.BOUNCE, Puzzle.FRICTION,
    JS.Math_abs. rewrite Hy, Hv.
  assert (E1 : JS.ltb (Puzzle.floorY w) (Puzzle.floorY w + (0 + 0.6) * 0.98) = true).
  { unfold JS.ltb. destruct (Rlt_dec _ _); [reflexivity|lra]. }
  assert (E2 : JS.ltb (Rabs (- ((0 + 0.6) * 0.98) * 0.3)) 0.5 = true).
  { unfold JS.ltb. destruct (Rlt_dec _ _) as [|N]; [reflexivity|].
    exfalso. apply N. apply Rabs_def1; lra. }
  rewrite E1, E2. cbv beta iota zeta.
  repeat (js_cases; cbv beta iota zeta); split; reflexivity.
Qed.

(** X19.  After a run of [simulateGravity] every tile that is neither
    placed nor dragged is on or above the floor and left of the right
    wall; in a window at least one tile wide it is also right of the
    left wall.  (In a narrower window the right wall wins and the tile
    sits at the negative abscissa [viewW - TILE_W].) *)
Theorem gravity_keeps_tiles_in_view (w : Window) (ps : list Puzzle.Piece) :
  Forall (fun p =>
            Puzzle.placed p = false -> Puzzle.dragging p = false ->
            Puzzle.y p <= Puzzle.floorY w
            /\ Puzzle.x p <= Puzzle.viewW w - Puzzle.TILE_W
            /\ (Puzzle.TILE_W <= Puzzle.viewW w -> 0 <= Puzzle.x p))
         (fst (Puzzle.simulateGravity w ps)).
Proof.
  unfold Puzzle.simulateGravity. simpl. apply Forall_forall.
  intros q Hq. apply in_map_iff in Hq. destruct Hq as (p & <- & _).
  intros A B. destruct (update_flags w p) as [C D].
  rewrite update_free by congruence. apply fall_in_view.
Qed.

(** X20.  Over any number of frames a free tile's horizontal speed
    shrinks at least geometrically, by the friction 0.98 per frame,
    wall bounces included; and its vertical speed, once at most the
    terminal 29.4 pixels per frame, never exceeds it again. *)
Theorem gravity_speed_bounds (w : Window) (k : nat) (p : Puzzle.Piece) :
  Puzzle.placed p = false -> Puzzle.dragging p = false ->
  Rabs (Puzzle.vx (Puzzle.frames w k p)) <= 0.98 ^ k * Rabs (Puzzle.vx p)
  /\ (Rabs (Puzzle.vy p) <= 29.4 ->
      Rabs (Puzzle.vy (Puzzle.frames w k p)) <= 29.4).
Proof.
  intros A B. induction k as [|k [IH1 IH2]].
  - simpl. split; [lra|tauto].
  - rewrite frames_succ by assumption. split.
    + pose proof (fall_vx w (Puzzle.frames w k p)) as F.
      simpl. nra.
    + intros H. apply fall_vy. apply IH2. exact H.
Qed.

Lemma gravity_speed_bounds_witness :
  Rabs (Puzzle.vx (Puzzle.frames (mkWindow 800 600) 2
                     (Puzzle.mkPiece 100 0 3 0 false false)))
  <= 0.98 ^ 2 * Rabs 3.
Proof.
  apply (gravity_speed_bounds (mkWindow 800 600) 2
           (Puzzle.mkPiece 100 0 3 0 false false) eq_refl eq_refl).
Defined.

(** X21.  When every tile is placed, being dragged, or lying still on
    the floor between the walls, a run of [simulateGravity] changes no
    tile and requests no further frame. *)
Theorem gravity_rest_stops_loop (w : Window) (ps : list Puzzle.Piece) :
  Forall (fun p => Puzzle.placed p = true \/ Puzzle.dragging p = true
                   \/ at_rest w p) ps ->
  Puzzle.simulateGravity w ps = (ps, false).
Proof.
  intros H. unfold Puzzle.simulateGravity.
  assert (Hm : map (Puzzle.update w) ps = ps).
  { induction H as [|p ps Hp _ IH]; [reflexivity|]. simpl. rewrite IH. f_equal.
    unfold Puzzle.update.
    destruct (Puzzle.placed p) eqn:A; [reflexivity|].
    destruct (Puzzle.dragging p) eqn:B; [reflexivity|]. simpl.
    destruct Hp as [Hp|[Hp|(Hx & Hy & Hf & Hr)]]; try congruence.
    destruct (fall_on_floor w p Hf Hy) as [Fy Fv].
    destruct (fall_flags w p) as [Fp Fd].
    assert (Fx : Puzzle.x (Puzzle.fall w p) = Puzzle.x p
                 /\ Puzzle.vx (Puzzle.fall w p) = 0).
    { clear Fy Fv Fp Fd. fall_cases; rewrite ?Hx in *; split; lra. }
    destruct Fx as [Fx Fvx].
    destruct (Puzzle.fall w p) as [x' y' vx' vy' pl' dr'].
    destruct p as [x0 y0 vx0 vy0 pl dr]. simpl in *. congruence. }
  rewrite Hm. f_equal.
  apply not_true_is_false. intros E. apply existsb_exists in E.
  destruct E as (p & Hin & Hp). rewrite Forall_forall in H.
  apply andb_true_iff in Hp. destruct Hp as [Hfree Hmov].
  apply negb_true_iff, orb_false_iff in Hfree. destruct Hfree as [A B].
  destruct (H p Hin) as [Hp|[Hp|(Hx & Hy & Hf & Hr)]]; try congruence.
  unfold Puzzle.moving, JS.Math_abs in Hmov. rewrite Hx, Hy, Hf, Rabs_R0 in Hmov.
  unfold JS.ltb in Hmov.
  repeat match type of Hmov with context [Rlt_dec ?a ?b] =>
    destruct (Rlt_dec a b); try lra end.
Qed.

Lemma gravity_rest_stops_loop_witness :
  Puzzle.simulateGravity (mkWindow 800 600)
    [Puzzle.mkPiece 100 530 0 0 false false; Puzzle.mkPiece 5 5 1 1 true false]
  = ([Puzzle.mkPiece 100 530 0 0 false false; Puzzle.mkPiece 5 5 1 1 true false],
     false).
Proof.
  apply gravity_rest_stops_loop.
  apply Forall_cons; [|apply Forall_cons; [|apply Forall_nil]].
  - right. right. unfold at_rest, Puzzle.floorY, Puzzle.viewW, Puzzle.TILE_W,
      Puzzle.TILE_H. simpl. repeat split; lra.
  - left. reflexivity.
Defined.

(** X22.  A free tile lying on the floor, whatever its horizontal
    speed, stays on the floor, and from some frame on it no longer keeps
    the physics loop alive. *)
Theorem gravity_floor_slide_stops (w : Window) (p : Puzzle.Piece) :
  Puzzle.placed p = false -> Puzzle.dragging p = false ->
  Puzzle.y p = Puzzle.floorY w -> Puzzle.vy p = 0 ->
  exists k, forall n, (k <= n)%nat ->
    Puzzle.y (Puzzle.frames w n p) = Puzzle.floorY w
    /\ Puzzle.moving w (Puzzle.frames w n p) = false.
Proof.
  intros A B Hy Hv.
  assert (Hf : forall n, Puzzle.y (Puzzle.frames w n p) = Puzzle.floorY w
                         /\ Puzzle.vy (Puzzle.frames w n p) = 0).
  { induction n as [|n [I1 I2]]; [split; assumption|].
    rewrite frames_succ by assumption. apply fall_on_floor; assumption. }
  pose proof (Rabs_pos (Puzzle.vx p)) as Hp.
  destruct (pow_lt_1_zero 0.98 ltac:(rewrite Rabs_pos_eq; lra)
              (0.1 / (Rabs (Puzzle.vx p) + 1))
              ltac:(apply Rdiv_lt_0_compat; lra)) as [k Hk].
  exists k. intros n Hn. destruct (Hf n) as [F1 F2]. split; [exact F1|].
  destruct (gravity_speed_bounds w n p A B) as [Hvx _].
  specialize (Hk n Hn). rewrite Rabs_pos_eq in Hk by (apply pow_le; lra).
  assert (Hs : Rabs (Puzzle.vx (Puzzle.frames w n p)) < 0.1).
  { apply Rle_lt_trans with (1 := Hvx).
    apply Rle_lt_trans with (0.98 ^ n * (Rabs (Puzzle.vx p) + 1)).
    - apply Rmult_le_compat_l; [apply pow_le; lra|lra].
    - apply Rmult_lt_reg_r with (/ (Rabs (Puzzle.vx p) + 1)).
      + apply Rinv_0_lt_compat; lra.
      + rewrite Rmult_assoc, Rinv_r by lra. unfold Rdiv in Hk. lra. }
  unfold Puzzle.moving, JS.Math_abs. rewrite F1, F2, Rabs_R0.
  unfold JS.ltb.
  repeat match goal with |- context [Rlt_dec ?a ?b] =>
    destruct (Rlt_dec a b); try lra end.
Qed.

Lemma gravity_floor_slide_stops_witness :
  exists k, forall n, (k <= n)%nat ->
    Puzzle.y (Puzzle.frames (mkWindow 800 600) n
                (Puzzle.mkPiece 100 530 3 0 false false))
    = Puzzle.floorY (mkWindow 800 600)
    /\ Puzzle.moving (mkWindow 800 600)
         (Puzzle.frames (mkWindow 800 600) n
            (Puzzle.mkPiece 100 530 3 0 false false)) = false.
Proof.
  apply (gravity_floor_slide_stops (mkWindow 800 600)
           (Puzzle.mkPiece 100 530 3 0 false false) eq_refl eq_refl).
  - unfold Puzzle.floorY, Puzzle.TILE_H. simpl. lra.
  - reflexivity.
Defined.

(** * The project carousel *)

Lemma at_index_some tiles i :
  (0 <= i < Z.of_nat (List.length tiles))%Z ->
  exists tile, Modal.at_index tiles i = Some tile
               /\ nth_error tiles (Z.to_nat i) = Some tile.
Proof.
  intros H. unfold Modal.at_index.
  destruct (Z.ltb_spec i 0); [lia|].
  destruct (nth_error tiles (Z.to_nat i)) as [tile|] eqn:E.
  - exists tile. split; reflexivity.
  - apply nth_error_None in E. lia.
Qed.

Lemma update_in_range i tiles st :
  (0 <= i < Z.of_nat (List.length tiles))%Z ->
  exists tile,
    nth_error tiles (Z.to_nat i) = Some tile
    /\ Modal.updateModalContent i tiles st
       = Modal.mk i tiles (Some tile) (Modal.modalActive st).
Proof.
  intros H. destruct (at_index_some tiles i H) as (tile & E & N).
  exists tile. split; [exact N|]. unfold Modal.updateModalContent.
  destruct tiles; [simpl in H; lia|]. rewrite E. reflexivity.
Qed.

Lemma update_nonneg i tiles st :
  (0 <= Modal.currentIndex st)%Z ->
  (0 <= Modal.currentIndex (Modal.updateModalContent i tiles st))%Z.
Proof.
  intros H. unfold Modal.updateModalContent.
  destruct tiles as [|a l]; [exact H|].
  destruct (Modal.at_index (a :: l) i) eqn:E; [|exact H].
  simpl. unfold Modal.at_index in E. destruct (Z.ltb_spec i 0); [discriminate|lia].
Qed.

Lemma modal_step_nonneg st e :
  (0 <= Modal.currentIndex st)%Z -> (0 <= Modal.currentIndex (Modal.step st e))%Z.
Proof.
  intros H.
  assert (Hn : forall tiles, (0 <= Modal.currentIndex (Modal.showNextProject tiles st))%Z).
  { intros [|a l]; [exact H|]. apply update_nonneg, H. }
  assert (Hp : forall tiles, (0 <= Modal.currentIndex (Modal.showPrevProject tiles st))%Z).
  { intros [|a l]; [exact H|]. apply update_nonneg, H. }
  destruct e; simpl; try exact H; try apply Hn; try apply Hp;
    try (destruct (Modal.modalActive st); [|exact H]; try exact H;
         try apply Hn; try apply Hp).
  unfold Modal.openModal. destruct (_ =? -1)%Z; [exact H|]. simpl.
  apply update_nonneg, H.
Qed.

Lemma modal_run_nonneg es : forall st,
  (0 <= Modal.currentIndex st)%Z -> (0 <= Modal.currentIndex (Modal.run st es))%Z.
Proof.
  induction es as [|e es IH]; intros st H; [exact H|].
  apply IH, modal_step_nonneg, H.
Qed.

Lemma next_spec tiles st :
  tiles <> [] -> (0 <= Modal.currentIndex st)%Z ->
  let j := ((Modal.currentIndex st + 1) mod Z.of_nat (List.length tiles))%Z in
  exists tile,
    nth_error tiles (Z.to_nat j) = Some tile
    /\ Modal.showNextProject tiles st
       = Modal.mk j tiles (Some tile) (Modal.modalActive st).
Proof.
  intros Hne Hi j.
  assert (Hl : (0 < Z.of_nat (List.length tiles))%Z)
    by (destruct tiles; [congruence|simpl; lia]).
  assert (Hj : (0 <= j < Z.of_nat (List.length tiles))%Z)
    by (apply Z.mod_pos_bound; exact Hl).
  destruct (update_in_range j tiles st Hj) as (tile & N & U).
  exists tile. split; [exact N|].
  unfold Modal.showNextProject, Modal.jsmod.
  rewrite Z.rem_mod_nonneg by lia. fold j.
  destruct tiles; [congruence|exact U].
Qed.

Lemma prev_spec tiles st :
  tiles <> [] -> (0 <= Modal.currentIndex st)%Z ->
  let j := ((Modal.currentIndex st - 1) mod Z.of_nat (List.length tiles))%Z in
  exists tile,
    nth_error tiles (Z.to_nat j) = Some tile
    /\ Modal.showPrevProject tiles st
       = Modal.mk j tiles (Some tile) (Modal.modalActive st).
Proof.
  intros Hne Hi j.
  assert (Hl : (0 < Z.of_nat (List.length tiles))%Z)
    by (destruct tiles; [congruence|simpl; lia]).
  assert (Hj : (0 <= j < Z.of_nat (List.length tiles))%Z)
    by (apply Z.mod_pos_bound; exact Hl).
  destruct (update_in_range j tiles st Hj) as (tile & N & U).
  exists tile. split; [exact N|].
  unfold Modal.showPrevProject, Modal.jsmod.
  rewrite Z.rem_mod_nonneg by lia.
  replace (Modal.currentIndex st - 1 + Z.of_nat (List.length tiles))%Z
    with (Modal.currentIndex st - 1 + 1 * Z.of_nat (List.length tiles))%Z by lia.
  rewrite Z_mod_plus_full. fold j.
  destruct tiles; [congruence|exact U].
Qed.

(** X23.  Whatever was clicked and pressed before, and whatever cards
    the filter leaves visible now (as long as there is one), the next
    and the previous button each put a card of the visible list into the
    modal, at an index inside the list; the left operand of [%] is never
    negative, also when the stored index is stale. *)
Theorem modal_carousel_shows_a_tile (es : list Modal.Event) (tiles : list Modal.Tile) :
  tiles <> [] ->
  let st := Modal.run Modal.init es in
  Forall (fun st' =>
            (0 <= Modal.currentIndex st' < Z.of_nat (List.length tiles))%Z
            /\ exists tile,
                 Modal.shown st' = Some tile
                 /\ nth_error tiles (Z.to_nat (Modal.currentIndex st')) = Some tile)
         [Modal.showNextProject tiles st; Modal.showPrevProject tiles st].
Proof.
  intros Hne st.
  assert (Hi : (0 <= Modal.currentIndex st)%Z)
    by (apply modal_run_nonneg; simpl; lia).
  assert (Hl : (0 < Z.of_nat (List.length tiles))%Z)
    by (destruct tiles; [congruence|simpl; lia]).
  destruct (next_spec tiles st Hne Hi) as (t1 & N1 & E1).
  destruct (prev_spec tiles st Hne Hi) as (t2 & N2 & E2).
  rewrite E1, E2. repeat apply Forall_cons; try apply Forall_nil; simpl.
  - split; [apply Z.mod_pos_bound; exact Hl|]. exists t1. split; [reflexivity|exact N1].
  - split; [apply Z.mod_pos_bound; exact Hl|]. exists t2. split; [reflexivity|exact N2].
Qed.

Lemma modal_carousel_shows_a_tile_witness :
  Modal.shown
    (Modal.showPrevProject [7; 8; 9]%nat
       (Modal.run Modal.init [Modal.clickTile 7%nat [7; 8; 9]%nat])) = Some 9%nat.
Proof.
  pose proof (modal_carousel_shows_a_tile
                [Modal.clickTile 7%nat [7; 8; 9]%nat] [7; 8; 9]%nat
                ltac:(discriminate)) as T.
  cbv zeta in T. apply Forall_inv_tail, Forall_inv in T.
  destruct T as (_ & tile & S1 & N1). rewrite S1, <- N1. reflexivity.
Defined.

(** X24.  With the stored index inside the visible list, next and
    previous undo each other. *)
Theorem modal_next_prev_inverse (tiles : list Modal.Tile) (st : Modal.t) :
  (0 <= Modal.currentIndex st < Z.of_nat (List.length tiles))%Z ->
  Modal.currentIndex (Modal.showPrevProject tiles (Modal.showNextProject tiles st))
  = Modal.currentIndex st
  /\ Modal.currentIndex (Modal.showNextProject tiles (Modal.showPrevProject tiles st))
     = Modal.currentIndex st.
Proof.
  intros H.
  assert (Hne : tiles <> []) by (destruct tiles; [simpl in H; lia|discriminate]).
  assert (Hi : (0 <= Modal.currentIndex st)%Z) by lia.
  destruct (next_spec tiles st Hne Hi) as (t1 & _ & E1).
  destruct (prev_spec tiles st Hne Hi) as (t2 & _ & E2).
  set (n := Z.of_nat (List.length tiles)) in *.
  set (i := Modal.currentIndex st) in *.
  assert (H1 : (0 <= (i + 1) mod n < n)%Z) by (apply Z.mod_pos_bound; lia).
  assert (H2 : (0 <= (i - 1) mod n < n)%Z) by (apply Z.mod_pos_bound; lia).
  split.
  - destruct (prev_spec tiles (Modal.showNextProject tiles st) Hne) as (t3 & _ & E3).
    { rewrite E1. simpl. lia. }
    rewrite E3, E1. simpl. fold n.
    rewrite Zminus_mod_idemp_l. replace (i + 1 - 1)%Z with i by lia.
    apply Z.mod_small. lia.
  - destruct (next_spec tiles (Modal.showPrevProject tiles st) Hne) as (t3 & _ & E3).
    { rewrite E2. simpl. lia. }
    rewrite E3, E2. simpl. fold n.
    rewrite Zplus_mod_idemp_l. replace (i - 1 + 1)%Z with i by lia.
    apply Z.mod_small. lia.
Qed.

Lemma modal_next_prev_inverse_witness :
  Modal.currentIndex
    (Modal.showNextProject [7; 8; 9]%nat
       (Modal.showPrevProject [7; 8; 9]%nat Modal.init)) = 0%Z.
Proof.
  apply (modal_next_prev_inverse [7; 8; 9]%nat Modal.init).
  simpl. lia.
Defined.

(** X25.  Pressing next [k] times on an unchanged list of visible cards
    moves the index [k] places round the list; as many presses as there
    are cards bring the first card back. *)
Theorem modal_next_cycles (tiles : list Modal.Tile) (st : Modal.t) (k : nat) :
  (0 <= Modal.currentIndex st < Z.of_nat (List.length tiles))%Z ->
  Modal.currentIndex (Nat.iter k (Modal.showNextProject tiles) st)
  = ((Modal.currentIndex st + Z.of_nat k) mod Z.of_nat (List.length tiles))%Z
  /\ Modal.currentIndex
       (Nat.iter (List.length tiles) (Modal.showNextProject tiles) st)
     = Modal.currentIndex st.
Proof.
  intros H.
  assert (Hne : tiles <> []) by (destruct tiles; [simpl in H; lia|discriminate]).
  set (n := Z.of_nat (List.length tiles)) in *.
  assert (G : forall j,
             Modal.currentIndex (Nat.iter j (Modal.showNextProject tiles) st)
             = ((Modal.currentIndex st + Z.of_nat j) mod n)%Z).
  { induction j as [|j IH].
    - simpl. rewrite Z.add_0_r, Z.mod_small by lia. reflexivity.
    - cbn [Nat.iter nat_rect].
      destruct (next_spec tiles (Nat.iter j (Modal.showNextProject tiles) st) Hne)
        as (t1 & _ & E1).
      { rewrite IH. apply Z.mod_pos_bound. lia. }
      unfold Nat.iter in E1, IH. rewrite E1. simpl. rewrite IH. fold n.
      rewrite Zplus_mod_idemp_l. f_equal. lia. }
  split; [apply G|]. rewrite G. fold n.
  replace (Modal.currentIndex st + n)%Z with (Modal.currentIndex st + 1 * n)%Z by lia.
  rewrite Z_mod_plus_full. apply Z.mod_small. lia.
Qed.

Lemma modal_next_cycles_witness :
  Modal.currentIndex
    (Nat.iter 3 (Modal.showNextProject [7; 8; 9]%nat)
       (Modal.mk 1 [7; 8; 9]%nat (Some 8%nat) true)) = 1%Z.
Proof.
  apply (modal_next_cycles [7; 8; 9]%nat (Modal.mk 1 [7; 8; 9]%nat (Some 8%nat) true) 3).
  simpl. lia.
Defined.

(** * The timeline *)

Lemma forEach_from_length {A B} (f : A -> nat -> B) l : forall i,
  List.length (Timeline.forEach_from f i l) = List.length l.
Proof. induction l as [|a l IH]; intros i; simpl; [reflexivity|now rewrite IH]. Qed.

Lemma forEach_from_nth {A B} (f : A -> nat -> B) l : forall i k,
  nth_error (Timeline.forEach_from f i l) k
  = option_map (fun a => f a (i + k)%nat) (nth_error l k).
Proof.
  induction l as [|a l IH]; intros i k; simpl.
  - destruct k; reflexivity.
  - destruct k as [|k]; simpl.
    + rewrite Nat.add_0_r. reflexivity.
    + rewrite IH. rewrite Nat.add_succ_r. reflexivity.
Qed.

Lemma sideOf_shift n i :
  Timeline.sideOf (n + i) = Timeline.sideOf i <-> Nat.even n = true.
Proof.
  unfold Timeline.sideOf.
  rewrite <- (Nat.Div0.add_mod_idemp_l n i 2), <- (Nat.Div0.add_mod_idemp_r (n mod 2) i 2).
  rewrite (Nat.even_spec n). 
  pose proof (Nat.mod_upper_bound n 2 ltac:(lia)) as Hn.
  pose proof (Nat.mod_upper_bound i 2 ltac:(lia)) as Hi.
  assert (En : Nat.Even n <-> n mod 2 = 0%nat).
  { split.
    - intros [m ->]. rewrite Nat.mul_comm. apply Nat.Div0.mod_mul.
    - intros E. exists (n / 2)%nat. pose proof (Nat.div_mod_eq n 2). lia. }
  rewrite En.
  destruct (n mod 2)%nat as [|[|?]]; [| |lia];
    destruct (i mod 2)%nat as [|[|?]]; try lia; simpl; split; intros; try reflexivity;
      try discriminate; try lia.
Qed.

(** X26.  On a wrapper not yet animated, [initializeTimelineAnimation]
    doubles the items: item [k] of the result shows what item
    [k mod n] of the original showed and carries exactly one of the two
    classes, [top] at the even places and [bottom] at the odd ones, over
    originals and clones alike; a second call changes nothing. *)
Theorem timeline_alternates (w : Timeline.Wrapper) :
  Timeline.animated w = false ->
  let n := List.length (Timeline.children w) in
  let w' := Timeline.initializeTimelineAnimation w in
  List.length (Timeline.children w') = (2 * n)%nat
  /\ (forall k, (k < 2 * n)%nat ->
        exists item,
          nth_error (Timeline.children w) (k mod n) = Some item
          /\ nth_error (Timeline.children w') k
             = Some (Timeline.mkItem (Timeline.content item) [Timeline.sideOf k]))
  /\ Timeline.initializeTimelineAnimation w' = w'.
Proof.
  intros Ha n w'. unfold w', Timeline.initializeTimelineAnimation. rewrite Ha.
  cbn [Timeline.children Timeline.animated].
  rewrite forEach_from_length. fold n.
  split; [|split; [|reflexivity]].
  - rewrite length_app, !forEach_from_length. fold n. lia.
  - intros k Hk.
    assert (Hn : (0 < n)%nat) by lia.
    destruct (Nat.lt_ge_cases k n) as [Hlt|Hge].
    + rewrite Nat.mod_small by exact Hlt.
      destruct (nth_error (Timeline.children w) k) as [item|] eqn:E;
        [|apply nth_error_None in E; fold n in E; lia].
      exists item. split; [reflexivity|].
      rewrite nth_error_app1 by (rewrite forEach_from_length; exact Hlt).
      rewrite forEach_from_nth, E. reflexivity.
    + assert (Hm : (k mod n = k - n)%nat).
      { replace k with ((k - n) + 1 * n)%nat at 1 by lia.
        rewrite Nat.Div0.mod_add. apply Nat.mod_small. lia. }
      rewrite Hm.
      destruct (nth_error (Timeline.children w) (k - n)) as [item|] eqn:E;
        [|apply nth_error_None in E; fold n in E; lia].
      exists item. split; [reflexivity|].
      rewrite nth_error_app2 by (rewrite forEach_from_length; exact Hge).
      rewrite forEach_from_length. fold n.
      rewrite !forEach_from_nth, E. simpl.
      replace (n + (k - n))%nat with k by lia. reflexivity.
Qed.

Lemma timeline_alternates_witness :
  Timeline.children
    (Timeline.initializeTimelineAnimation
       (Timeline.mkWrapper
          [Timeline.mkItem 1 []; Timeline.mkItem 2 [Timeline.top; Timeline.bottom];
           Timeline.mkItem 3 [Timeline.top]] false))
  = [Timeline.mkItem 1 [Timeline.top]; Timeline.mkItem 2 [Timeline.bottom];
     Timeline.mkItem 3 [Timeline.top]; Timeline.mkItem 1 [Timeline.bottom];
     Timeline.mkItem 2 [Timeline.top]; Timeline.mkItem 3 [Timeline.bottom]]
  /\ List.length
       (Timeline.children
          (Timeline.initializeTimelineAnimation
             (Timeline.mkWrapper
                [Timeline.mkItem 1 []; Timeline.mkItem 2 [Timeline.top; Timeline.bottom];
                 Timeline.mkItem 3 [Timeline.top]] false))) = 6%nat.
Proof.
  split; [reflexivity|].
  apply (timeline_alternates
           (Timeline.mkWrapper
              [Timeline.mkItem 1 []; Timeline.mkItem 2 [Timeline.top; Timeline.bottom];
               Timeline.mkItem 3 [Timeline.top]] false) eq_refl).
Defined.

(** X27.  A clone carries the same class as the item it was cloned
    from exactly when the number of items is even; with an odd number of
    items every clone is on the opposite side of its original. *)
Theorem timeline_clone_side (w : Timeline.Wrapper) (i : nat) :
  Timeline.animated w = false ->
  (i < List.length (Timeline.children w))%nat ->
  let n := List.length (Timeline.children w) in
  let w' := Timeline.initializeTimelineAnimation w in
  option_map Timeline.classes (nth_error (Timeline.children w') (n + i))
  = option_map Timeline.classes (nth_error (Timeline.children w') i)
  <-> Nat.even n = true.
Proof.
  intros Ha Hi n w'. fold n in Hi.
  destruct (timeline_alternates w Ha) as (_ & Hk & _). fold n w' in Hk.
  destruct (Hk i ltac:(lia)) as (it1 & _ & E1).
  destruct (Hk (n + i)%nat ltac:(lia)) as (it2 & _ & E2).
  rewrite E1, E2. simpl. rewrite <- sideOf_shift with (i := i).
  split; [intros E; injection E; auto|intros ->; reflexivity].
Qed.

Lemma timeline_clone_side_witness :
  option_map Timeline.classes
    (nth_error
       (Timeline.children
          (Timeline.initializeTimelineAnimation
             (Timeline.mkWrapper
                [Timeline.mkItem 1 []; Timeline.mkItem 2 []] false))) (2 + 1))
  = option_map Timeline.classes
      (nth_error
         (Timeline.children
            (Timeline.initializeTimelineAnimation
               (Timeline.mkWrapper
                  [Timeline.mkItem 1 []; Timeline.mkItem 2 []] false))) 1).
Proof.
  apply (timeline_clone_side
           (Timeline.mkWrapper [Timeline.mkItem 1 []; Timeline.mkItem 2 []] false)
           1 eq_refl ltac:(simpl; lia)).
  reflexivity.
Defined.
